(** * Relatorio: trip and expense ledger, settlement and storage

    A shallow embedding of the travel-expense tracker:
    - [types.ts]: the Trip and Expense records and their enumerations;
    - [services/storageService]: the two persistence back ends, the flat
      JSON lists kept in [localStorage] and the IndexedDB object stores;
    - [services/geminiService.ts]: [retryOperation],
      [getEstimatedExchangeRate], [suggestCurrencyForCountry] and
      [analyzeReceipt];
    - [contexts/SettingsContext]: the translations, [t] and the provider of
      language and theme;
    - [components/ExpenseForm.tsx], [components/TripWizard.tsx] and
      [components/TripDashboard.tsx]: the handlers that compute amounts,
      rates, totals, settlement labels, the chart and the CSV export, that
      scan a receipt, and that load, save and close a trip.

    Modelling conventions.
    - A JavaScript [number] is a binary64 number: a finite one is given by
      its exact value, a rational (type [Qc]), and every arithmetic
      operation rounds its exact result to the nearest binary64, to an
      infinity beyond the range. The two zeros are one value. A field
      declared [number] can also hold [null] at run time: it is what
      [JSON.parse] returns where [JSON.stringify] wrote a NaN or an
      infinity.
    - Strings are byte strings (the UTF-8 encoding of the JavaScript string).
    - An awaited promise is the value it settles to ([Resolved] or
      [Rejected]); timers and the order of pending callbacks are outside the
      model.
    - What the browser does during a call of a storage service (an
      exception of [localStorage], a failed or aborted transaction of
      IndexedDB) is an argument of the call. *)

From Stdlib Require Import QArith Qcanon Qround Qpower Lqa Ascii DecimalString.
From Stdlib Require Import Sorting.Sorted Structures.OrdersEx.
From stdpp Require Import base list strings numbers sets sorting.

Set Default Proof Using "Type".
Open Scope string_scope.
Open Scope list_scope.

(** ** JavaScript numbers *)

(** A value of a field declared [number]: a finite number, given by its
    exact value; an infinity; NaN; or [null], which is what [JSON.parse]
    returns where [JSON.stringify] wrote a NaN or an infinity. *)
Inductive number : Type :=
  | Num (q : Qc)
  | Infinity (negative : bool)
  | NaN
  | Null.

#[global] Instance number_eq_dec : EqDecision number.
Proof. solve_decision. Defined.

(** The rational [n / d]. *)
Definition fraction (n : Z) (d : positive) : Qc := Q2Qc (n # d).

(** [2 ^ k], for an integer [k] of either sign. *)
Definition pow2 (k : Z) : Qc := Q2Qc (Qpower (2 # 1) k).

(** The integer [k] with [2 ^ k <= a < 2 ^ (k + 1)], for a positive [a]. *)
Definition Qc_log2 (a : Qc) : Z :=
  let k := (Z.log2 (Qnum a) - Z.log2 (Z.pos (Qden a)))%Z in
  if bool_decide (pow2 k ≤ a)%Qc then k else (k - 1)%Z.

(** The integer nearest to [r], the even one of the two when [r] lies half
    way between them. *)
Definition round_half_even (r : Qc) : Z :=
  let f := Qfloor r in
  let d := (r - Q2Qc (inject_Z f))%Qc in
  if bool_decide (d < fraction 1 2)%Qc then f
  else if bool_decide (fraction 1 2 < d)%Qc then (f + 1)%Z
  else if Z.even f then f else (f + 1)%Z.

(** Rounding of an exact result to binary64, to the nearest, ties to even
    (IEEE 754): the result is a multiple [m * 2 ^ e] with [m] of at most 53
    bits and [e] at least -1074, an infinity from [2 ^ 1024] on. *)
Definition binary64 (q : Qc) : number :=
  if decide (q = 0%Qc) then Num 0
  else
    let negative := bool_decide (q < 0)%Qc in
    let a := if negative then (- q)%Qc else q in
    let e := Z.max (-1074) (Qc_log2 a - 52) in
    let m := round_half_even (a / pow2 e)%Qc in
    let v := (Q2Qc (inject_Z m) * pow2 e)%Qc in
    if bool_decide (pow2 1024 ≤ v)%Qc then Infinity negative
    else Num (if negative then (- v)%Qc else v).

(** The decimal literal [n / d]: the binary64 number nearest to it. *)
Definition dec (n : Z) (d : positive) : Qc :=
  match binary64 (fraction n d) with
  | Num q => q
  | _ => 0%Qc
  end.

(** ToNumber on the values a [number] field can hold: [null] converts to 0. *)
Definition ToNumber (v : number) : number :=
  match v with
  | Null => Num 0
  | _ => v
  end.

(** [a + b], [a - b], [a * b] and [a / b] of binary64: the exact result
    rounded, and the results IEEE 754 lays down for infinities and NaN. *)
Definition js_add (a b : number) : number :=
  match ToNumber a, ToNumber b with
  | Num x, Num y => binary64 (x + y)
  | Infinity s, Num _ => Infinity s
  | Num _, Infinity s => Infinity s
  | Infinity s, Infinity s' => if bool_decide (s = s') then Infinity s else NaN
  | _, _ => NaN
  end.

Definition js_sub (a b : number) : number :=
  match ToNumber a, ToNumber b with
  | Num x, Num y => binary64 (x - y)
  | Infinity s, Num _ => Infinity s
  | Num _, Infinity s => Infinity (negb s)
  | Infinity s, Infinity s' => if bool_decide (s = s') then NaN else Infinity s
  | _, _ => NaN
  end.

Definition js_mul (a b : number) : number :=
  match ToNumber a, ToNumber b with
  | Num x, Num y => binary64 (x * y)
  | Infinity s, Num y | Num y, Infinity s =>
      if decide (y = 0%Qc) then NaN else Infinity (xorb s (bool_decide (y < 0)%Qc))
  | Infinity s, Infinity s' => Infinity (xorb s s')
  | _, _ => NaN
  end.

(** The zero of a [Num] stands for both zeros of binary64, which differ only
    as divisors; a division by zero is given the sign of its dividend. *)
Definition js_div (a b : number) : number :=
  match ToNumber a, ToNumber b with
  | Num x, Num y =>
      if decide (y = 0%Qc)
      then if decide (x = 0%Qc) then NaN else Infinity (bool_decide (x < 0)%Qc)
      else binary64 (x / y)
  | Infinity s, Num y => Infinity (xorb s (bool_decide (y < 0)%Qc))
  | Num _, Infinity _ => Num 0
  | _, _ => NaN
  end.

(** ToBoolean: 0, NaN and null are falsy. *)
Definition truthy (v : number) : bool :=
  match v with
  | Num q => bool_decide (q ≠ 0%Qc)
  | Infinity _ => true
  | NaN | Null => false
  end.

(** [a || b] *)
Definition js_or (a b : number) : number := if truthy a then a else b.

(** [v >= 0], [v > 0], [v < 0]: relational operators convert with ToNumber and
    are false on NaN. [v === 0] compares without conversion. *)
Definition js_ge0 (v : number) : bool :=
  match ToNumber v with
  | Num q => bool_decide (0 ≤ q)%Qc
  | Infinity negative => negb negative
  | _ => false
  end.
Definition js_gt0 (v : number) : bool :=
  match ToNumber v with
  | Num q => bool_decide (0 < q)%Qc
  | Infinity negative => negb negative
  | _ => false
  end.
Definition js_lt0 (v : number) : bool :=
  match ToNumber v with
  | Num q => bool_decide (q < 0)%Qc
  | Infinity negative => negative
  | _ => false
  end.
Definition js_is0 (v : number) : bool :=
  match v with Num q => bool_decide (q = 0%Qc) | _ => false end.

(** [a > b] *)
Definition js_gt (a b : number) : bool :=
  match ToNumber a, ToNumber b with
  | Num x, Num y => bool_decide (y < x)%Qc
  | Infinity negative, Num _ => negb negative
  | Num _, Infinity negative => negative
  | Infinity negative, Infinity negative' => negb negative && negative'
  | _, _ => false
  end.

(** [JSON.parse (JSON.stringify v)] on a numeric field: a NaN and an
    infinity are written as [null]. *)
Definition JSON_number (v : number) : number :=
  match v with
  | Num q => Num q
  | Infinity _ | NaN | Null => Null
  end.

(** A settled promise. *)
Record Error := mkError { status : option Z; message : option string }.

Inductive Promise (A : Type) : Type :=
  | Resolved (a : A)
  | Rejected (error : Error).
Arguments Resolved {A} a.
Arguments Rejected {A} error.

(** ** types.ts *)

Inductive Currency := USD | EUR | BRL | JPY | GBP | CAD | AUD.

Definition Currency_value (c : Currency) : string :=
  match c with
  | USD => "USD" | EUR => "EUR" | BRL => "BRL" | JPY => "JPY"
  | GBP => "GBP" | CAD => "CAD" | AUD => "AUD"
  end.

Inductive ExpenseCategory :=
  MEAL | TRANSPORT | LODGING | FLIGHT | SUPPLIES | ENTERTAINMENT | OTHER.

Definition ExpenseCategory_value (c : ExpenseCategory) : string :=
  match c with
  | MEAL => "Meal" | TRANSPORT => "Transport" | LODGING => "Lodging"
  | FLIGHT => "Flight" | SUPPLIES => "Supplies"
  | ENTERTAINMENT => "Entertainment" | OTHER => "Other"
  end.

Inductive PaymentMethod := CASH | PERSONAL_CARD | CORPORATE_CARD.

Definition PaymentMethod_value (m : PaymentMethod) : string :=
  match m with
  | CASH => "Cash/Advance"
  | PERSONAL_CARD => "Personal Card"
  | CORPORATE_CARD => "Corporate Card"
  end.

Inductive TripStatus := active | closed.

Definition TripStatus_value (s : TripStatus) : string :=
  match s with active => "active" | closed => "closed" end.

Module Expense.
Record t := mk {
  id : string;
  tripId : string;
  date : string;
  category : ExpenseCategory;
  merchant : string;
  amountOriginal : number;
  currencyOriginal : string;
  exchangeRate : number;
  amountBase : number;
  paymentMethod : PaymentMethod;
  receiptImage : option string;
  notes : option string;
  isVerified : bool
}.

(** [JSON.parse (JSON.stringify e)]: strings, booleans and finite numbers
    are read back as written, an absent optional field stays absent. *)
Definition json (e : t) : t :=
  mk (id e) (tripId e) (date e) (category e) (merchant e)
     (JSON_number (amountOriginal e)) (currencyOriginal e)
     (JSON_number (exchangeRate e)) (JSON_number (amountBase e))
     (paymentMethod e) (receiptImage e) (notes e) (isVerified e).
End Expense.
Abbreviation Expense := Expense.t.

Module Trip.
Record t := mk {
  id : string;
  travelerName : string;
  tripName : string;
  destinationCountry : string;
  localCurrencySuggestion : string;
  baseCurrency : Currency;
  advanceAmount : number;
  initialExchangeRate : number;
  startDate : string;
  status : TripStatus
}.

Definition json (r : t) : t :=
  mk (id r) (travelerName r) (tripName r) (destinationCountry r)
     (localCurrencySuggestion r) (baseCurrency r)
     (JSON_number (advanceAmount r)) (JSON_number (initialExchangeRate r))
     (startDate r) (status r).
End Trip.
Abbreviation Trip := Trip.t.

(** ** contexts/SettingsContext: translations and [t] *)

Inductive Language := en | pt.

Definition translations_en : list (string * string) :=
  [("myTrips", "My Trips");
   ("manageExpenses", "Manage your travel expenses");
   ("noTrips", "No trips yet"); ("startNewTrip", "Start New Trip");
   ("budget", "Budget"); ("spent", "Spent"); ("available", "Available");
   ("newTrip", "New Trip"); ("travelerName", "Traveler Name");
   ("tripName", "Trip Name"); ("destination", "Destination Country");
   ("startDate", "Start Date"); ("baseCurrency", "Base Currency");
   ("advance", "Advance");
   ("detectingCurrency", "Detecting local currency...");
   ("detectedCurrency", "Detected Local Currency");
   ("initialExchange", "Initial Currency Exchange");
   ("manualOverride", "Manual Override"); ("autoDetected", "Auto-detected");
   ("totalIn", "Total in"); ("rate", "Rate");
   ("saveExpense", "Save Expense"); ("editExpense", "Edit Expense");
   ("newExpense", "New Expense"); ("scanReceipt", "Scan Receipt with AI");
   ("orUpload", "or upload from gallery");
   ("aiAnalyzing", "AI is analyzing receipt..."); ("retake", "Retake Photo");
   ("merchant", "Merchant / Establishment"); ("amount", "Amount");
   ("currency", "Currency"); ("date", "Date"); ("category", "Category");
   ("paymentMethod", "Payment Method"); ("conversion", "Conversion");
   ("updateRate", "Update Rate"); ("transactions", "Transactions");
   ("noExpensesYet", "No expenses yet. Tap + to start.");
   ("report", "Expense Report"); ("generated", "Generated");
   ("expensesByCategory", "Expenses by Category"); ("settings", "Settings");
   ("darkMode", "Dark Mode"); ("language", "Language");
   ("selectLanguage", "Select Language"); ("close", "Close");
   ("exportCSV", "Export CSV"); ("printPDF", "Print / PDF");
   ("deleteConfirm", "Are you sure you want to delete this expense?");
   ("unknownMerchant", "Unknown Merchant"); ("trip", "Trip");
   ("traveler", "Traveler"); ("dates", "Dates"); ("total", "TOTAL");
   ("receipt", "Receipt"); ("active", "Active"); ("closed", "Closed");
   ("closeTrip", "Close Trip"); ("reopenTrip", "Reopen Trip");
   ("confirmClose", "Finalize Trip");
   ("closeTripDesc", "This will finalize the budget calculations. You can reopen it later if needed.");
   ("settlement", "Settlement"); ("toReturn", "To Return to Company");
   ("toReimburse", "To be Reimbursed"); ("balanced", "Balanced");
   ("Meal", "Meal"); ("Transport", "Transport"); ("Lodging", "Lodging");
   ("Flight", "Flight"); ("Supplies", "Supplies");
   ("Entertainment", "Entertainment"); ("Other", "Other");
   ("Cash/Advance", "Cash/Advance"); ("Personal Card", "Personal Card");
   ("Corporate Card", "Corporate Card")].

Definition translations_pt : list (string * string) :=
  [("myTrips", "Minhas Viagens");
   ("manageExpenses", "Gerencie suas despesas de viagem");
   ("noTrips", "Nenhuma viagem ainda");
   ("startNewTrip", "Iniciar Nova Viagem"); ("budget", "Orçamento");
   ("spent", "Gasto"); ("available", "Disponível");
   ("newTrip", "Nova Viagem"); ("travelerName", "Nome do Viajante");
   ("tripName", "Nome da Viagem"); ("destination", "País de Destino");
   ("startDate", "Data de Início"); ("baseCurrency", "Moeda Base");
   ("advance", "Adiantamento");
   ("detectingCurrency", "Detectando moeda local...");
   ("detectedCurrency", "Moeda Local Detectada");
   ("initialExchange", "Câmbio Inicial");
   ("manualOverride", "Ajuste Manual"); ("autoDetected", "Automático");
   ("totalIn", "Total em"); ("rate", "Taxa");
   ("saveExpense", "Salvar Despesa"); ("editExpense", "Editar Despesa");
   ("newExpense", "Nova Despesa"); ("scanReceipt", "Escanear Recibo com IA");
   ("orUpload", "ou carregar da galeria");
   ("aiAnalyzing", "IA analisando recibo..."); ("retake", "Tirar Outra");
   ("merchant", "Estabelecimento"); ("amount", "Valor");
   ("currency", "Moeda"); ("date", "Data"); ("category", "Categoria");
   ("paymentMethod", "Método Pagamento"); ("conversion", "Conversão");
   ("updateRate", "Atualizar Taxa"); ("transactions", "Transações");
   ("noExpensesYet", "Sem despesas. Toque em + para iniciar.");
   ("report", "Relatório de Despesas"); ("generated", "Gerado em");
   ("expensesByCategory", "Despesas por Categoria");
   ("settings", "Configurações"); ("darkMode", "Modo Escuro");
   ("language", "Idioma"); ("selectLanguage", "Selecionar Idioma");
   ("close", "Fechar"); ("exportCSV", "Exportar CSV");
   ("printPDF", "Imprimir / PDF");
   ("deleteConfirm", "Tem certeza que deseja excluir esta despesa?");
   ("unknownMerchant", "Estabelecimento Desconhecido"); ("trip", "Viagem");
   ("traveler", "Viajante"); ("dates", "Datas"); ("total", "TOTAL");
   ("receipt", "Comprovante"); ("active", "Ativa"); ("closed", "Fechada");
   ("closeTrip", "Fechar Viagem"); ("reopenTrip", "Reabrir Viagem");
   ("confirmClose", "Finalizar Viagem");
   ("closeTripDesc", "Isso finalizará os cálculos do orçamento. Você pode reabrir mais tarde se necessário.");
   ("settlement", "Liquidação"); ("toReturn", "A Devolver para Empresa");
   ("toReimburse", "A Reembolsar ao Viajante"); ("balanced", "Conta Zerada");
   ("Meal", "Refeição"); ("Transport", "Transporte");
   ("Lodging", "Hospedagem"); ("Flight", "Voo"); ("Supplies", "Suprimentos");
   ("Entertainment", "Entretenimento"); ("Other", "Outros");
   ("Cash/Advance", "Dinheiro (Adiantamento)");
   ("Personal Card", "Cartão Pessoal");
   ("Corporate Card", "Cartão Corporativo")].

Definition translations (language : Language) : list (string * string) :=
  match language with en => translations_en | pt => translations_pt end.

(** Property lookup [table[key]]: the value of the entry named [key]. *)
Fixpoint property (table : list (string * string)) (key : string) : option string :=
  match table with
  | [] => None
  | (k, v) :: rest => if decide (k = key) then Some v else property rest key
  end.

(** [t key = translations[language][key] || key]: an absent entry, or an
    empty one, falls back to the key itself. *)
Definition t (language : Language) (key : string) : string :=
  match property (translations language) key with
  | Some v => if decide (v = EmptyString) then key else v
  | None => key
  end.

(** ** services/geminiService.ts *)

(** [hay.includes(needle)] *)
Fixpoint includes (hay needle : string) : bool :=
  String.prefix needle hay ||
  match hay with
  | EmptyString => false
  | String _ rest => includes rest needle
  end.

(** [error.message?.includes(needle)]: falsy when the error has no message. *)
Definition message_includes (error : Error) (needle : string) : bool :=
  match message error with
  | Some m => includes m needle
  | None => false
  end.

Definition isOverloaded (error : Error) : bool :=
  bool_decide (status error = Some 503%Z)
  || message_includes error "503"
  || message_includes error "overloaded"
  || message_includes error "UNAVAILABLE".

(** [retryOperation(operation, retries, delay)]. [operation call] is what the
    [call]-th invocation of the operation settles to; the wait of [delay]
    milliseconds between two attempts is not modelled. *)
Fixpoint retryOperation {T : Type} (operation : nat → Promise T)
    (retries : nat) (call : nat) : Promise T :=
  match operation call with
  | Resolved v => Resolved v
  | Rejected error =>
      match retries with
      | S retries' =>
          if isOverloaded error
          then retryOperation operation retries' (S call)
          else Rejected error
      | O => Rejected error
      end
  end.

(** One call of the remote model from inside [getEstimatedExchangeRate]:
    either [generateContent] resolved and [JSON.parse] produced an object
    whose [rate] property is [rate] ([None] when the property is absent), or
    one of the two threw [error]. *)
Inductive attempt :=
  | Answer (rate : option number)
  | Failure (error : Error).

(** [getEstimatedExchangeRate(fromCurrency, toCurrency, date)], with the
    environment it reads: the configured key ([getApiKey()], empty when
    missing) and the outcome of each call of the remote model. The date only
    enters the prompt sent to the model. *)
Definition getEstimatedExchangeRate (apiKey : string)
    (generateContent : nat → attempt)
    (fromCurrency toCurrency date : string) : Promise number :=
  if decide (fromCurrency = toCurrency) then Resolved (Num 1)
  else if decide (apiKey = EmptyString) then
    let pair := fromCurrency +:+ "-" +:+ toCurrency in
    if decide (pair = "USD-BRL") then Resolved (Num (dec 5 1))
    else if decide (pair = "BRL-USD") then Resolved (Num (dec 2 10))
    else if decide (pair = "EUR-BRL") then Resolved (Num (dec 55 10))
    else if decide (pair = "BRL-EUR") then Resolved (Num (dec 18 100))
    else if decide (pair = "USD-EUR") then Resolved (Num (dec 92 100))
    else if decide (pair = "EUR-USD") then Resolved (Num (dec 109 100))
    else Resolved (Num 1)
  else
    retryOperation
      (λ call,
         match generateContent call with
         | Answer rate =>
             Resolved (match rate with
                       | Some r => js_or r (Num 1)
                       | None => Num 1
                       end)
         | Failure error =>
             if bool_decide (status error = Some 503%Z)
                || message_includes error "503"
             then Rejected error
             else Resolved (Num 1)
         end)
      3 0.

(** ** services/storageService, kept in localStorage *)

Module LocalStorage.

(** The two items of [localStorage] the service uses. An item is absent
    ([None]) or holds the JSON text of an array, represented by the array
    the text parses to; [JSON.stringify] of an array is therefore the array
    of the records as JSON reads them back.

    The functions below give what a call returns and the store it leaves
    when none of [getItem], [JSON.parse] and [setItem] throws; the module
    [Call] after them gives a call in a browser in which one of them may
    throw. *)
Record localStorage := mk {
  voyage_trips : option (list Trip);
  voyage_expenses : option (list Expense)
}.

Definition empty : localStorage := mk None None.

Definition JSON_stringify_trips (trips : list Trip) : list Trip :=
  Trip.json <$> trips.
Definition JSON_stringify_expenses (expenses : list Expense) : list Expense :=
  Expense.json <$> expenses.

Definition getTrips (ls : localStorage) : list Trip :=
  match voyage_trips ls with
  | Some data => data
  | None => []
  end.

Definition saveTrip (trip : Trip) (ls : localStorage) : localStorage :=
  let trips := getTrips ls in
  let trips :=
    match list_find (λ t, Trip.id t = Trip.id trip) trips with
    | Some (existingIndex, _) => <[existingIndex := trip]> trips
    | None => trips ++ [trip]
    end in
  mk (Some (JSON_stringify_trips trips)) (voyage_expenses ls).

Definition allExpenses (ls : localStorage) : list Expense :=
  match voyage_expenses ls with
  | Some data => data
  | None => []
  end.

Definition getExpenses (tripId : string) (ls : localStorage) : list Expense :=
  filter (λ e, Expense.tripId e = tripId) (allExpenses ls).

Definition saveExpense (expense : Expense) (ls : localStorage) : localStorage :=
  let allExpenses := allExpenses ls in
  let allExpenses :=
    match list_find (λ e, Expense.id e = Expense.id expense) allExpenses with
    | Some (existingIndex, _) => <[existingIndex := expense]> allExpenses
    | None => allExpenses ++ [expense]
    end in
  mk (voyage_trips ls) (Some (JSON_stringify_expenses allExpenses)).

Definition deleteExpense (expenseId : string) (ls : localStorage) : localStorage :=
  match voyage_expenses ls with
  | None => ls
  | Some allExpenses =>
      let filtered := filter (λ e, Expense.id e ≠ expenseId) allExpenses in
      mk (voyage_trips ls) (Some (JSON_stringify_expenses filtered))
  end.

(** What the browser does during one call of the service: nothing throws, or
    the first of the calls below to be reached throws. [getItem] throws where
    access to the storage is denied; [JSON.parse] throws where the item holds
    a text that is not JSON, which is none the service wrote; [setItem] throws
    where the quota is exceeded. *)
Inductive browser :=
  | works
  | getItem_throws (error : Error)
  | JSON_parse_throws (error : Error)
  | setItem_throws (error : Error).

(** How a call of a synchronous function ends. *)
Inductive completion (A : Type) :=
  | Returns (value : A)
  | Throws (error : Error).
Arguments Returns {A} value.
Arguments Throws {A} error.

Module Call.

(** [getItem(key)] followed by [data ? JSON.parse(data) : []]: [JSON.parse]
    is reached when the item is present. *)
Definition read {A B : Type} (b : browser) (item : option A) (value : B) : completion B :=
  match b with
  | getItem_throws error => Throws error
  | JSON_parse_throws error =>
      match item with
      | Some _ => Throws error
      | None => Returns value
      end
  | works | setItem_throws _ => Returns value
  end.

(** The same followed by [setItem(key, JSON.stringify(...))], the last
    statement of the function: an exception leaves the store as it was. *)
Definition write {A : Type} (b : browser) (item : option A) (written ls : localStorage)
    : completion unit * localStorage :=
  match read b item tt with
  | Throws error => (Throws error, ls)
  | Returns _ =>
      match b with
      | setItem_throws error => (Throws error, ls)
      | _ => (Returns tt, written)
      end
  end.

Definition getTrips (b : browser) (ls : localStorage) : completion (list Trip) :=
  read b (voyage_trips ls) (LocalStorage.getTrips ls).

Definition saveTrip (b : browser) (trip : Trip) (ls : localStorage)
    : completion unit * localStorage :=
  write b (voyage_trips ls) (LocalStorage.saveTrip trip ls) ls.

Definition getExpenses (b : browser) (tripId : string) (ls : localStorage)
    : completion (list Expense) :=
  read b (voyage_expenses ls) (LocalStorage.getExpenses tripId ls).

Definition saveExpense (b : browser) (expense : Expense) (ls : localStorage)
    : completion unit * localStorage :=
  write b (voyage_expenses ls) (LocalStorage.saveExpense expense ls) ls.

(** [if (!data) return;] comes before [JSON.parse] and [setItem]. *)
Definition deleteExpense (b : browser) (expenseId : string) (ls : localStorage)
    : completion unit * localStorage :=
  match voyage_expenses ls with
  | None => (read b (voyage_expenses ls) tt, ls)
  | Some _ => write b (voyage_expenses ls) (LocalStorage.deleteExpense expenseId ls) ls
  end.

End Call.

End LocalStorage.

(** ** services/storageService, kept in IndexedDB *)

Module IndexedDB.

(** An object store with key path [id]: at most one record per key, kept in
    ascending key order, which is the order [getAll] returns them in. The
    keys are strings, which IndexedDB orders by their UTF-16 code units; a
    string is a sequence of bytes here, so the order of keys is given as the
    function [compare]. *)
Section ObjectStore.
Context {A : Type} (key : A → string) (compare : string → string → comparison).

Fixpoint put (value : A) (store : list A) : list A :=
  match store with
  | [] => [value]
  | r :: rest =>
      match compare (key value) (key r) with
      | Lt => value :: r :: rest
      | Eq => value :: rest
      | Gt => r :: put value rest
      end
  end.

Definition delete (k : string) (store : list A) : list A :=
  filter (λ r, key r ≠ k) store.
End ObjectStore.

(** The database [VoyageExpenseDB] after [onupgradeneeded]: the object
    stores [trips] and [expenses]; the index [tripId] of the latter is
    derived from the store. *)
Record IDBDatabase := mk {
  trips : list Trip;
  expenses : list Expense
}.

Definition empty : IDBDatabase := mk [] [].

(** What the browser does with the transaction of one call of the service.
    It completes; or [indexedDB.open] fails ([request.onerror] of [openDB]);
    or one of [db.transaction], [objectStore], [index] and the call that
    makes the request throws; or the request fails, whose error event
    reaches [transaction.onerror], [error] being what [transaction.error]
    (in [getExpenses], [request.error]) holds when the handler runs; or the
    request succeeds and the transaction is aborted when it is committed,
    for which the browser fires [abort] and no error event. A transaction
    that does not complete leaves the database as it was. *)
Inductive transaction :=
  | completes
  | open_fails (error : Error)
  | call_throws (error : Error)
  | request_fails (error : Error)
  | aborts.

(** [performTransaction]: the promise resolves in [transaction.oncomplete]
    and is rejected in [transaction.onerror] and in the two [catch] blocks;
    there is no handler for [abort], so the promise of an aborted
    transaction is never settled ([None]). [result] is the result of the
    request and [written] the database once the transaction completed. *)
Definition performTransaction {T : Type} (tx : transaction) (result : T)
    (written db : IDBDatabase) : option (Promise T) * IDBDatabase :=
  match tx with
  | completes => (Some (Resolved result), written)
  | open_fails error | call_throws error | request_fails error =>
      (Some (Rejected error), db)
  | aborts => (None, db)
  end.

Definition getTrips (tx : transaction) (db : IDBDatabase) : option (Promise (list Trip)) :=
  (performTransaction tx (trips db) db db).1.

(** [index.getAll(tripId)]: the records whose [tripId] is the given one, in
    ascending order of primary key. The promise resolves in
    [request.onsuccess], before the transaction is committed, and is
    rejected in [request.onerror] and in the [catch] block. *)
Definition getExpenses (tx : transaction) (tripId : string) (db : IDBDatabase)
    : option (Promise (list Expense)) :=
  match tx with
  | completes | aborts =>
      Some (Resolved (filter (λ e, Expense.tripId e = tripId) (expenses db)))
  | open_fails error | call_throws error | request_fails error =>
      Some (Rejected error)
  end.

Definition deleteExpense (tx : transaction) (expenseId : string) (db : IDBDatabase)
    : option (Promise unit) * IDBDatabase :=
  performTransaction tx tt (mk (trips db) (delete Expense.id expenseId (expenses db))) db.

Section Put.
Context (compare : string → string → comparison).

(** [store.put(trip)]: the request's result is the key of the record. *)
Definition saveTrip (tx : transaction) (trip : Trip) (db : IDBDatabase)
    : option (Promise string) * IDBDatabase :=
  performTransaction tx (Trip.id trip)
    (mk (put Trip.id compare trip (trips db)) (expenses db)) db.

Definition saveExpense (tx : transaction) (expense : Expense) (db : IDBDatabase)
    : option (Promise string) * IDBDatabase :=
  performTransaction tx (Expense.id expense)
    (mk (trips db) (put Expense.id compare expense (expenses db))) db.
End Put.

End IndexedDB.

(** [a || b] on strings: the empty string is falsy. *)
Definition str_or (a b : string) : string :=
  if decide (a = EmptyString) then b else a.

(** ** contexts/SettingsContext: the provider *)

Module Settings.

Definition Language_value (l : Language) : string :=
  match l with en => "en" | pt => "pt" end.

(** The provider's states [language] and [theme], the items [voyage_lang]
    and [voyage_theme] of [localStorage], and whether the document element
    carries the class [dark]. The items are read without validation, so the
    two states hold whatever strings were stored. *)
Record State := mk {
  language : string;
  theme : string;
  voyage_lang : option string;
  voyage_theme : option string;
  dark : bool
}.

(** The provider after its mount effect, for the items found in
    [localStorage]. *)
Definition mount (storedLang storedTheme : option string) : State :=
  let language := str_or (default EmptyString storedLang) "pt" in
  if decide (default EmptyString storedTheme = EmptyString)
  then mk language "dark" storedLang storedTheme true
  else mk language (default EmptyString storedTheme) storedLang storedTheme
         (bool_decide (default EmptyString storedTheme = "dark")).

Definition setLanguage (lang : Language) (st : State) : State :=
  mk (Language_value lang) (theme st) (Some (Language_value lang))
     (voyage_theme st) (dark st).

Definition toggleTheme (st : State) : State :=
  let newTheme := if decide (theme st = "light") then "dark" else "light" in
  mk (language st) newTheme (voyage_lang st) (Some newTheme)
     (bool_decide (newTheme = "dark")).

End Settings.

(** ** services/geminiService.ts: the currency of a country, receipts *)

(** [COUNTRY_CURRENCY_MAP] *)
Definition COUNTRY_CURRENCY_MAP : list (string * string) :=
  [
   (* Europe (Euro) *)
   ("france", "EUR"); ("frança", "EUR");
   ("germany", "EUR"); ("alemanha", "EUR");
   ("italy", "EUR"); ("itália", "EUR"); ("italia", "EUR");
   ("spain", "EUR"); ("espanha", "EUR");
   ("portugal", "EUR");
   ("netherlands", "EUR"); ("holanda", "EUR");
   ("belgium", "EUR"); ("bélgica", "EUR");
   ("ireland", "EUR"); ("irlanda", "EUR");
   ("austria", "EUR"); ("áustria", "EUR");
   ("greece", "EUR"); ("grécia", "EUR");
   ("finland", "EUR"); ("finlândia", "EUR");
   (* Americas *)
   ("united states", "USD"); ("usa", "USD"); ("us", "USD"); ("eua", "USD"); ("estados unidos", "USD");
   ("canada", "CAD"); ("canadá", "CAD");
   ("brazil", "BRL"); ("brasil", "BRL");
   ("mexico", "MXN"); ("méxico", "MXN");
   ("argentina", "ARS");
   ("colombia", "COP"); ("colômbia", "COP");
   ("chile", "CLP");
   ("peru", "PEN");
   ("uruguay", "UYU"); ("uruguai", "UYU");
   (* Asia/Pacific *)
   ("japan", "JPY"); ("japão", "JPY"); ("japao", "JPY");
   ("china", "CNY");
   ("india", "INR"); ("índia", "INR");
   ("australia", "AUD"); ("austrália", "AUD");
   ("new zealand", "NZD"); ("nova zelândia", "NZD");
   ("south korea", "KRW"); ("coreia do sul", "KRW");
   ("thailand", "THB"); ("tailândia", "THB");
   ("singapore", "SGD"); ("cingapura", "SGD");
   (* Europe (Non-Euro) *)
   ("united kingdom", "GBP"); ("uk", "GBP"); ("reino unido", "GBP"); ("england", "GBP"); ("inglaterra", "GBP");
   ("switzerland", "CHF"); ("suíça", "CHF");
   ("sweden", "SEK"); ("suécia", "SEK");
   ("norway", "NOK"); ("noruega", "NOK");
   ("denmark", "DKK"); ("dinamarca", "DKK")
  ].

(** The members an object literal inherits from [Object.prototype]. A lookup
    [table[key]] with one of these names as key finds the inherited member
    (a function or an object, hence truthy) when the table has no entry of
    its own under the name. *)
Definition Object_prototype : list string :=
  [ "constructor"; "__defineGetter__"; "__defineSetter__"; "hasOwnProperty";
    "__lookupGetter__"; "__lookupSetter__"; "isPrototypeOf";
    "propertyIsEnumerable"; "toString"; "valueOf"; "__proto__";
    "toLocaleString" ].

(** What [suggestCurrencyForCountry] resolves to: a string, or a member of
    [Object.prototype] that the lookup in the table found. *)
Inductive suggestion :=
  | Code (currency : string)
  | Inherited (name : string).

(** [COUNTRY_CURRENCY_MAP[key]]; [None] is [undefined]. *)
Definition COUNTRY_CURRENCY_MAP_at (key : string) : option suggestion :=
  match property COUNTRY_CURRENCY_MAP key with
  | Some currency => Some (Code currency)
  | None =>
      if decide (key ∈ Object_prototype) then Some (Inherited key) else None
  end.

(** One call of the remote model from inside [suggestCurrencyForCountry]:
    [generateContent] resolved and [JSON.parse] produced an object whose
    [currency] property is the given string ([None] when it is absent), or
    one of the two threw [error]. *)
Inductive currency_attempt :=
  | CurrencyAnswer (currency : option string)
  | CurrencyFailure (error : Error).

(** The operation [suggestCurrencyForCountry] hands to [retryOperation]: its
    [try] block throws when no key is configured, and its [catch] block
    rethrows a 503 and answers "USD" on every other error. *)
Definition suggestCurrency_catch (e : Error) : Promise suggestion :=
  if bool_decide (status e = Some 503%Z) || message_includes e "503"
  then Rejected e
  else Resolved (Code "USD").

Definition suggestCurrency_operation (apiKey : string)
    (generateContent : nat → currency_attempt) (call : nat) : Promise suggestion :=
  if decide (apiKey = EmptyString)
  then suggestCurrency_catch (mkError None (Some "No API Key"))
  else
    match generateContent call with
    | CurrencyAnswer currency =>
        Resolved (Code (str_or (default EmptyString currency) "USD"))
    | CurrencyFailure e => suggestCurrency_catch e
    end.

Section StringMethods.
(** [String.prototype.toLowerCase], [toUpperCase] and [trim]: Unicode case
    conversion and white space are not spelled out, the functions below are
    given for any three functions in their place. *)
Context (toLowerCase toUpperCase trim : string → string).

(** [suggestCurrencyForCountry(country)], with the configured key and the
    outcome of each call of the remote model. *)
Definition suggestCurrencyForCountry (apiKey : string)
    (generateContent : nat → currency_attempt) (country : string) : Promise suggestion :=
  let normalizedCountry := trim (toLowerCase country) in
  let remote :=
    retryOperation (suggestCurrency_operation apiKey generateContent) 3 0 in
  match COUNTRY_CURRENCY_MAP_at normalizedCountry with
  | Some (Code currency) =>
      if decide (currency = EmptyString) then remote else Resolved (Code currency)
  | Some (Inherited name) => Resolved (Inherited name)
  | None => remote
  end.

(** [Object.values(ExpenseCategory)], in the order of the declaration. *)
Definition ExpenseCategory_values : list ExpenseCategory :=
  [MEAL; TRANSPORT; LODGING; FLIGHT; SUPPLIES; ENTERTAINMENT; OTHER].

(** The category [analyzeReceipt] maps the model's answer to: the first
    member of the enumeration whose upper-cased value is the upper-cased
    answer, [Other] when there is none or the answer has no category. *)
Definition receipt_category (category : option string) : ExpenseCategory :=
  let catUpper := toUpperCase <$> category in
  if bool_decide
       (catUpper ∈ (λ c, Some (toUpperCase (ExpenseCategory_value c)))
                     <$> ExpenseCategory_values)
  then
    match list_find (λ val, Some (toUpperCase (ExpenseCategory_value val)) = catUpper)
            ExpenseCategory_values with
    | Some (_, val) => val
    | None => OTHER
    end
  else OTHER.
End StringMethods.

(** [OCRResult] of types.ts; an absent field is [None]. *)
Module OCRResult.
Record t := mk {
  date : option string;
  merchant : option string;
  amount : option number;
  currency : option string;
  category : option ExpenseCategory
}.
End OCRResult.
Abbreviation OCRResult := OCRResult.t.

(** One call of the remote model from inside [analyzeReceipt]:
    [generateContent] threw [error]; or its response had no text; or the
    text was not JSON; or the text parsed to an object whose properties,
    where present, have the types of the schema that was requested. *)
Inductive receipt_attempt :=
  | ReceiptFailure (error : Error)
  | ReceiptNoText
  | ReceiptNotJSON
  | ReceiptAnswer (date merchant : option string) (amount : option number)
      (currency category : option string).

(** [new Error(message)]: an error without [status]. *)
Definition new_Error (message : string) : Error := mkError None (Some message).

(** The [catch] block of [analyzeReceipt]: the error it throws for the error
    it caught. *)
Definition analyzeReceipt_catch (error : Error) : Error :=
  if bool_decide (status error = Some 429%Z)
     || message_includes error "429"
     || message_includes error "quota"
     || message_includes error "RESOURCE_EXHAUSTED"
  then new_Error "Daily AI Quota Exceeded. Please enter expense details manually."
  else if bool_decide (status error = Some 503%Z)
          || message_includes error "503"
          || message_includes error "overloaded"
  then error
  else
    match message error with
    | Some m =>
        if decide (m = EmptyString)
        then new_Error "Failed to analyze receipt. Please try again or enter manually."
        else if includes m "Quota" || includes m "valid JSON" || includes m "API Key"
        then error
        else new_Error ("AI Analysis failed: " +:+ m)
    | None =>
        new_Error "Failed to analyze receipt. Please try again or enter manually."
    end.

Section Receipt.
Context (toUpperCase : string → string).

(** The operation [analyzeReceipt] hands to [retryOperation]. *)
Definition analyzeReceipt_operation (apiKey : string)
    (generateContent : nat → receipt_attempt) (call : nat) : Promise OCRResult :=
  if decide (apiKey = EmptyString)
  then Rejected (analyzeReceipt_catch
         (new_Error "API Key missing. Please check VITE_API_KEY in your .env file or settings."))
  else
    match generateContent call with
    | ReceiptFailure error => Rejected (analyzeReceipt_catch error)
    | ReceiptNoText => Rejected (analyzeReceipt_catch (new_Error "No response from AI"))
    | ReceiptNotJSON =>
        Rejected (analyzeReceipt_catch
          (new_Error "AI response was not valid JSON. Please enter manually."))
    | ReceiptAnswer date merchant amount currency category =>
        Resolved (OCRResult.mk date merchant amount currency
                    (Some (receipt_category toUpperCase category)))
    end.

(** [analyzeReceipt(base64Image)]; the image only enters the request sent to
    the model. *)
Definition analyzeReceipt (apiKey : string)
    (generateContent : nat → receipt_attempt) (base64Image : string) : Promise OCRResult :=
  retryOperation (analyzeReceipt_operation apiKey generateContent) 3 0.
End Receipt.

(** ** components/ExpenseForm.tsx and components/TripWizard.tsx: [generateUUID] *)

(** [v.toString(16)] for [v] from 0 to 15. *)
Definition toString16 (v : N) : ascii :=
  if (v <? 10)%N then ascii_of_N (48 + v) else ascii_of_N (87 + v).

(** [template.replace(/[xy]/g, c => ...)]: [random k] is the value of
    [Math.random() * 16 | 0] at the [k]-th call of the callback, a number
    from 0 to 15. *)
Fixpoint replace_xy (template : string) (random : nat → N) (k : nat) : string :=
  match template with
  | EmptyString => EmptyString
  | String c rest =>
      if decide (c = "x"%char) then
        String (toString16 (random k)) (replace_xy rest random (S k))
      else if decide (c = "y"%char) then
        String (toString16 (N.lor (N.land (random k) 3) 8)) (replace_xy rest random (S k))
      else String c (replace_xy rest random k)
  end.

(** [generateUUID()]; [randomUUID] is what [crypto.randomUUID()] returns,
    [None] where it is missing or throws. *)
Definition generateUUID (randomUUID : option string) (random : nat → N) : string :=
  match randomUUID with
  | Some uuid => uuid
  | None => replace_xy "xxxxxxxx-xxxx-4xxx-yxxx-xxxxxxxxxxxx" random 0
  end.

(** ** components/ExpenseForm.tsx *)

Module ExpenseForm.

(** The form state [formData]: every field of an Expense but [notes] and
    [amountBase], which the form never holds. *)
Record FormData := mk {
  id : string;
  tripId : string;
  date : string;
  category : ExpenseCategory;
  merchant : string;
  amountOriginal : number;
  currencyOriginal : string;
  exchangeRate : number;
  paymentMethod : PaymentMethod;
  receiptImage : string;
  isVerified : bool
}.

(** The initial state, for a new expense ([existingExpense = None]) or for
    the expense being edited; [uuid] is what [generateUUID()] returns and
    [today] the current date. *)
Definition initial (trip : Trip) (existingExpense : option Expense)
    (uuid today : string) : FormData :=
  match existingExpense with
  | Some e =>
      mk (str_or (Expense.id e) uuid)
         (Trip.id trip)
         (str_or (Expense.date e) today)
         (Expense.category e)
         (Expense.merchant e)
         (js_or (Expense.amountOriginal e) (Num 0))
         (str_or (Expense.currencyOriginal e)
            (str_or (Trip.localCurrencySuggestion trip) (Currency_value USD)))
         (js_or (Expense.exchangeRate e) (Num 1))
         (Expense.paymentMethod e)
         (default EmptyString (Expense.receiptImage e))
         (Expense.isVerified e)
  | None =>
      mk uuid (Trip.id trip) today MEAL EmptyString (Num 0)
         (str_or (Trip.localCurrencySuggestion trip) (Currency_value USD))
         (Num 1) CORPORATE_CARD EmptyString false
  end.

Definition set_date (value : string) (p : FormData) : FormData :=
  mk (id p) (tripId p) value (category p) (merchant p) (amountOriginal p)
     (currencyOriginal p) (exchangeRate p) (paymentMethod p)
     (receiptImage p) (isVerified p).

Definition set_amountOriginal (value : number) (p : FormData) : FormData :=
  mk (id p) (tripId p) (date p) (category p) (merchant p) value
     (currencyOriginal p) (exchangeRate p) (paymentMethod p)
     (receiptImage p) (isVerified p).

Definition set_currencyOriginal (value : string) (p : FormData) : FormData :=
  mk (id p) (tripId p) (date p) (category p) (merchant p) (amountOriginal p)
     value (exchangeRate p) (paymentMethod p) (receiptImage p) (isVerified p).

Definition set_exchangeRate (value : number) (p : FormData) : FormData :=
  mk (id p) (tripId p) (date p) (category p) (merchant p) (amountOriginal p)
     (currencyOriginal p) value (paymentMethod p) (receiptImage p)
     (isVerified p).

Section Handlers.
(** The environment of the rate service and the trip the form is for. *)
Context (apiKey : string) (generateContent : nat → attempt) (trip : Trip).

(** [updateRate(currency, date)], run to the end of its awaited call. A
    rejected call leaves the form as it is. *)
Definition updateRate (currency date : string) (formData : FormData) : FormData :=
  if decide (currency = Currency_value (Trip.baseCurrency trip))
  then set_exchangeRate (Num 1) formData
  else
    match getEstimatedExchangeRate apiKey generateContent currency
            (Currency_value (Trip.baseCurrency trip)) date with
    | Resolved rate => set_exchangeRate rate formData
    | Rejected _ => formData
    end.

(** [onChange] of the date input. *)
Definition onDateChange (value : string) (formData : FormData) : FormData :=
  updateRate (currencyOriginal formData) value (set_date value formData).

(** [onChange] of the amount input; [value] is [parseFloat(e.target.value)]. *)
Definition onAmountChange (value : number) (formData : FormData) : FormData :=
  set_amountOriginal value formData.

(** [onChange] and [onBlur] of the currency input; [value] is
    [e.target.value.toUpperCase()]. *)
Definition onCurrencyChange (value : string) (formData : FormData) : FormData :=
  set_currencyOriginal value formData.

Definition onCurrencyBlur (formData : FormData) : FormData :=
  updateRate (currencyOriginal formData) (date formData) formData.

(** [onClick] of the update-rate button. *)
Definition onUpdateRateClick (formData : FormData) : FormData :=
  updateRate (currencyOriginal formData) (date formData) formData.

(** [onChange] of the rate input; [value] is [parseFloat(e.target.value)]. *)
Definition onRateChange (value : number) (formData : FormData) : FormData :=
  set_exchangeRate value formData.
End Handlers.

(** [handleSubmit]: the expense handed to [onSave]. *)
Definition handleSubmit (formData : FormData) : Expense :=
  let amountBase :=
    js_mul (js_or (amountOriginal formData) (Num 0))
           (js_or (exchangeRate formData) (Num 1)) in
  Expense.mk (id formData) (tripId formData) (date formData)
    (category formData) (merchant formData) (amountOriginal formData)
    (currencyOriginal formData) (exchangeRate formData) amountBase
    (paymentMethod formData) (Some (receiptImage formData)) None
    (isVerified formData).

(** The size [resizeImage] draws an image of natural size [img_width] by
    [img_height] at: the values of its variables [width] and [height] at
    [ctx.drawImage(img, 0, 0, width, height)]. The natural size of an image
    is a pair of integers ([unsigned long]). *)
Definition MAX_WIDTH : number := Num (dec 1024 1).
Definition MAX_HEIGHT : number := Num (dec 1024 1).

Definition of_N (n : N) : Qc := Q2Qc (inject_Z (Z.of_N n)).

Definition resizeImage_size (img_width img_height : N) : number * number :=
  let width := Num (of_N img_width) in
  let height := Num (of_N img_height) in
  if js_gt width height then
    if js_gt width MAX_WIDTH
    then (MAX_WIDTH, js_mul height (js_div MAX_WIDTH width))
    else (width, height)
  else
    if js_gt height MAX_HEIGHT
    then (js_mul width (js_div MAX_HEIGHT height), MAX_HEIGHT)
    else (width, height).

(** [canvas.width = width]: the attribute is an [unsigned long], and the
    assignment converts the number as Web IDL lays down: a NaN and an
    infinity to 0, any other number by truncation towards 0 and reduction
    modulo [2 ^ 32]. *)
Definition truncate (q : Qc) : Z :=
  if bool_decide (q < 0)%Qc then Qceiling q else Qfloor q.

Definition canvas_length (v : number) : N :=
  match v with
  | Num q => Z.to_N (truncate q mod 2 ^ 32)
  | _ => 0%N
  end.

Definition resizeImage_canvas (img_width img_height : N) : N * N :=
  let size := resizeImage_size img_width img_height in
  (canvas_length size.1, canvas_length size.2).

(** [a || b] where [a] may be absent. *)
Definition opt_str_or (a : option string) (b : string) : string :=
  str_or (default EmptyString a) b.

Definition opt_js_or (a : option number) (b : number) : number :=
  match a with Some v => js_or v b | None => b end.

(** ToBoolean of a string that may be absent. *)
Definition opt_truthy (a : option string) : bool :=
  match a with Some s => bool_decide (s ≠ EmptyString) | None => false end.

Section Scan.
Context (toUpperCase : string → string) (language : Language).
Context (apiKey : string) (generateReceipt : nat → receipt_attempt)
  (generateContent : nat → attempt) (trip : Trip).

(** [handleFileChange], run to its end. [resized] is what [resizeImage(file)]
    settles to for the chosen file, [None] when no file was chosen. The
    [catch] block only shows an alert: the form keeps what was set before the
    rejection. *)
Definition handleFileChange (resized : option (Promise string))
    (formData : FormData) : FormData :=
  match resized with
  | None => formData
  | Some (Rejected _) => formData
  | Some (Resolved resizedBase64) =>
      match analyzeReceipt toUpperCase apiKey generateReceipt resizedBase64 with
      | Rejected _ => formData
      | Resolved ocrResult =>
          let updated :=
            mk (id formData) (tripId formData)
               (opt_str_or (OCRResult.date ocrResult) (date formData))
               (default (category formData) (OCRResult.category ocrResult))
               (opt_str_or (OCRResult.merchant ocrResult) (t language "unknownMerchant"))
               (opt_js_or (OCRResult.amount ocrResult) (Num 0))
               (opt_str_or (OCRResult.currency ocrResult) (currencyOriginal formData))
               (exchangeRate formData) (paymentMethod formData)
               resizedBase64 true in
          if opt_truthy (OCRResult.currency ocrResult)
             || opt_truthy (OCRResult.date ocrResult)
          then
            updateRate apiKey generateContent trip
              (opt_str_or (OCRResult.currency ocrResult) (currencyOriginal formData))
              (opt_str_or (OCRResult.date ocrResult) (date formData))
              updated
          else updated
      end
  end.
End Scan.

End ExpenseForm.

(** ** components/TripWizard.tsx *)

Module TripWizard.

(** The form state [formData], a partial Trip: a text field not filled in yet
    is the empty string, the advance amount is absent until it is entered. *)
Record FormData := mkFormData {
  id : string;
  travelerName : string;
  tripName : string;
  destinationCountry : string;
  localCurrencySuggestion : string;
  baseCurrency : Currency;
  advanceAmount : option number;
  initialExchangeRate : number;
  startDate : string;
  status : TripStatus
}.

(** The states of the component that the rate logic and the submission read:
    [formData], [exchangeRate] and [isManualRate]. *)
Record State := mk {
  formData : FormData;
  exchangeRate : number;
  isManualRate : bool
}.

(** The state at mount; [uuid] is what [generateUUID()] returns. *)
Definition initial (uuid : string) : State :=
  mk (mkFormData uuid "Current User" EmptyString EmptyString EmptyString USD
        None (Num 1) EmptyString active)
     (Num 1) false.

Definition set_initialExchangeRate (rate : number) (prev : FormData) : FormData :=
  mkFormData (id prev) (travelerName prev) (tripName prev) (destinationCountry prev)
    (localCurrencySuggestion prev) (baseCurrency prev) (advanceAmount prev)
    rate (startDate prev) (status prev).

Definition set_startDate (value : string) (prev : FormData) : FormData :=
  mkFormData (id prev) (travelerName prev) (tripName prev) (destinationCountry prev)
    (localCurrencySuggestion prev) (baseCurrency prev) (advanceAmount prev)
    (initialExchangeRate prev) value (status prev).

Definition set_baseCurrency (value : Currency) (prev : FormData) : FormData :=
  mkFormData (id prev) (travelerName prev) (tripName prev) (destinationCountry prev)
    (localCurrencySuggestion prev) value (advanceAmount prev)
    (initialExchangeRate prev) (startDate prev) (status prev).

Definition set_localCurrencySuggestion (value : string) (prev : FormData) : FormData :=
  mkFormData (id prev) (travelerName prev) (tripName prev) (destinationCountry prev)
    value (baseCurrency prev) (advanceAmount prev)
    (initialExchangeRate prev) (startDate prev) (status prev).


Definition set_tripName (value : string) (prev : FormData) : FormData :=
  mkFormData (id prev) (travelerName prev) value (destinationCountry prev)
    (localCurrencySuggestion prev) (baseCurrency prev) (advanceAmount prev)
    (initialExchangeRate prev) (startDate prev) (status prev).

Definition set_destinationCountry (value : string) (prev : FormData) : FormData :=
  mkFormData (id prev) (travelerName prev) (tripName prev) value
    (localCurrencySuggestion prev) (baseCurrency prev) (advanceAmount prev)
    (initialExchangeRate prev) (startDate prev) (status prev).

Definition set_advanceAmount (value : number) (prev : FormData) : FormData :=
  mkFormData (id prev) (travelerName prev) (tripName prev) (destinationCountry prev)
    (localCurrencySuggestion prev) (baseCurrency prev) (Some value)
    (initialExchangeRate prev) (startDate prev) (status prev).

(** [setExchangeRate(rate)] together with
    [setFormData(prev => ({ ...prev, initialExchangeRate: rate }))]. *)
Definition set_rate (rate : number) (st : State) : State :=
  mk (set_initialExchangeRate rate (formData st)) rate (isManualRate st).

Section Handlers.
Context (apiKey : string) (generateContent : nat → attempt) (today : string).

(** The effect [fetchRate], run to the end of its awaited call. *)
Definition fetchRate (st : State) : State :=
  if decide (localCurrencySuggestion (formData st) = EmptyString) then st
  else if decide (Currency_value (baseCurrency (formData st))
                  = localCurrencySuggestion (formData st))
  then set_rate (Num 1) st
  else if isManualRate st then st
  else
    let date := str_or (startDate (formData st)) today in
    match getEstimatedExchangeRate apiKey generateContent
            (Currency_value (baseCurrency (formData st)))
            (localCurrencySuggestion (formData st)) date with
    | Resolved rate => set_rate rate st
    | Rejected _ => st
    end.

(** [handleChange('startDate', value)]; the effect runs when the value of
    this dependency changed. *)
Definition onStartDateChange (value : string) (st : State) : State :=
  let st' := mk (set_startDate value (formData st)) (exchangeRate st)
                (isManualRate st) in
  if decide (value = startDate (formData st)) then st' else fetchRate st'.

(** [handleChange('baseCurrency', value)]. *)
Definition onBaseCurrencyChange (value : Currency) (st : State) : State :=
  let st' := mk (set_baseCurrency value (formData st)) (exchangeRate st)
                (isManualRate st) in
  if decide (Currency_value value = Currency_value (baseCurrency (formData st)))
  then st' else fetchRate st'.

(** [handleCountryBlur], with the currency the suggestion service resolved
    to; nothing happens while the country is empty. *)
Definition handleCountryBlur (suggested : string) (st : State) : State :=
  if decide (destinationCountry (formData st) = EmptyString) then st
  else
    let st' := mk (set_localCurrencySuggestion suggested (formData st))
                  (exchangeRate st) (isManualRate st) in
    if decide (suggested = localCurrencySuggestion (formData st))
    then st' else fetchRate st'.
End Handlers.


Definition onTripNameChange (value : string) (st : State) : State :=
  mk (set_tripName value (formData st)) (exchangeRate st) (isManualRate st).

Definition onDestinationChange (value : string) (st : State) : State :=
  mk (set_destinationCountry value (formData st)) (exchangeRate st) (isManualRate st).

Definition onAdvanceChange (value : number) (st : State) : State :=
  mk (set_advanceAmount value (formData st)) (exchangeRate st) (isManualRate st).

(** [handleRateChange(val)]; [rate] is [parseFloat(val)]. *)
Definition handleRateChange (rate : number) (st : State) : State :=
  mk (set_initialExchangeRate rate (formData st)) rate true.

(** The rate input is rendered only in the conversion section. *)
Definition rateInputShown (st : State) : Prop :=
  localCurrencySuggestion (formData st) ≠ EmptyString ∧
  Currency_value (baseCurrency (formData st)) ≠ localCurrencySuggestion (formData st).

(** [handleSubmit]: the trip handed to [saveTrip], none while the trip has no
    name. An advance that is absent, 0 or NaN is saved as 0. *)
Definition handleSubmit (st : State) : option Trip :=
  if decide (tripName (formData st) = EmptyString) then None
  else
    Some (Trip.mk (id (formData st)) (travelerName (formData st))
            (tripName (formData st)) (destinationCountry (formData st))
            (localCurrencySuggestion (formData st)) (baseCurrency (formData st))
            (match advanceAmount (formData st) with
             | Some v => js_or v (Num 0)
             | None => Num 0
             end)
            (initialExchangeRate (formData st)) (startDate (formData st))
            (status (formData st))).

End TripWizard.

(** ** components/TripDashboard.tsx *)

Module TripDashboard.

(** *** Calculations *)

Definition totalSpent (expenses : list Expense) : number :=
  foldl (λ acc curr, js_add acc (Expense.amountBase curr)) (Num 0) expenses.

Definition balance (trip : Trip) (expenses : list Expense) : number :=
  js_sub (js_or (Trip.advanceAmount trip) (Num 0)) (totalSpent expenses).

Definition isOverBudget (trip : Trip) (expenses : list Expense) : bool :=
  js_lt0 (balance trip expenses).

Definition balanceLocal (trip : Trip) (expenses : list Expense) : number :=
  js_mul (balance trip expenses) (js_or (Trip.initialExchangeRate trip) (Num 1)).

(** The [expenses] state after [loadData] or [refreshExpenses] for the
    trip of the route, read from the localStorage service. *)
Definition refreshExpenses (id : string) (ls : LocalStorage.localStorage) : list Expense :=
  LocalStorage.getExpenses id ls.

(** *** Settlement labels *)

Section Labels.
Context (language : Language).

(** The summary at the head of the printed report. *)
Definition printHeaderSettlementLabel (balance : number) : string :=
  if js_ge0 balance then t language "toReturn" else t language "toReimburse".

(** The settlement row that closes the printed table (the table is one side
    of the merge left open in the file, the summary above is outside it). *)
Definition printTableSettlementLabel (balance : number) : string :=
  if js_ge0 balance then t language "toReturn" else t language "toReimburse".

(** The dialog that confirms closing the trip. *)
Definition closeConfirmSettlementLabel (balance : number) : string :=
  if js_is0 balance then t language "balanced"
  else if js_gt0 balance then t language "toReturn"
  else t language "toReimburse".
End Labels.

(** *** CSV export *)

Definition quote_char : ascii := ascii_of_nat 34.
Definition quote : string := String quote_char EmptyString.
Definition LF : string := String (ascii_of_nat 10) EmptyString.
(** U+FEFF, as the three bytes of its UTF-8 encoding. *)
Definition BOM : string :=
  String (ascii_of_nat 239) (String (ascii_of_nat 187)
    (String (ascii_of_nat 191) EmptyString)).

(** [s.replace(/quote/g, quote quote)] *)
Fixpoint double_quotes (s : string) : string :=
  match s with
  | EmptyString => EmptyString
  | String c rest =>
      if decide (c = quote_char)
      then String quote_char (String quote_char (double_quotes rest))
      else String c (double_quotes rest)
  end.

Definition escape (value : option string) : string :=
  match value with
  | None => quote +:+ quote
  | Some stringValue => quote +:+ double_quotes stringValue +:+ quote
  end.

(** [s.replace(from, to)] for one-character strings: only the first
    occurrence is replaced. *)
Fixpoint replace_first (from to : ascii) (s : string) : string :=
  match s with
  | EmptyString => EmptyString
  | String c rest =>
      if decide (c = from) then String to rest
      else String c (replace_first from to rest)
  end.

Definition digit (n : N) : ascii := ascii_of_N (48 + n).

(** The last [width] decimal digits of [n]. *)
Fixpoint digits_fixed (width : nat) (n : N) : string :=
  match width with
  | O => EmptyString
  | S w => digits_fixed w (n / 10) +:+ String (digit (n mod 10)) EmptyString
  end.

Definition string_of_N (n : N) : string := NilZero.string_of_uint (N.to_uint n).

(** The integer [s] of [k] digits of [Number::toString] for the integer [x]
    of [n] digits: [k] is the least number of digits for which some
    [s * 10 ^ (n - k)] is a decimal of the binary64 [x], and among the [s] of
    that many digits the one nearest to [x] is taken, the even one of two
    equally near. *)
Fixpoint shortest_digits (fuel k n : nat) (x : N) : N * nat :=
  match fuel with
  | O => (x, n)
  | S fuel' =>
      let p := (10 ^ N.of_nat (n - k))%N in
      let lo := (x / p)%N in
      let hi := (lo + 1)%N in
      let r := (x mod p)%N in
      let ok (s : N) :=
        bool_decide (binary64 (Q2Qc (inject_Z (Z.of_N (s * p)))) = binary64 (Q2Qc (inject_Z (Z.of_N x)))) in
      let ok_hi := (hi <? 10 ^ N.of_nat k)%N && ok hi in
      if ok lo && ok_hi
      then (if (r <? p - r)%N then lo
            else if (p - r <? r)%N then hi
            else if N.even lo then lo else hi, k)
      else if ok lo then (lo, k)
      else if ok_hi then (hi, k)
      else shortest_digits fuel' (S k) n x
  end.

(** [Number::toString(x)] for a positive integer [x] of 22 digits or more:
    the digits above, a point behind the first of them when there are more,
    and the exponent. The power of ten above [x] is the one decimal of one
    digit more than [x] that can be a decimal of [x]. *)
Definition exponent_notation (x : N) : string :=
  let n := String.length (string_of_N x) in
  if bool_decide (binary64 (Q2Qc (inject_Z (Z.of_N (10 ^ N.of_nat n))))
                  = binary64 (Q2Qc (inject_Z (Z.of_N x))))
  then "1e+" +:+ string_of_N (N.of_nat n)
  else
    let '(s, k) := shortest_digits n 1 n x in
    match string_of_N s with
    | EmptyString => EmptyString
    | String d rest =>
        String d (match rest with
                  | EmptyString => EmptyString
                  | _ => "." +:+ rest
                  end)
        +:+ "e+" +:+ string_of_N (N.of_nat (n - 1))
    end.

(** [num.toFixed(fractionDigits)]. A NaN and an infinity print as their
    names. A number of magnitude 10^21 or more, an integer in binary64,
    prints as [Number::toString] does, in exponent notation. Any other
    number prints the nearest multiple of [10^-fractionDigits] of its exact
    value, the larger one on a tie; a negative number prints its sign and the
    digits of its absolute value. On [null] the call throws a TypeError
    ([None]). *)
Definition toFixed (fractionDigits : nat) (num : number) : option string :=
  match num with
  | Null => None
  | NaN => Some "NaN"
  | Infinity negative => Some (if negative then "-Infinity" else "Infinity")
  | Num q =>
      let negative := bool_decide (q < 0)%Qc in
      let x := if negative then (- q)%Qc else q in
      let sign := if negative then "-" else EmptyString in
      if bool_decide (fraction (10 ^ 21) 1 ≤ x)%Qc
      then Some (sign +:+ exponent_notation (Z.to_N (Qfloor x)))
      else
        let scale := (10 ^ N.of_nat fractionDigits)%N in
        let n := Z.to_N (Qfloor (x * Q2Qc (inject_Z (Z.of_N scale)) + fraction 1 2)%Qc) in
        Some (sign
              +:+ string_of_N (n / scale)
              +:+ (match fractionDigits with
                   | O => EmptyString
                   | S _ => "." +:+ digits_fixed fractionDigits n
                   end))
  end.

Definition formatDecimal (num : number) : option string :=
  s ← toFixed 2 num;
  Some (quote +:+ replace_first "." "," s +:+ quote).

Definition formatRate (num : number) : option string :=
  s ← toFixed 6 num;
  Some (quote +:+ replace_first "." "," s +:+ quote).

Section CSVExport.
Context (language : Language).

(** [rows.map(row => row.map(escape).join(';'))] on rows of strings. *)
Definition escaped_row (row : list string) : string :=
  String.concat ";" ((λ v, escape (Some v)) <$> row).

Definition metadata (trip : Trip) (expenses : list Expense) : option (list (list string)) :=
  budget ← formatDecimal (Trip.advanceAmount trip);
  spent ← formatDecimal (totalSpent expenses);
  settlement ← formatDecimal (balance trip expenses);
  Some [ [t language "tripName"; Trip.tripName trip];
         [t language "travelerName"; Trip.travelerName trip];
         [t language "destination"; Trip.destinationCountry trip];
         [t language "startDate"; Trip.startDate trip];
         [t language "status"; t language (TripStatus_value (Trip.status trip))];
         [t language "budget"; budget];
         [t language "spent"; spent];
         [t language "settlement"; settlement] ].

Definition headers (trip : Trip) : list string :=
  [ t language "date";
    t language "category";
    t language "merchant";
    t language "amount" +:+ " (Original)";
    t language "currency";
    t language "rate";
    t language "amount" +:+ " (" +:+ Currency_value (Trip.baseCurrency trip) +:+ ")";
    t language "paymentMethod";
    "Notes" ].

Definition expenseCells (e : Expense) : option (list string) :=
  amountOriginal ← formatDecimal (Expense.amountOriginal e);
  exchangeRate ← formatRate (Expense.exchangeRate e);
  amountBase ← formatDecimal (Expense.amountBase e);
  Some [ escape (Some (Expense.date e));
         escape (Some (t language (ExpenseCategory_value (Expense.category e))));
         escape (Some (Expense.merchant e));
         amountOriginal;
         escape (Some (Expense.currencyOriginal e));
         exchangeRate;
         amountBase;
         escape (Some (t language (PaymentMethod_value (Expense.paymentMethod e))));
         escape (Some (str_or (default EmptyString (Expense.notes e)) EmptyString)) ].

(** The text [csvContent] of [handleExportCSV]; [None] when a call of
    [toFixed] throws. *)
Definition handleExportCSV (trip : Trip) (expenses : list Expense) : option string :=
  metadata ← metadata trip expenses;
  let metadataRows := String.concat LF (escaped_row <$> metadata) in
  let headerRow := escaped_row (headers trip) in
  cells ← mapM expenseCells expenses;
  let expenseRows := String.concat LF (String.concat ";" <$> cells) in
  Some ("sep=;" +:+ LF +:+ BOM +:+ metadataRows +:+ LF +:+ LF
        +:+ headerRow +:+ LF +:+ expenseRows).
End CSVExport.

(** *** Loading, saving and closing *)

(** [{ ...trip, status: newStatus }] and
    [{ ...trip, initialExchangeRate: tempRate }] *)
Definition set_status (status : TripStatus) (trip : Trip) : Trip :=
  Trip.mk (Trip.id trip) (Trip.travelerName trip) (Trip.tripName trip)
    (Trip.destinationCountry trip) (Trip.localCurrencySuggestion trip)
    (Trip.baseCurrency trip) (Trip.advanceAmount trip)
    (Trip.initialExchangeRate trip) (Trip.startDate trip) status.

Definition set_initialExchangeRate (rate : number) (trip : Trip) : Trip :=
  Trip.mk (Trip.id trip) (Trip.travelerName trip) (Trip.tripName trip)
    (Trip.destinationCountry trip) (Trip.localCurrencySuggestion trip)
    (Trip.baseCurrency trip) (Trip.advanceAmount trip)
    rate (Trip.startDate trip) (Trip.status trip).

(** The states of the component the handlers below read and set: [trip],
    [expenses] and [tempRate]. *)
Record State := mkState {
  trip : option Trip;
  expenses : list Expense;
  tempRate : number
}.

Definition initial : State := mkState None [] (Num 1).

(** The effect [loadData] for the trip [id] of the route, over the
    localStorage service. [None]: no trip has this id and the component
    navigates to the list of trips. *)
Definition loadData (id : string) (ls : LocalStorage.localStorage) (st : State) : option State :=
  if decide (id = EmptyString) then Some st
  else
    match list_find (λ t, Trip.id t = id) (LocalStorage.getTrips ls) with
    | None => None
    | Some (_, found) =>
        Some (mkState (Some found) (LocalStorage.getExpenses id ls)
                (js_or (Trip.initialExchangeRate found) (Num 1)))
    end.

(** [handleSaveExpense(expense)]: the store and the state after it. *)
Definition handleSaveExpense (id : string) (expense : Expense)
    (ls : LocalStorage.localStorage) (st : State) : LocalStorage.localStorage * State :=
  let ls := LocalStorage.saveExpense expense ls in
  (ls, if decide (id = EmptyString) then st
       else mkState (trip st) (refreshExpenses id ls) (tempRate st)).

(** [handleDelete(eId)]; [confirmed] is the answer to [window.confirm]. *)
Definition handleDelete (confirmed : bool) (id : string) (eId : string)
    (ls : LocalStorage.localStorage) (st : State) : LocalStorage.localStorage * State :=
  if confirmed then
    let ls := LocalStorage.deleteExpense eId ls in
    (ls, if decide (id = EmptyString) then st
         else mkState (trip st) (refreshExpenses id ls) (tempRate st))
  else (ls, st).

Definition handleToggleTripStatus
    (ls : LocalStorage.localStorage) (st : State) : LocalStorage.localStorage * State :=
  match trip st with
  | None => (ls, st)
  | Some trip =>
      let newStatus :=
        match Trip.status trip with active => closed | closed => active end in
      let updatedTrip := set_status newStatus trip in
      (LocalStorage.saveTrip updatedTrip ls,
       mkState (Some updatedTrip) (expenses st) (tempRate st))
  end.

(** [setTempRate(parseFloat(e.target.value))] and [handleSaveRate]. *)
Definition setTempRate (value : number) (st : State) : State :=
  mkState (trip st) (expenses st) value.

Definition handleSaveRate
    (ls : LocalStorage.localStorage) (st : State) : LocalStorage.localStorage * State :=
  match trip st with
  | None => (ls, st)
  | Some trip =>
      let updatedTrip := set_initialExchangeRate (tempRate st) trip in
      (LocalStorage.saveTrip updatedTrip ls,
       mkState (Some updatedTrip) (expenses st) (tempRate st))
  end.

(** *** Chart data *)

(** [groups[key] = (groups[key] || 0) + amount] on an object whose keys are
    kept in the order they were first set, which is the order of
    [Object.keys]. *)
Fixpoint groups_add (key : string) (amount : number)
    (groups : list (string * number)) : list (string * number) :=
  match groups with
  | [] => [(key, js_add (Num 0) amount)]
  | (k, v) :: rest =>
      if decide (k = key)
      then (k, js_add (js_or v (Num 0)) amount) :: rest
      else (k, v) :: groups_add key amount rest
  end.

(** [chartData]: the pairs of [name] and [value]. *)
Definition chartData (expenses : list Expense) : list (string * number) :=
  foldl (λ groups e,
           groups_add (ExpenseCategory_value (Expense.category e))
             (Expense.amountBase e) groups)
        [] expenses.

End TripDashboard.


(** * Specification vocabulary *)

(** ** Decidable equality of the data, used to evaluate closed statements *)

#[global] Instance Error_eq_dec : EqDecision Error.
Proof. solve_decision. Defined.
#[global] Instance Promise_eq_dec {A : Type} `{EqDecision A} : EqDecision (Promise A).
Proof. solve_decision. Defined.
#[global] Instance Currency_eq_dec : EqDecision Currency.
Proof. solve_decision. Defined.
#[global] Instance ExpenseCategory_eq_dec : EqDecision ExpenseCategory.
Proof. solve_decision. Defined.
#[global] Instance PaymentMethod_eq_dec : EqDecision PaymentMethod.
Proof. solve_decision. Defined.
#[global] Instance TripStatus_eq_dec : EqDecision TripStatus.
Proof. solve_decision. Defined.
#[global] Instance Expense_eq_dec : EqDecision Expense.
Proof. solve_decision. Defined.
#[global] Instance Trip_eq_dec : EqDecision Trip.
Proof. solve_decision. Defined.
#[global] Instance FormData_eq_dec : EqDecision ExpenseForm.FormData.
Proof. solve_decision. Defined.
#[global] Instance localStorage_eq_dec : EqDecision LocalStorage.localStorage.
Proof. solve_decision. Defined.
#[global] Instance IDBDatabase_eq_dec : EqDecision IndexedDB.IDBDatabase.
Proof. solve_decision. Defined.
#[global] Instance WizardFormData_eq_dec : EqDecision TripWizard.FormData.
Proof. solve_decision. Defined.
#[global] Instance WizardState_eq_dec : EqDecision TripWizard.State.
Proof. solve_decision. Defined.

(** Closes a closed, decidable statement by evaluating its decision. *)
Ltac by_evaluation :=
  lazymatch goal with
  | |- ?P =>
      let d := constr:(_ : Decision P) in
      apply (@bool_decide_unpack P d); vm_compute; exact I
  end.

(** The same for a statement about every element of a closed list. *)
Ltac by_evaluation_on_list :=
  refine (proj1 (Forall_forall _ _) _); by_evaluation.

(** Order and arithmetic of canonical rationals, as facts about the
    rationals they stand for. *)
Ltac qc_to_q :=
  unfold Qclt, Qcle, Qcdiv, Qcminus in *;
  unfold Qcplus, Qcopp, Qcmult, Qcinv in *;
  cbn [this Q2Qc] in *; rewrite ?Qred_correct in *.

(** ** Numbers *)

(** What every JavaScript number is: when it is finite, a binary64 number,
    which rounding to binary64 leaves as it is. The type [number] ranges over
    all rationals; a statement that depends on a value being a number that
    JavaScript can hold says so with this predicate. *)
Definition representable (v : number) : Prop :=
  match v with
  | Num q => binary64 q = Num q
  | _ => True
  end.

#[global] Instance representable_dec (v : number) : Decision (representable v).
Proof. destruct v; simpl; apply _. Defined.

(** For a positive [a]: the exponent of the binary64 numbers that enclose
    [a], and the one of them [a] is rounded to. *)
Definition exponent (a : Qc) : Z := Z.max (-1074) (Qc_log2 a - 52).

Definition nearest (a : Qc) : Qc :=
  (Q2Qc (inject_Z (round_half_even (a / pow2 (exponent a)))) * pow2 (exponent a))%Qc.

(** ** Lists updated by key *)

(** The update both [saveTrip] and [saveExpense] make to the array they
    read: replace the first record with the key of [x], or push [x]. *)
Definition upsert {A : Type} (key : A → string) (x : A) (l : list A) : list A :=
  match list_find (λ y, key y = key x) l with
  | Some (existingIndex, _) => <[existingIndex := x]> l
  | None => l ++ [x]
  end.

(** ** Stores that hold JSON *)

(** A numeric field that JSON reads back as it was written: a finite number
    or null, neither NaN nor an infinity. *)
Definition written_as_is (v : number) : Prop :=
  match v with
  | Num _ | Null => True
  | Infinity _ | NaN => False
  end.

#[global] Instance written_as_is_dec (v : number) : Decision (written_as_is v).
Proof. destruct v; simpl; apply _. Defined.

(** A record that JSON reads back as it was written: no numeric field is
    NaN or an infinity. *)
Definition Trip_storable (r : Trip) : Prop :=
  written_as_is (Trip.advanceAmount r) ∧ written_as_is (Trip.initialExchangeRate r).

Definition Expense_storable (e : Expense) : Prop :=
  written_as_is (Expense.amountOriginal e) ∧ written_as_is (Expense.exchangeRate e)
  ∧ written_as_is (Expense.amountBase e).

(** The arrays of a store are arrays that some JSON text parses to. Every
    store the service writes is such a store. *)
Definition holds_json (ls : LocalStorage.localStorage) : Prop :=
  Forall Trip_storable (LocalStorage.getTrips ls)
  ∧ Forall Expense_storable (LocalStorage.allExpenses ls).

(** No two trips and no two expenses of the store have the same id. *)
Definition unique_ids (ls : LocalStorage.localStorage) : Prop :=
  NoDup (Trip.id <$> LocalStorage.getTrips ls)
  ∧ NoDup (Expense.id <$> LocalStorage.allExpenses ls).

(** ** Object stores in key order *)

(** What the order of keys of an object store is taken to be: a strict total
    order, [compare] telling equal keys from keys in ascending and in
    descending order. The order of strings by their UTF-16 code units is
    one; so is the order of strings by their bytes, which agrees with it on
    ASCII keys. *)
Class KeyOrder (compare : string → string → comparison) : Prop := {
  compare_eq (a b : string) : compare a b = Eq ↔ a = b;
  compare_antisym (a b : string) : compare b a = CompOpp (compare a b);
  compare_trans (a b c : string) :
    compare a b = Lt → compare b c = Lt → compare a c = Lt
}.

(** The records of an object store stand in strictly ascending key order. *)
Definition key_sorted {A : Type} (compare : string → string → comparison)
    (key : A → string) (store : list A) : Prop :=
  StronglySorted (λ a b, compare (key a) (key b) = Lt) store.

(** ** The five operations of the persistence contract *)

Inductive operation :=
  | listTrips
  | upsertTrip (trip : Trip)
  | listExpenses (tripId : string)
  | upsertExpense (expense : Expense)
  | deleteExpense (expenseId : string).

(** What the caller has in hand once an operation returned (localStorage) or
    its promise resolved (IndexedDB); [Failed] when it threw or the promise
    was rejected; [Pending] when the promise is never settled. *)
Inductive outcome :=
  | Trips (trips : list Trip)
  | Expenses (expenses : list Expense)
  | Key (id : string)
  | Undefined
  | Failed (error : Error)
  | Pending.

#[global] Instance outcome_eq_dec : EqDecision outcome.
Proof. solve_decision. Defined.

(** What a call of the localStorage service delivers. *)
Definition returned {A : Type} (wrap : A → outcome) (c : LocalStorage.completion A)
    : outcome :=
  match c with
  | LocalStorage.Returns a => wrap a
  | LocalStorage.Throws error => Failed error
  end.

(** What an awaited promise of the IndexedDB service delivers. *)
Definition awaited {A : Type} (wrap : A → outcome) (p : option (Promise A)) : outcome :=
  match p with
  | Some (Resolved a) => wrap a
  | Some (Rejected error) => Failed error
  | None => Pending
  end.

(** One operation on a service, in the browser as it is during the call. *)
Definition step_localStorage (call : LocalStorage.browser * operation)
    (ls : LocalStorage.localStorage) : outcome * LocalStorage.localStorage :=
  match call.2 with
  | listTrips => (returned Trips (LocalStorage.Call.getTrips call.1 ls), ls)
  | upsertTrip trip =>
      let '(c, ls') := LocalStorage.Call.saveTrip call.1 trip ls in
      (returned (λ _, Undefined) c, ls')
  | listExpenses tripId =>
      (returned Expenses (LocalStorage.Call.getExpenses call.1 tripId ls), ls)
  | upsertExpense expense =>
      let '(c, ls') := LocalStorage.Call.saveExpense call.1 expense ls in
      (returned (λ _, Undefined) c, ls')
  | deleteExpense expenseId =>
      let '(c, ls') := LocalStorage.Call.deleteExpense call.1 expenseId ls in
      (returned (λ _, Undefined) c, ls')
  end.

Definition step_IndexedDB (compare : string → string → comparison)
    (call : IndexedDB.transaction * operation) (db : IndexedDB.IDBDatabase)
    : outcome * IndexedDB.IDBDatabase :=
  match call.2 with
  | listTrips => (awaited Trips (IndexedDB.getTrips call.1 db), db)
  | upsertTrip trip =>
      let '(p, db') := IndexedDB.saveTrip compare call.1 trip db in (awaited Key p, db')
  | listExpenses tripId =>
      (awaited Expenses (IndexedDB.getExpenses call.1 tripId db), db)
  | upsertExpense expense =>
      let '(p, db') := IndexedDB.saveExpense compare call.1 expense db in
      (awaited Key p, db')
  | deleteExpense expenseId =>
      let '(p, db') := IndexedDB.deleteExpense call.1 expenseId db in
      (awaited (λ _, Undefined) p, db')
  end.

(** A sequence of calls, each awaited before the next: the outcomes in
    order and the final store. *)
Fixpoint run {S C : Type} (step : C → S → outcome * S)
    (calls : list C) (s : S) : list outcome * S :=
  match calls with
  | [] => ([], s)
  | c :: rest =>
      let '(r, s') := step c s in
      let '(rs, s'') := run step rest s' in
      (r :: rs, s'')
  end.

(** The stores of the two services after a sequence of operations from the
    empty store, in a browser whose stores work. *)
Definition stored_localStorage (ops : list operation) : LocalStorage.localStorage :=
  (run step_localStorage (pair LocalStorage.works <$> ops) LocalStorage.empty).2.

Definition stored_IndexedDB (compare : string → string → comparison)
    (ops : list operation) : IndexedDB.IDBDatabase :=
  (run (step_IndexedDB compare) (pair IndexedDB.completes <$> ops) IndexedDB.empty).2.

(** The order of insertion: the ids of the trips saved by a sequence of
    operations, each at the place of its first save; the ids of the expenses
    saved and not deleted since, each at the place of its first save since
    it was last deleted. *)
Definition trips_inserted (ops : list operation) : list string :=
  foldl (λ ids o,
           match o with
           | upsertTrip trip =>
               if decide (Trip.id trip ∈ ids) then ids else ids ++ [Trip.id trip]
           | _ => ids
           end)
        [] ops.

Definition expenses_inserted (ops : list operation) : list string :=
  foldl (λ ids o,
           match o with
           | upsertExpense expense =>
               if decide (Expense.id expense ∈ ids) then ids
               else ids ++ [Expense.id expense]
           | deleteExpense expenseId => filter (λ id, id ≠ expenseId) ids
           | _ => ids
           end)
        [] ops.

(** What the caller of the two services can rely on for one operation that
    follows the operations [before], the stores working: the listings hold
    the same records, those of localStorage as JSON reads them back and in
    the order of insertion, those of IndexedDB in ascending order of id; an
    upsert returns nothing from localStorage and the key of the record from
    IndexedDB. *)
Definition outcomes_agree (compare : string → string → comparison)
    (before : list operation) (o : operation) (local indexed : outcome) : Prop :=
  match o with
  | listTrips =>
      ∃ l k, local = Trips l ∧ indexed = Trips k
             ∧ l ≡ₚ Trip.json <$> k
             ∧ Trip.id <$> l = trips_inserted before
             ∧ key_sorted compare Trip.id k
  | listExpenses tripId =>
      ∃ l k all, local = Expenses l ∧ indexed = Expenses k
                 ∧ l ≡ₚ Expense.json <$> k
                 ∧ l = filter (λ e, Expense.tripId e = tripId) all
                 ∧ Expense.id <$> all = expenses_inserted before
                 ∧ key_sorted compare Expense.id k
  | upsertTrip trip => local = Undefined ∧ indexed = Key (Trip.id trip)
  | upsertExpense expense => local = Undefined ∧ indexed = Key (Expense.id expense)
  | deleteExpense _ => local = Undefined ∧ indexed = Undefined
  end.

(** The error a browser state carries, if any. *)
Definition thrown (b : LocalStorage.browser) : option Error :=
  match b with
  | LocalStorage.works => None
  | LocalStorage.getItem_throws error
  | LocalStorage.JSON_parse_throws error
  | LocalStorage.setItem_throws error => Some error
  end.

Definition rejected (tx : IndexedDB.transaction) : option Error :=
  match tx with
  | IndexedDB.completes | IndexedDB.aborts => None
  | IndexedDB.open_fails error
  | IndexedDB.call_throws error
  | IndexedDB.request_fails error => Some error
  end.

(** ** The rate service *)

(** The errors [getEstimatedExchangeRate] throws again instead of answering
    1.0. *)
Definition is503 (error : Error) : bool :=
  bool_decide (status error = Some 503%Z) || message_includes error "503".

(** One attempt of [getEstimatedExchangeRate]: the function it hands to
    [retryOperation]. *)
Definition rate_attempt (generateContent : nat → attempt) (call : nat) : Promise number :=
  match generateContent call with
  | Answer rate =>
      Resolved (match rate with
                | Some r => js_or r (Num 1)
                | None => Num 1
                end)
  | Failure error =>
      if bool_decide (status error = Some 503%Z) || message_includes error "503"
      then Rejected error
      else Resolved (Num 1)
  end.

Definition is_positive (v : number) : Prop :=
  match v with Num q => (0 < q)%Qc | _ => False end.

(** The static table of common pairs, as the specification words it: a rate
    per pair, and 1.0 for a pair that is not listed. *)
Definition static_rates : list (string * Qc) :=
  [ ("USD-BRL", dec 5 1); ("BRL-USD", dec 2 10); ("EUR-BRL", dec 55 10);
    ("BRL-EUR", dec 18 100); ("USD-EUR", dec 92 100); ("EUR-USD", dec 109 100) ].

Definition static_rate (pair : string) : Qc :=
  match list_find (λ entry, entry.1 = pair) static_rates with
  | Some (_, (_, rate)) => rate
  | None => 1%Qc
  end.

(** The stores of the two services after the same operations: localStorage
    holds, in some order, the records of the object stores as JSON reads them
    back. *)
Definition same_records (compare : string → string → comparison)
    (ls : LocalStorage.localStorage) (db : IndexedDB.IDBDatabase) : Prop :=
  holds_json ls
  ∧ key_sorted compare Trip.id (IndexedDB.trips db)
  ∧ key_sorted compare Expense.id (IndexedDB.expenses db)
  ∧ LocalStorage.getTrips ls ≡ₚ Trip.json <$> IndexedDB.trips db
  ∧ LocalStorage.allExpenses ls ≡ₚ Expense.json <$> IndexedDB.expenses db.

(** ** The layout of the exported CSV *)

Definition is_digit (c : ascii) : bool :=
  ((48 <=? N_of_ascii c) && (N_of_ascii c <=? 57))%N.

Fixpoint all_digits (s : string) : Prop :=
  match s with
  | EmptyString => True
  | String c rest => is_digit c = true ∧ all_digits rest
  end.

(** The character [c] does not occur in [s]. *)
Fixpoint lacks (c : ascii) (s : string) : Prop :=
  match s with
  | EmptyString => True
  | String c' rest => c' ≠ c ∧ lacks c rest
  end.

(** A number that [toFixed] prints in decimal digits: a finite number of
    magnitude below 10^21. *)
Definition prints_decimal (v : number) : Prop :=
  match v with
  | Num q => (- fraction (10 ^ 21) 1 < q)%Qc ∧ (q < fraction (10 ^ 21) 1)%Qc
  | _ => False
  end.

(** A numeric cell with a decimal comma: between quotes, an optional sign,
    at least one digit, a comma and [fractionDigits] digits, with no point
    anywhere. *)
Definition decimal_comma_cell (fractionDigits : nat) (cell : string) : Prop :=
  lacks "." cell
  ∧ ∃ sign int frac,
      cell = TripDashboard.quote +:+ sign +:+ int +:+ "," +:+ frac
             +:+ TripDashboard.quote
      ∧ (sign = EmptyString ∨ sign = "-")
      ∧ int ≠ EmptyString ∧ all_digits int
      ∧ all_digits frac ∧ String.length frac = fractionDigits.

(** The row of an expense: nine cells joined by semicolons, the amounts and
    the rate as the export formats them, with a decimal comma where the
    number prints in decimal digits, the others as escaped text. *)
Definition expense_row (language : Language) (e : Expense) (row : string) : Prop :=
  ∃ amountOriginal exchangeRate amountBase,
    TripDashboard.formatDecimal (Expense.amountOriginal e) = Some amountOriginal
    ∧ TripDashboard.formatRate (Expense.exchangeRate e) = Some exchangeRate
    ∧ TripDashboard.formatDecimal (Expense.amountBase e) = Some amountBase
    ∧ (prints_decimal (Expense.amountOriginal e) → decimal_comma_cell 2 amountOriginal)
    ∧ (prints_decimal (Expense.exchangeRate e) → decimal_comma_cell 6 exchangeRate)
    ∧ (prints_decimal (Expense.amountBase e) → decimal_comma_cell 2 amountBase)
    ∧ row = String.concat ";"
              [ TripDashboard.escape (Some (Expense.date e));
                TripDashboard.escape
                  (Some (t language (ExpenseCategory_value (Expense.category e))));
                TripDashboard.escape (Some (Expense.merchant e));
                amountOriginal;
                TripDashboard.escape (Some (Expense.currencyOriginal e));
                exchangeRate;
                amountBase;
                TripDashboard.escape
                  (Some (t language (PaymentMethod_value (Expense.paymentMethod e))));
                TripDashboard.escape (Some (default EmptyString (Expense.notes e))) ].

(** A row of the metadata block: a name and a value, both escaped. *)
Definition metadata_row (name value : string) : string :=
  TripDashboard.escape (Some name) +:+ ";" +:+ TripDashboard.escape (Some value).

(** No numeric field read by the export is null, so that no call of
    [toFixed] throws. *)
Definition exportable (trip : Trip) (expenses : list Expense) : Prop :=
  Trip.advanceAmount trip ≠ Null
  ∧ Forall (λ e, Expense.amountOriginal e ≠ Null ∧ Expense.exchangeRate e ≠ Null
                 ∧ Expense.amountBase e ≠ Null) expenses.

(** ** The amount saved by the expense form *)

(** The value [handleSubmit] multiplies for a form field: 0 stands in for an
    amount that is NaN or null, 1 for a rate that is 0, NaN or null. *)
Definition effective_amount (v : number) : number :=
  match v with
  | Num q => Num q
  | Infinity negative => Infinity negative
  | NaN | Null => Num 0
  end.

Definition effective_rate (v : number) : number :=
  match v with
  | Num q => if decide (q = 0%Qc) then Num 1 else Num q
  | Infinity negative => Infinity negative
  | NaN | Null => Num 1
  end.

(** Rounding to a money precision of [digits] decimals, to the nearest
    multiple with ties upwards, as the specification words it. *)
Definition round_to (digits : nat) (q : Qc) : Qc :=
  let scale := Z.pow 10 (Z.of_nat digits) in
  Q2Qc (Qmake (Qfloor (q * Q2Qc (inject_Z scale) + fraction 1 2)%Qc) (Z.to_pos scale)).

Definition round_money (digits : nat) (v : number) : number :=
  match v with Num q => Num (round_to digits q) | _ => v end.

(** ** Sample data *)

Module Sample.

Definition tokyo : Trip :=
  Trip.mk "t1" "Current User" "Tokyo Product Launch" "Japan" "JPY" USD
    (Num (dec 1000 1)) (Num (dec 150 1)) "2024-01-01" active.

(** An amount of 1 at a rate of 0.125: both are binary fractions, and so is
    the product 0.125, which binary64 holds without rounding. *)
Definition form_eighth : ExpenseForm.FormData :=
  ExpenseForm.mk "e1" "t1" "2024-01-02" MEAL "Cafe" (Num 1)
    "EUR" (Num (dec 1 8)) CORPORATE_CARD EmptyString false.

(** An amount of 100 at a rate of 1.1, and an amount of 1e308 at a rate of
    10. *)
Definition form_hundred : ExpenseForm.FormData :=
  ExpenseForm.mk "e5" "t1" "2024-01-02" MEAL "Cafe" (Num (dec 100 1))
    "EUR" (Num (dec 11 10)) CORPORATE_CARD EmptyString false.

Definition form_huge : ExpenseForm.FormData :=
  ExpenseForm.mk "e6" "t1" "2024-01-02" MEAL "Cafe" (Num (dec (10 ^ 308) 1))
    "EUR" (Num (dec 10 1)) CORPORATE_CARD EmptyString false.

(** An amount of 10 with the rate field set to 0. *)
Definition form_zero_rate : ExpenseForm.FormData :=
  ExpenseForm.mk "e2" "t1" "2024-01-02" MEAL "Cafe" (Num (dec 10 1))
    "EUR" (Num 0) CORPORATE_CARD EmptyString false.

(** The wizard filled in for a trip to Japan (no key is configured, the
    yen is suggested, the start date and an advance of 1000 are entered), and
    then its rate field cleared: [parseFloat] of the empty string is NaN. *)
Definition wizard_cleared_rate : TripWizard.State :=
  TripWizard.handleRateChange NaN
    (TripWizard.onAdvanceChange (Num (dec 1000 1))
       (TripWizard.onStartDateChange EmptyString (λ _, Answer None) "2024-01-01"
          "2024-01-01"
          (TripWizard.handleCountryBlur EmptyString (λ _, Answer None) "2024-01-01"
             "JPY"
             (TripWizard.onDestinationChange "Japan"
                (TripWizard.onTripNameChange "Tokyo Product Launch"
                   (TripWizard.initial "t1")))))).

(** The trip that wizard submits. *)
Definition tokyo_cleared_rate : Trip :=
  Trip.mk "t1" "Current User" "Tokyo Product Launch" "Japan" "JPY" USD
    (Num (dec 1000 1)) NaN "2024-01-01" active.

(** The same trip with a traveler name typed in. *)
Definition tokyo_alice : Trip :=
  Trip.mk "t1" "Alice" "Tokyo Product Launch" "Japan" "JPY" USD
    (Num (dec 1000 1)) NaN "2024-01-01" active.

Definition paris : Trip :=
  Trip.mk "t2" "Current User" "Paris Summit" "France" "EUR" USD
    (Num (dec 500 1)) (Num (dec 92 100)) "2024-02-01" active.

Definition lunch : Expense :=
  Expense.mk "e1" "t1" "2024-01-02" MEAL "Cafe" (Num (dec 50 1)) "USD"
    (Num 1) (Num (dec 50 1)) CASH None None false.

Definition hotel : Expense :=
  Expense.mk "e2" "t1" "2024-01-03" LODGING "Inn" (Num (dec 88 1)) "EUR"
    (Num (dec 125 100)) (Num (dec 110 1)) CORPORATE_CARD None None false.

Definition taxi : Expense :=
  Expense.mk "e3" "t2" "2024-02-02" TRANSPORT "Taxi" (Num (dec 20 1)) "EUR"
    (Num (dec 125 100)) (Num (dec 25 1)) PERSONAL_CARD None None false.

(** The taxi ride, edited to 30 EUR. *)
Definition taxi_edited : Expense :=
  Expense.mk "e3" "t2" "2024-02-02" TRANSPORT "Taxi" (Num (dec 30 1)) "EUR"
    (Num (dec 125 100)) (Num (dec 375 10)) PERSONAL_CARD None None false.

(** A trip whose advance is what lunch and hotel cost together. *)
Definition tokyo_exact : Trip :=
  Trip.mk "t1" "Current User" "Tokyo Product Launch" "Japan" "JPY" USD
    (Num (dec 160 1)) (Num (dec 150 1)) "2024-01-01" active.

(** The remote model answering that it is overloaded. *)
Definition overloaded : Error :=
  mkError (Some 503%Z) (Some "The model is overloaded. Please try again later.").

(** The exception of a full localStorage and the error of a database that
    cannot be opened. *)
Definition quota_exceeded : Error :=
  mkError None (Some "The quota has been exceeded.").

Definition open_failed : Error :=
  mkError None (Some "The database could not be opened.").

(** The expense form for a new expense in euros of the trip to Tokyo,
    whose base currency is the dollar. *)
Definition form_euro : ExpenseForm.FormData :=
  ExpenseForm.mk "e4" "t1" "2024-01-02" MEAL "Bistro" (Num (dec 40 1))
    "EUR" (Num (dec 109 100)) CORPORATE_CARD EmptyString false.

(** Three small expenses: 0.1 and 1.1 for meals, 0.1 for lodging between
    them. *)
Definition three_small : list Expense :=
  [ Expense.mk "s1" "t1" "2024-01-02" MEAL "Cafe" (Num (dec 1 10)) "USD"
      (Num 1) (Num (dec 1 10)) CASH None None false;
    Expense.mk "s2" "t1" "2024-01-02" LODGING "Inn" (Num (dec 1 10)) "USD"
      (Num 1) (Num (dec 1 10)) CASH None None false;
    Expense.mk "s3" "t1" "2024-01-02" MEAL "Cafe" (Num (dec 11 10)) "USD"
      (Num 1) (Num (dec 11 10)) CASH None None false ].

Definition store : LocalStorage.localStorage :=
  LocalStorage.mk (Some [tokyo; paris]) (Some [lunch; hotel; taxi]).

End Sample.

(** ** Vocabulary for the remote services, the scan and the views *)

#[global] Instance suggestion_eq_dec : EqDecision suggestion.
Proof. solve_decision. Defined.
#[global] Instance currency_attempt_eq_dec : EqDecision currency_attempt.
Proof. solve_decision. Defined.
#[global] Instance OCRResult_eq_dec : EqDecision OCRResult.
Proof. solve_decision. Defined.
#[global] Instance receipt_attempt_eq_dec : EqDecision receipt_attempt.
Proof. solve_decision. Defined.
#[global] Instance SettingsState_eq_dec : EqDecision Settings.State.
Proof. solve_decision. Defined.
#[global] Instance DashboardState_eq_dec : EqDecision TripDashboard.State.
Proof. solve_decision. Defined.
#[global] Instance Language_eq_dec : EqDecision Language.
Proof. solve_decision. Defined.

(** An upper-case letter of the basic Latin alphabet. *)
Definition is_upper (c : ascii) : bool :=
  (65 <=? nat_of_ascii c)%nat && (nat_of_ascii c <=? 90)%nat.

(** A currency code as ISO 4217 writes it: three upper-case letters. *)
Definition is_currency_code (s : string) : bool :=
  match s with
  | String a (String b (String c EmptyString)) => is_upper a && is_upper b && is_upper c
  | _ => false
  end.

(** The three string methods on strings of basic Latin characters, where
    [toLowerCase] and [toUpperCase] change the 26 letters only and [trim]
    removes the blanks at both ends. *)
Module Latin.
Definition lower (c : ascii) : ascii :=
  if is_upper c then ascii_of_nat (nat_of_ascii c + 32) else c.
Definition upper (c : ascii) : ascii :=
  if (97 <=? nat_of_ascii c)%nat && (nat_of_ascii c <=? 122)%nat
  then ascii_of_nat (nat_of_ascii c - 32) else c.
Fixpoint map_string (f : ascii → ascii) (s : string) : string :=
  match s with
  | EmptyString => EmptyString
  | String c rest => String (f c) (map_string f rest)
  end.
Definition toLowerCase : string → string := map_string lower.
Definition toUpperCase : string → string := map_string upper.
Definition is_blank (c : ascii) : bool :=
  bool_decide (nat_of_ascii c ∈ [9; 10; 11; 12; 13; 32])%nat.
Fixpoint trimStart (s : string) : string :=
  match s with
  | EmptyString => EmptyString
  | String c rest => if is_blank c then trimStart rest else s
  end.
Fixpoint trimEnd (s : string) : string :=
  match s with
  | EmptyString => EmptyString
  | String c rest =>
      match trimEnd rest with
      | EmptyString => if is_blank c then EmptyString else String c EmptyString
      | rest' => String c rest'
      end
  end.
Definition trim (s : string) : string := trimEnd (trimStart s).
End Latin.

(** The error tests of [analyzeReceipt]'s [catch] block. *)
Definition is429 (error : Error) : bool :=
  bool_decide (status error = Some 429%Z)
  || message_includes error "429"
  || message_includes error "quota"
  || message_includes error "RESOURCE_EXHAUSTED".

Definition quota_exceeded : Error :=
  new_Error "Daily AI Quota Exceeded. Please enter expense details manually.".

(** An error's message is present and not empty: what the alert of
    [handleFileChange] shows in place of its default text. *)
Definition has_message (error : Error) : Prop :=
  ∃ m, message error = Some m ∧ m ≠ EmptyString.

(** The test under which the [catch] block of [analyzeReceipt] rethrows the
    error it caught, for [retryOperation] to see it. *)
Definition is503_or_overloaded (error : Error) : bool :=
  bool_decide (status error = Some 503%Z)
  || message_includes error "503"
  || message_includes error "overloaded".

(** The name of the chart slice an expense counts for. *)
Definition slice_of (e : Expense) : string := ExpenseCategory_value (Expense.category e).

(** The expenses of a chart slice. *)
Definition in_slice (name : string) (expenses : list Expense) : list Expense :=
  filter (λ e, slice_of e = name) expenses.

(** A running total: a finite number or an infinity. *)
Definition is_total (v : number) : Prop :=
  match v with
  | Num _ | Infinity _ => True
  | NaN | Null => False
  end.

(** ** Sessions of the wizard and of the settings *)


Section WizardSession.
Context (apiKey : string) (generateContent : nat → attempt) (today : string).


End WizardSession.



(** What the user does in the settings dialog. *)
Inductive settings_event :=
  | ChooseLanguage (lang : Language)
  | ToggleTheme.

Definition settings_step (st : Settings.State) (event : settings_event) : Settings.State :=
  match event with
  | ChooseLanguage lang => Settings.setLanguage lang st
  | ToggleTheme => Settings.toggleTheme st
  end.

(** The provider after a session that started at mount over the stored
    items. *)
Definition settings_session (storedLang storedTheme : option string)
    (events : list settings_event) : Settings.State :=
  foldl settings_step (Settings.mount storedLang storedTheme) events.

(** ** Reading a CSV field *)

(** The text of a quoted field, read as RFC 4180 has it, from the text after
    the opening quote: two quotes stand for one, a single quote closes the
    field. The result is the field and the text after the closing quote;
    [None] when the field is not closed. *)
Fixpoint read_quoted (s : string) : option (string * string) :=
  match s with
  | EmptyString => None
  | String c rest =>
      if decide (c = TripDashboard.quote_char) then
        match rest with
        | String c' rest' =>
            if decide (c' = TripDashboard.quote_char)
            then match read_quoted rest' with
                 | Some (field, after) => Some (String TripDashboard.quote_char field, after)
                 | None => None
                 end
            else Some (EmptyString, rest)
        | EmptyString => Some (EmptyString, EmptyString)
        end
      else
        match read_quoted rest with
        | Some (field, after) => Some (String c field, after)
        | None => None
        end
  end.

Definition read_field (s : string) : option (string * string) :=
  match s with
  | String c rest => if decide (c = TripDashboard.quote_char) then read_quoted rest else None
  | EmptyString => None
  end.

(** ** Identifiers *)

(** A string of the given shape: [h] stands for a hexadecimal digit in lower
    case, [v] for one of 8, 9, a and b, and every other character for
    itself. *)
Fixpoint occurs (c : ascii) (s : string) : bool :=
  match s with
  | EmptyString => false
  | String c' rest => bool_decide (c = c') || occurs c rest
  end.

Definition is_hex (c : ascii) : bool := occurs c "0123456789abcdef".
Definition is_variant (c : ascii) : bool := occurs c "89ab".

Fixpoint has_shape (shape s : string) : bool :=
  match shape, s with
  | EmptyString, EmptyString => true
  | String p shape', String c s' =>
      (if decide (p = "h"%char) then is_hex c
       else if decide (p = "v"%char) then is_variant c
       else bool_decide (c = p))
      && has_shape shape' s'
  | _, _ => false
  end.

(** The shape of the strings [generateUUID] builds from a template. *)
Fixpoint shape_of_template (template : string) : string :=
  match template with
  | EmptyString => EmptyString
  | String c rest =>
      String (if decide (c = "x"%char) then "h"%char
              else if decide (c = "y"%char) then "v"%char else c)
             (shape_of_template rest)
  end.

(** A template may hold, besides [x] and [y], any character but the two
    that stand for a class in a shape. *)
Fixpoint plain_template (template : string) : bool :=
  match template with
  | EmptyString => true
  | String c rest =>
      bool_decide (c ≠ "h"%char) && bool_decide (c ≠ "v"%char) && plain_template rest
  end.

(** A UUID of version 4 (RFC 4122), in lower case. *)
Definition is_uuid_v4 (s : string) : bool :=
  has_shape "hhhhhhhh-hhhh-4hhh-vhhh-hhhhhhhhhhhh" s.


(** * Properties *)

(** ** Numbers *)

Lemma JSON_number_idemp (v : number) : JSON_number (JSON_number v) = JSON_number v.
Proof. by destruct v. Qed.

Lemma JSON_number_fixed (v : number) : written_as_is v → JSON_number v = v.
Proof. by destruct v. Qed.

Lemma JSON_number_fixed_inv (v : number) : JSON_number v = v → written_as_is v.
Proof. by destruct v. Qed.

Lemma JSON_number_written (v : number) : written_as_is (JSON_number v).
Proof. by destruct v. Qed.

Lemma binary64_0 : binary64 0 = Num 0.
Proof. reflexivity. Qed.

(** Rounding to binary64 on sample values: the binary64 nearest to one
    tenth; a tie, which goes to the even significand; the least subnormal
    number and half of it; the greatest number, and the overflow to an
    infinity from half a unit in the last place above it. *)
Lemma binary64_examples :
  binary64 (fraction 1 10) = Num (fraction 3602879701896397 36028797018963968)
  ∧ binary64 (fraction (2 ^ 53 + 1) 1) = Num (fraction (2 ^ 53) 1)
  ∧ binary64 (fraction (2 ^ 53 + 3) 1) = Num (fraction (2 ^ 53 + 4) 1)
  ∧ binary64 (fraction 1 (2 ^ 1074)) = Num (fraction 1 (2 ^ 1074))
  ∧ binary64 (fraction 1 (2 ^ 1075)) = Num 0
  ∧ binary64 (fraction 3 (2 ^ 1075)) = Num (fraction 2 (2 ^ 1074))
  ∧ binary64 (fraction (2 ^ 1024 - 2 ^ 971) 1) = Num (fraction (2 ^ 1024 - 2 ^ 971) 1)
  ∧ binary64 (fraction (2 ^ 1024 - 2 ^ 970 - 1) 1)
    = Num (fraction (2 ^ 1024 - 2 ^ 971) 1)
  ∧ binary64 (fraction (2 ^ 1024 - 2 ^ 970) 1) = Infinity false
  ∧ binary64 (fraction (- 2 ^ 1024) 1) = Infinity true
  ∧ js_add (Num (dec 1 10)) (Num (dec 2 10)) = Num (dec 30000000000000004 100000000000000000)
  ∧ js_add (Num (dec 1 10)) (Num (dec 2 10)) ≠ Num (dec 3 10)
  ∧ js_sub (Infinity false) (Infinity false) = NaN
  ∧ js_mul (Infinity true) (Num 0) = NaN
  ∧ js_div (Num 1) (Num 0) = Infinity false.
Proof. by_evaluation. Qed.

Lemma js_or_amount (v : number) : js_or v (Num 0) = effective_amount v.
Proof.
  destruct v as [q | negative | |]; try reflexivity.
  unfold js_or, truthy. case_bool_decide as Hq; [done |].
  simpl. f_equal. destruct (decide (q = 0%Qc)) as [-> | Hne]; [done |].
  by destruct Hq.
Qed.

Lemma js_or_rate (v : number) : js_or v (Num 1) = effective_rate v.
Proof.
  destruct v as [q | negative | |]; try reflexivity.
  unfold js_or, truthy, effective_rate.
  case_bool_decide as Hq; destruct (decide (q = 0%Qc)); done.
Qed.

(** ** The amount saved by the expense form *)

Lemma handleSubmit_amountBase_eq (formData : ExpenseForm.FormData) :
  Expense.amountBase (ExpenseForm.handleSubmit formData)
  = js_mul (effective_amount (ExpenseForm.amountOriginal formData))
           (effective_rate (ExpenseForm.exchangeRate formData)).
Proof.
  unfold ExpenseForm.handleSubmit. simpl.
  by rewrite js_or_amount, js_or_rate.
Qed.

(** ** Lists updated by key *)

Section Upsert.
Context {A : Type} (key : A → string).

Lemma upsert_nil (x : A) : upsert key x [] = [x].
Proof. reflexivity. Qed.

Lemma upsert_cons (x y : A) (l : list A) :
  upsert key x (y :: l) = if decide (key y = key x) then x :: l else y :: upsert key x l.
Proof.
  unfold upsert. simpl. destruct (decide (key y = key x)); [done |].
  destruct (list_find _ l) as [[i z] |]; done.
Qed.

Lemma upsert_not_in (x : A) (l : list A) :
  key x ∉ key <$> l → upsert key x l = l ++ [x].
Proof.
  induction l as [| y l IH]; [done |]. intros Hnot.
  rewrite upsert_cons. rewrite fmap_cons, not_elem_of_cons in Hnot.
  destruct Hnot as [Hne Hnot].
  destruct (decide (key y = key x)); [congruence |].
  by rewrite IH.
Qed.

(** Replacement happens at the first index holding the key. *)
Lemma upsert_at (x y : A) (l : list A) (i : nat) :
  l !! i = Some y → key y = key x →
  (∀ j z, l !! j = Some z → j < i → key z ≠ key x) →
  upsert key x l = <[i := x]> l.
Proof.
  revert i. induction l as [| z l IH]; intros i Hi Hy Hfirst; [done |].
  rewrite upsert_cons. destruct i as [| i]; simpl in *.
  - simplify_eq. by rewrite decide_True.
  - rewrite decide_False by (apply (Hfirst 0); [done | lia]).
    f_equal. apply IH; [done .. |].
    intros j w Hj Hlt. apply (Hfirst (S j)); [done | lia].
Qed.

Lemma NoDup_keys_lookup (l : list A) (i j : nat) (y z : A) :
  NoDup (key <$> l) → l !! i = Some y → l !! j = Some z → key y = key z → i = j.
Proof.
  intros Hnd Hi Hj Heq.
  apply (NoDup_lookup (key <$> l) i j (key y)); [done | |].
  - by rewrite list_lookup_fmap, Hi.
  - by rewrite list_lookup_fmap, Hj, Heq.
Qed.

Lemma upsert_at_NoDup (x y : A) (l : list A) (i : nat) :
  NoDup (key <$> l) → l !! i = Some y → key y = key x →
  upsert key x l = <[i := x]> l.
Proof.
  intros Hnd Hi Hy. apply (upsert_at x y); [done .. |].
  intros j z Hj Hlt Hz.
  assert (j = i) by (eapply NoDup_keys_lookup; eauto; congruence). lia.
Qed.

Lemma elem_of_upsert_self (x : A) (l : list A) : x ∈ upsert key x l.
Proof.
  induction l as [| y l IH]; [by apply list_elem_of_singleton |].
  rewrite upsert_cons. destruct (decide (key y = key x)); set_solver.
Qed.

Lemma keys_upsert (x : A) (l : list A) :
  key <$> upsert key x l
  = if decide (key x ∈ key <$> l) then key <$> l else (key <$> l) ++ [key x].
Proof.
  induction l as [| y l IH]; [done |].
  rewrite upsert_cons. destruct (decide (key y = key x)) as [Heq | Hne].
  - rewrite decide_True by (rewrite fmap_cons, Heq; set_solver).
    by rewrite !fmap_cons, Heq.
  - rewrite !fmap_cons, IH.
    destruct (decide (key x ∈ key <$> l)) as [Hin | Hnin].
    + rewrite decide_True by set_solver. done.
    + rewrite decide_False by set_solver. done.
Qed.

Lemma length_upsert (x : A) (l : list A) :
  length (upsert key x l)
  = if decide (key x ∈ key <$> l) then length l else S (length l).
Proof.
  rewrite <- (length_fmap key (upsert key x l)), keys_upsert.
  case_decide; rewrite ?length_app, !length_fmap; simpl; lia.
Qed.

Lemma NoDup_keys_upsert (x : A) (l : list A) :
  NoDup (key <$> l) → NoDup (key <$> upsert key x l).
Proof.
  intros Hnd. rewrite keys_upsert. case_decide; [done |].
  apply NoDup_app. split_and!; [done | | apply NoDup_singleton].
  intros k Hk Hk'. apply list_elem_of_singleton in Hk'. by subst.
Qed.

Lemma elem_of_upsert (x z : A) (l : list A) :
  NoDup (key <$> l) →
  z ∈ upsert key x l ↔ z = x ∨ (z ∈ l ∧ key z ≠ key x).
Proof.
  induction l as [| y l IH]; intros Hnd.
  - rewrite upsert_nil. set_solver.
  - rewrite fmap_cons, NoDup_cons in Hnd. destruct Hnd as [Hy Hnd].
    rewrite upsert_cons. destruct (decide (key y = key x)) as [Heq | Hne].
    + rewrite !elem_of_cons. split.
      * intros [-> | Hz]; [by left |]. right. split; [by right |].
        intros Hk. apply Hy. rewrite Heq, <- Hk. by apply list_elem_of_fmap_2.
      * intros [-> | [[-> | Hz] Hk]]; [by left | done | by right].
    + rewrite !elem_of_cons, IH by done. naive_solver.
Qed.

Lemma list_find_upsert (x : A) (l : list A) :
  ∃ i, list_find (λ y, key y = key x) (upsert key x l) = Some (i, x).
Proof.
  induction l as [| y l [i IH]].
  - exists 0. rewrite upsert_nil. simpl. by rewrite decide_True.
  - rewrite upsert_cons. destruct (decide (key y = key x)) as [Heq | Hne].
    + exists 0. simpl. by rewrite decide_True.
    + exists (S i). simpl. rewrite decide_False by done. by rewrite IH.
Qed.

Lemma upsert_idemp (x : A) (l : list A) : upsert key x (upsert key x l) = upsert key x l.
Proof.
  induction l as [| y l IH].
  - rewrite upsert_nil, upsert_cons. by rewrite decide_True.
  - rewrite upsert_cons. destruct (decide (key y = key x)) as [Heq | Hne].
    + rewrite upsert_cons. by rewrite decide_True.
    + rewrite upsert_cons, decide_False by done. by rewrite IH.
Qed.

(** A filter that rejects [x] and every record with the key of [x] does
    not see the update. *)
Lemma filter_upsert_other (P : A → Prop) `{!∀ a, Decision (P a)} (x : A) (l : list A) :
  ¬ P x → (∀ y, y ∈ l → key y = key x → ¬ P y) →
  filter P (upsert key x l) = filter P l.
Proof.
  intros Hx. induction l as [| y l IH]; intros Hl.
  - rewrite upsert_nil. by rewrite filter_cons_False.
  - rewrite upsert_cons. destruct (decide (key y = key x)) as [Heq | Hne].
    + rewrite filter_cons_False by done.
      rewrite filter_cons_False; [done |]. apply Hl; [set_solver | done].
    + rewrite !filter_cons. rewrite IH; [done |].
      intros z Hz. apply Hl. set_solver.
Qed.

Lemma filter_key_ne_id (k : string) (l : list A) :
  k ∉ key <$> l → filter (λ y, key y ≠ k) l = l.
Proof.
  induction l as [| y l IH]; [done |]. intros Hnot.
  rewrite fmap_cons, not_elem_of_cons in Hnot. destruct Hnot as [Hne Hnot].
  rewrite filter_cons_True by done. by rewrite IH.
Qed.

Lemma NoDup_keys_filter (P : A → Prop) `{!∀ a, Decision (P a)} (l : list A) :
  NoDup (key <$> l) → NoDup (key <$> filter P l).
Proof.
  induction l as [| y l IH]; [done |].
  rewrite fmap_cons, NoDup_cons. intros [Hy Hnd].
  rewrite filter_cons. case_decide; [| by apply IH].
  rewrite fmap_cons, NoDup_cons. split; [| by apply IH].
  intros Hin. apply Hy. apply list_elem_of_fmap in Hin as (z & Hz & Hin).
  apply list_elem_of_filter in Hin as [_ Hin].
  rewrite Hz. by apply list_elem_of_fmap_2.
Qed.

Lemma NoDup_of_keys (l : list A) : NoDup (key <$> l) → NoDup l.
Proof. apply NoDup_fmap_1. Qed.
End Upsert.

(** A map that keeps keys commutes with the update. *)
Lemma fmap_upsert {A : Type} (key : A → string) (f : A → A) (x : A) (l : list A) :
  (∀ y, key (f y) = key y) →
  f <$> upsert key x l = upsert key (f x) (f <$> l).
Proof.
  intros Hf. induction l as [| y l IH]; [done |].
  rewrite fmap_cons, !upsert_cons, !Hf.
  destruct (decide (key y = key x)); [done |].
  by rewrite fmap_cons, IH.
Qed.

Lemma fmap_filter_comm {A : Type} (P : A → Prop) `{!∀ a, Decision (P a)}
    (f : A → A) (l : list A) :
  (∀ y, P (f y) ↔ P y) → f <$> filter P l = filter P (f <$> l).
Proof.
  intros Hf. induction l as [| y l IH]; [done |].
  rewrite fmap_cons, !filter_cons.
  destruct (decide (P y)) as [Hy | Hy].
  - rewrite decide_True by (by apply Hf). by rewrite fmap_cons, IH.
  - rewrite decide_False by (by rewrite Hf). done.
Qed.

Lemma Forall_filter_2 {A : Type} (P Q : A → Prop) `{!∀ a, Decision (Q a)} (l : list A) :
  Forall P l → Forall P (filter Q l).
Proof.
  rewrite !Forall_forall. intros Hl x Hx.
  apply list_elem_of_filter in Hx as [_ Hx]. by apply Hl.
Qed.

Lemma fmap_fixed {A : Type} (f : A → A) (l : list A) :
  Forall (λ y, f y = y) l → f <$> l = l.
Proof. induction 1 as [| y l Hy _ IH]; [done |]. by rewrite fmap_cons, Hy, IH. Qed.

(** ** JSON on records *)

Lemma Expense_json_id (e : Expense) : Expense.id (Expense.json e) = Expense.id e.
Proof. reflexivity. Qed.

Lemma Expense_json_tripId (e : Expense) : Expense.tripId (Expense.json e) = Expense.tripId e.
Proof. reflexivity. Qed.

Lemma Trip_json_id (r : Trip) : Trip.id (Trip.json r) = Trip.id r.
Proof. reflexivity. Qed.

Lemma Expense_json_fixed (e : Expense) : Expense_storable e ↔ Expense.json e = e.
Proof.
  destruct e as [i ti d c m ao co er ab pm ri n v].
  unfold Expense_storable, Expense.json; simpl. split.
  - intros (? & ? & ?). by rewrite !JSON_number_fixed.
  - intros [= Hao Her Hab]. split_and!; by apply JSON_number_fixed_inv.
Qed.

Lemma Trip_json_fixed (r : Trip) : Trip_storable r ↔ Trip.json r = r.
Proof.
  destruct r as [i tn n d l b aa ie sd s].
  unfold Trip_storable, Trip.json; simpl. split.
  - intros (? & ?). by rewrite !JSON_number_fixed.
  - intros [= Haa Hie]. split_and!; by apply JSON_number_fixed_inv.
Qed.

Lemma JSON_number_not_NaN (v : number) : JSON_number v ≠ NaN.
Proof. by destruct v. Qed.

Lemma Expense_json_storable (e : Expense) : Expense_storable (Expense.json e).
Proof. repeat split; apply JSON_number_written. Qed.

Lemma Trip_json_storable (r : Trip) : Trip_storable (Trip.json r).
Proof. repeat split; apply JSON_number_written. Qed.

Lemma Expense_json_list_fixed (l : list Expense) :
  Forall Expense_storable l → Expense.json <$> l = l.
Proof.
  intros Hl. apply fmap_fixed. eapply Forall_impl; [done |].
  intros e. apply Expense_json_fixed.
Qed.

Lemma Trip_json_list_fixed (l : list Trip) :
  Forall Trip_storable l → Trip.json <$> l = l.
Proof.
  intros Hl. apply fmap_fixed. eapply Forall_impl; [done |].
  intros e. apply Trip_json_fixed.
Qed.

Lemma Expense_json_list_storable (l : list Expense) :
  Forall Expense_storable (Expense.json <$> l).
Proof. apply Forall_fmap, Forall_true, Expense_json_storable. Qed.

Lemma Trip_json_list_storable (l : list Trip) :
  Forall Trip_storable (Trip.json <$> l).
Proof. apply Forall_fmap, Forall_true, Trip_json_storable. Qed.

(** ** The localStorage service *)

Section LocalStorageFacts.
Import LocalStorage.

Lemma saveTrip_unfold (trip : Trip) (ls : localStorage) :
  saveTrip trip ls
  = mk (Some (Trip.json <$> upsert Trip.id trip (getTrips ls))) (voyage_expenses ls).
Proof. reflexivity. Qed.

Lemma saveExpense_unfold (expense : Expense) (ls : localStorage) :
  saveExpense expense ls
  = mk (voyage_trips ls)
       (Some (Expense.json <$> upsert Expense.id expense (allExpenses ls))).
Proof. reflexivity. Qed.

Lemma getTrips_saveTrip (trip : Trip) (ls : localStorage) :
  holds_json ls →
  getTrips (saveTrip trip ls) = upsert Trip.id (Trip.json trip) (getTrips ls).
Proof.
  intros [Hls _]. rewrite saveTrip_unfold. unfold getTrips at 1; simpl.
  rewrite (fmap_upsert Trip.id Trip.json) by done.
  by rewrite Trip_json_list_fixed.
Qed.

Lemma allExpenses_saveExpense (expense : Expense) (ls : localStorage) :
  holds_json ls →
  allExpenses (saveExpense expense ls)
  = upsert Expense.id (Expense.json expense) (allExpenses ls).
Proof.
  intros [_ Hls]. rewrite saveExpense_unfold. unfold allExpenses at 1; simpl.
  rewrite (fmap_upsert Expense.id Expense.json) by done.
  by rewrite Expense_json_list_fixed.
Qed.

Lemma allExpenses_deleteExpense (expenseId : string) (ls : localStorage) :
  holds_json ls →
  allExpenses (deleteExpense expenseId ls)
  = filter (λ e, Expense.id e ≠ expenseId) (allExpenses ls).
Proof.
  intros [_ Hls]. unfold deleteExpense, allExpenses in *.
  destruct ls as [ts [l |]]; simpl in *; [| done].
  unfold JSON_stringify_expenses.
  apply Expense_json_list_fixed. by apply Forall_filter_2.
Qed.

Lemma getTrips_saveExpense (expense : Expense) (ls : localStorage) :
  getTrips (saveExpense expense ls) = getTrips ls.
Proof. reflexivity. Qed.

Lemma allExpenses_saveTrip (trip : Trip) (ls : localStorage) :
  allExpenses (saveTrip trip ls) = allExpenses ls.
Proof. reflexivity. Qed.

Lemma getTrips_deleteExpense (expenseId : string) (ls : localStorage) :
  getTrips (deleteExpense expenseId ls) = getTrips ls.
Proof. unfold deleteExpense. by destruct (voyage_expenses ls). Qed.

Lemma holds_json_empty : holds_json empty.
Proof. split; constructor. Qed.

Lemma holds_json_saveTrip (trip : Trip) (ls : localStorage) :
  holds_json ls → holds_json (saveTrip trip ls).
Proof.
  intros [Ht He]. split; [| done].
  rewrite saveTrip_unfold. apply Trip_json_list_storable.
Qed.

Lemma holds_json_saveExpense (expense : Expense) (ls : localStorage) :
  holds_json ls → holds_json (saveExpense expense ls).
Proof.
  intros [Ht He]. split; [done |].
  rewrite saveExpense_unfold. apply Expense_json_list_storable.
Qed.

Lemma holds_json_deleteExpense (expenseId : string) (ls : localStorage) :
  holds_json ls → holds_json (deleteExpense expenseId ls).
Proof.
  intros Hls. split.
  - rewrite getTrips_deleteExpense. apply Hls.
  - rewrite allExpenses_deleteExpense by done. apply Forall_filter_2, Hls.
Qed.

Lemma unique_ids_empty : unique_ids empty.
Proof. split; constructor. Qed.

Lemma unique_ids_saveTrip (trip : Trip) (ls : localStorage) :
  holds_json ls → unique_ids ls → unique_ids (saveTrip trip ls).
Proof.
  intros Hj [Ht He]. split; [| done].
  rewrite getTrips_saveTrip by done. by apply NoDup_keys_upsert.
Qed.

Lemma unique_ids_saveExpense (expense : Expense) (ls : localStorage) :
  holds_json ls → unique_ids ls → unique_ids (saveExpense expense ls).
Proof.
  intros Hj [Ht He]. split; [done |].
  rewrite allExpenses_saveExpense by done. by apply NoDup_keys_upsert.
Qed.

Lemma unique_ids_deleteExpense (expenseId : string) (ls : localStorage) :
  holds_json ls → unique_ids ls → unique_ids (deleteExpense expenseId ls).
Proof.
  intros Hj [Ht He]. split.
  - by rewrite getTrips_deleteExpense.
  - rewrite allExpenses_deleteExpense by done. by apply NoDup_keys_filter.
Qed.

Lemma deleteExpense_absent (expenseId : string) (ls : localStorage) :
  holds_json ls → expenseId ∉ Expense.id <$> allExpenses ls →
  deleteExpense expenseId ls = ls.
Proof.
  intros [_ Hj] Hnot. unfold deleteExpense, allExpenses in *.
  destruct ls as [ts [l |]]; simpl in *; [| done].
  unfold JSON_stringify_expenses.
  rewrite filter_key_ne_id by done. by rewrite Expense_json_list_fixed.
Qed.

Lemma getExpenses_deleteExpense (tripId expenseId : string) (ls : localStorage) :
  holds_json ls →
  getExpenses tripId (deleteExpense expenseId ls)
  = filter (λ e, Expense.id e ≠ expenseId) (getExpenses tripId ls).
Proof.
  intros Hj. unfold getExpenses. rewrite allExpenses_deleteExpense by done.
  rewrite !list_filter_filter. apply list_filter_iff. naive_solver.
Qed.

Lemma getExpenses_deleteExpense_other (tripId expenseId : string) (ls : localStorage) :
  holds_json ls →
  (∀ e, e ∈ getExpenses tripId ls → Expense.id e ≠ expenseId) →
  getExpenses tripId (deleteExpense expenseId ls) = getExpenses tripId ls.
Proof.
  intros Hj Hne. rewrite getExpenses_deleteExpense by done.
  induction (getExpenses tripId ls) as [| e l IH]; [done |].
  rewrite filter_cons_True by (apply Hne; set_solver).
  f_equal. apply IH. intros e' He'. apply Hne. set_solver.
Qed.
End LocalStorageFacts.

(** ** The amount base of a submitted expense (C1) *)

Lemma effective_amount_or (v : number) :
  effective_amount (js_or v (Num 0)) = effective_amount v.
Proof. rewrite js_or_amount. by destruct v. Qed.

Lemma effective_rate_or (v : number) :
  effective_rate (js_or v (Num 1)) = effective_rate v.
Proof.
  rewrite js_or_rate. destruct v as [q | negative | |]; simpl; try done.
  destruct (decide (q = 0%Qc)) as [-> | Hq]; simpl; [done |].
  by rewrite decide_False.
Qed.

(** The product as binary64 has it. The form holding an amount of 100 at a
    rate of 1.1 submits 110.00000000000001, the binary64 nearest to the
    product of the binary64 nearest to 1.1 by 100. The form holding an amount
    of 1e308 at a rate of 10 submits an infinity, which the store holds as
    null. *)
Lemma submit_amountBase_binary64 :
  Expense.amountBase (ExpenseForm.handleSubmit Sample.form_hundred)
  = Num (fraction 7740561859543041 70368744177664)
  ∧ Expense.amountBase (ExpenseForm.handleSubmit Sample.form_hundred)
    = Num (dec 11000000000000001 100000000000000)
  ∧ Expense.amountBase (ExpenseForm.handleSubmit Sample.form_hundred)
    ≠ Num (dec 110 1)
  ∧ Expense.amountBase (ExpenseForm.handleSubmit Sample.form_huge) = Infinity false
  ∧ Expense.amountBase
      <$> LocalStorage.getExpenses "t1"
            (LocalStorage.saveExpense (ExpenseForm.handleSubmit Sample.form_huge)
               LocalStorage.empty)
    = [Null].
Proof. by_evaluation. Qed.

(** C1, as the specification states it, fails. The form holding an amount of
    1 at a rate of 0.125 is submitted and saved to an empty store: the stored
    [amountBase] is 0.125, which is not the product rounded to 2, 1 or 0
    decimals. With the rate field at 0 and an amount of 10, the stored
    [amountBase] is 10 while the product of the two stored fields is 0. *)
Lemma submit_amountBase_not_rounded :
  LocalStorage.getExpenses "t1"
    (LocalStorage.saveExpense (ExpenseForm.handleSubmit Sample.form_eighth)
       LocalStorage.empty)
  = [ExpenseForm.handleSubmit Sample.form_eighth]
  ∧ Expense.amountBase (ExpenseForm.handleSubmit Sample.form_eighth) = Num (dec 1 8)
  ∧ Expense.amountBase (ExpenseForm.handleSubmit Sample.form_eighth)
    ≠ round_money 2
        (js_mul (Expense.amountOriginal (ExpenseForm.handleSubmit Sample.form_eighth))
                (Expense.exchangeRate (ExpenseForm.handleSubmit Sample.form_eighth)))
  ∧ Expense.amountBase (ExpenseForm.handleSubmit Sample.form_eighth)
    ≠ round_money 1
        (js_mul (Expense.amountOriginal (ExpenseForm.handleSubmit Sample.form_eighth))
                (Expense.exchangeRate (ExpenseForm.handleSubmit Sample.form_eighth)))
  ∧ Expense.amountBase (ExpenseForm.handleSubmit Sample.form_eighth)
    ≠ round_money 0
        (js_mul (Expense.amountOriginal (ExpenseForm.handleSubmit Sample.form_eighth))
                (Expense.exchangeRate (ExpenseForm.handleSubmit Sample.form_eighth)))
  ∧ Expense.amountBase (ExpenseForm.handleSubmit Sample.form_zero_rate) = Num (dec 10 1)
  ∧ js_mul (Expense.amountOriginal (ExpenseForm.handleSubmit Sample.form_zero_rate))
           (Expense.exchangeRate (ExpenseForm.handleSubmit Sample.form_zero_rate))
    = Num 0.
Proof. by_evaluation. Qed.

(** C1, amended. For every state of the expense form, the expense that
    [handleSubmit] hands over has as [amountBase] the binary64 product, not
    rounded to a money precision, of the form's amount (0 when it is NaN or
    null) and the form's rate (1 when it is 0, NaN or null); once it is
    saved, the store holds under the expense's id what JSON writes for that
    value: the value itself, null for an infinity or NaN. Whenever the
    amount is a number and the rate is a number other than 0, the value is
    the exact product rounded to binary64 (to the nearest, an infinity out of
    range), which is the product of the two saved fields as JavaScript
    multiplies them. It is computed from these two fields alone: editing an
    expense recomputes it from the amount and rate of that expense, whatever
    [amountBase] it stored. *)
Theorem submit_amountBase (formData : ExpenseForm.FormData)
    (ls : LocalStorage.localStorage) :
  Expense.amountBase (ExpenseForm.handleSubmit formData)
  = js_mul (effective_amount (ExpenseForm.amountOriginal formData))
           (effective_rate (ExpenseForm.exchangeRate formData))
  ∧ (∃ stored,
       stored ∈ LocalStorage.getExpenses (ExpenseForm.tripId formData)
                  (LocalStorage.saveExpense (ExpenseForm.handleSubmit formData) ls)
       ∧ Expense.id stored = ExpenseForm.id formData
       ∧ Expense.amountBase stored
         = JSON_number (Expense.amountBase (ExpenseForm.handleSubmit formData)))
  ∧ (∀ a r : Qc,
       ExpenseForm.amountOriginal formData = Num a →
       ExpenseForm.exchangeRate formData = Num r → r ≠ 0%Qc →
       Expense.amountBase (ExpenseForm.handleSubmit formData) = binary64 (a * r)
       ∧ Expense.amountBase (ExpenseForm.handleSubmit formData)
         = js_mul (Expense.amountOriginal (ExpenseForm.handleSubmit formData))
                  (Expense.exchangeRate (ExpenseForm.handleSubmit formData)))
  ∧ (∀ (trip : Trip) (existing : Expense) (uuid today : string),
       Expense.amountBase
         (ExpenseForm.handleSubmit
            (ExpenseForm.initial trip (Some existing) uuid today))
       = js_mul (effective_amount (Expense.amountOriginal existing))
                (effective_rate (Expense.exchangeRate existing))).
Proof.
  split_and!.
  - apply handleSubmit_amountBase_eq.
  - exists (Expense.json (ExpenseForm.handleSubmit formData)). split_and!.
    + unfold LocalStorage.getExpenses. apply list_elem_of_filter. split; [done |].
      rewrite saveExpense_unfold. unfold LocalStorage.allExpenses at 1. simpl.
      apply list_elem_of_fmap_2, elem_of_upsert_self.
    + done.
    + done.
  - intros a r Ha Hr Hne. rewrite handleSubmit_amountBase_eq.
    simpl. rewrite Ha, Hr. simpl. rewrite decide_False by done. done.
  - intros trip existing uuid today. rewrite handleSubmit_amountBase_eq. simpl.
    by rewrite effective_amount_or, effective_rate_or.
Qed.

(** ** Saving and reading back (C5) *)

(** C5, as the specification states it, fails. The trip the wizard submits
    after its rate field was cleared has NaN as initial rate; saved to an
    empty store and read back, its initial rate is null, so the trip read is
    not the trip saved. (The same happens to an infinity, such as the amount
    in base currency of an expense whose product overflows.) *)
Lemma roundtrip_changes_NaN :
  TripWizard.handleSubmit Sample.wizard_cleared_rate = Some Sample.tokyo_cleared_rate
  ∧ LocalStorage.getTrips
      (LocalStorage.saveTrip Sample.tokyo_cleared_rate LocalStorage.empty)
  = [Trip.json Sample.tokyo_cleared_rate]
  ∧ Trip.initialExchangeRate Sample.tokyo_cleared_rate = NaN
  ∧ Trip.initialExchangeRate (Trip.json Sample.tokyo_cleared_rate) = Null
  ∧ Sample.tokyo_cleared_rate
    ∉ LocalStorage.getTrips
        (LocalStorage.saveTrip Sample.tokyo_cleared_rate LocalStorage.empty).
Proof. by_evaluation. Qed.

Lemma saveTrip_idemp (trip : Trip) (ls : LocalStorage.localStorage) :
  LocalStorage.saveTrip trip (LocalStorage.saveTrip trip ls)
  = LocalStorage.saveTrip trip ls.
Proof.
  rewrite !saveTrip_unfold. simpl. f_equal. f_equal.
  unfold LocalStorage.getTrips at 1. simpl.
  rewrite (fmap_upsert Trip.id Trip.json trip (Trip.json <$> _)) by done.
  rewrite (Trip_json_list_fixed (Trip.json <$> _)) by apply Trip_json_list_storable.
  rewrite (fmap_upsert Trip.id Trip.json trip (LocalStorage.getTrips ls)) by done.
  apply (upsert_idemp Trip.id).
Qed.

Lemma saveExpense_idemp (expense : Expense) (ls : LocalStorage.localStorage) :
  LocalStorage.saveExpense expense (LocalStorage.saveExpense expense ls)
  = LocalStorage.saveExpense expense ls.
Proof.
  rewrite !saveExpense_unfold. simpl. f_equal. f_equal.
  unfold LocalStorage.allExpenses at 1. simpl.
  rewrite (fmap_upsert Expense.id Expense.json expense (Expense.json <$> _)) by done.
  rewrite (Expense_json_list_fixed (Expense.json <$> _))
    by apply Expense_json_list_storable.
  rewrite (fmap_upsert Expense.id Expense.json expense (LocalStorage.allExpenses ls))
    by done.
  apply (upsert_idemp Expense.id).
Qed.

(** C5, amended. In a store that holds JSON, for every trip and every expense
    none of whose numeric fields is NaN or an infinity: after a save, the
    record found under the id is the record saved, equal in all fields, and
    the expense is among those listed for its trip. The save replaces the
    first record with the same id where it stands and otherwise appends, and
    saving the same record twice leaves the store as saving it once does.
    Whatever its numeric fields, a record is found under its id as JSON
    reads it back, with null in place of a NaN or an infinity. *)
Theorem save_then_read (ls : LocalStorage.localStorage) (trip : Trip) (expense : Expense) :
  holds_json ls → Trip_storable trip → Expense_storable expense →
  (∃ i, list_find (λ r, Trip.id r = Trip.id trip)
          (LocalStorage.getTrips (LocalStorage.saveTrip trip ls)) = Some (i, trip))
  ∧ (∃ i, list_find (λ e, Expense.id e = Expense.id expense)
            (LocalStorage.allExpenses (LocalStorage.saveExpense expense ls))
          = Some (i, expense))
  ∧ expense ∈ LocalStorage.getExpenses (Expense.tripId expense)
                (LocalStorage.saveExpense expense ls)
  ∧ (∀ i old,
       list_find (λ r, Trip.id r = Trip.id trip) (LocalStorage.getTrips ls)
       = Some (i, old) →
       LocalStorage.getTrips (LocalStorage.saveTrip trip ls)
       = <[i := trip]> (LocalStorage.getTrips ls))
  ∧ (Trip.id trip ∉ Trip.id <$> LocalStorage.getTrips ls →
     LocalStorage.getTrips (LocalStorage.saveTrip trip ls)
     = LocalStorage.getTrips ls ++ [trip])
  ∧ (∀ i old,
       list_find (λ e, Expense.id e = Expense.id expense) (LocalStorage.allExpenses ls)
       = Some (i, old) →
       LocalStorage.allExpenses (LocalStorage.saveExpense expense ls)
       = <[i := expense]> (LocalStorage.allExpenses ls))
  ∧ (Expense.id expense ∉ Expense.id <$> LocalStorage.allExpenses ls →
     LocalStorage.allExpenses (LocalStorage.saveExpense expense ls)
     = LocalStorage.allExpenses ls ++ [expense])
  ∧ LocalStorage.saveTrip trip (LocalStorage.saveTrip trip ls)
    = LocalStorage.saveTrip trip ls
  ∧ LocalStorage.saveExpense expense (LocalStorage.saveExpense expense ls)
    = LocalStorage.saveExpense expense ls
  ∧ (∀ r : Trip,
       ∃ i, list_find (λ x, Trip.id x = Trip.id r)
              (LocalStorage.getTrips (LocalStorage.saveTrip r ls))
            = Some (i, Trip.json r))
  ∧ (∀ e : Expense,
       ∃ i, list_find (λ x, Expense.id x = Expense.id e)
              (LocalStorage.allExpenses (LocalStorage.saveExpense e ls))
            = Some (i, Expense.json e)).
Proof.
  intros Hls Htrip Hexpense.
  apply Trip_json_fixed in Htrip. apply Expense_json_fixed in Hexpense.
  assert (Hall : LocalStorage.allExpenses (LocalStorage.saveExpense expense ls)
                 = upsert Expense.id expense (LocalStorage.allExpenses ls)).
  { rewrite allExpenses_saveExpense by done. by rewrite Hexpense. }
  assert (Hget : LocalStorage.getTrips (LocalStorage.saveTrip trip ls)
                 = upsert Trip.id trip (LocalStorage.getTrips ls)).
  { rewrite getTrips_saveTrip by done. by rewrite Htrip. }
  split_and!.
  - rewrite Hget. apply (list_find_upsert Trip.id).
  - rewrite Hall. apply (list_find_upsert Expense.id).
  - unfold LocalStorage.getExpenses. apply list_elem_of_filter. split; [done |].
    rewrite Hall. apply elem_of_upsert_self.
  - intros i old Hfind. rewrite Hget. unfold upsert. by rewrite Hfind.
  - intros Hnot. rewrite Hget. by apply upsert_not_in.
  - intros i old Hfind. rewrite Hall. unfold upsert. by rewrite Hfind.
  - intros Hnot. rewrite Hall. by apply upsert_not_in.
  - apply saveTrip_idemp.
  - apply saveExpense_idemp.
  - intros r. rewrite getTrips_saveTrip by done.
    apply (list_find_upsert Trip.id (Trip.json r)).
  - intros e. rewrite allExpenses_saveExpense by done.
    apply (list_find_upsert Expense.id (Expense.json e)).
Qed.

(** The theorem above, applied to sample data. *)
Lemma save_then_read_witness :
  (∃ i, list_find (λ r, Trip.id r = Trip.id Sample.paris)
          (LocalStorage.getTrips (LocalStorage.saveTrip Sample.paris Sample.store))
        = Some (i, Sample.paris))
  ∧ Sample.taxi_edited
    ∈ LocalStorage.getExpenses "t2"
        (LocalStorage.saveExpense Sample.taxi_edited Sample.store).
Proof.
  assert (Hls : holds_json Sample.store) by (by_evaluation).
  assert (Ht : Trip_storable Sample.paris) by (by_evaluation).
  assert (He : Expense_storable Sample.taxi_edited) by (by_evaluation).
  destruct (save_then_read Sample.store Sample.paris Sample.taxi_edited Hls Ht He)
    as (H1 & _ & H3 & _).
  exact (conj H1 H3).
Defined.

(** ** Unique ids (C10) *)

(** An operation in a browser whose storage works does what the function of
    the service does. *)
Lemma step_localStorage_works (o : operation) (ls : LocalStorage.localStorage) :
  step_localStorage (LocalStorage.works, o) ls
  = match o with
    | listTrips => (Trips (LocalStorage.getTrips ls), ls)
    | upsertTrip trip => (Undefined, LocalStorage.saveTrip trip ls)
    | listExpenses tripId => (Expenses (LocalStorage.getExpenses tripId ls), ls)
    | upsertExpense expense => (Undefined, LocalStorage.saveExpense expense ls)
    | deleteExpense expenseId => (Undefined, LocalStorage.deleteExpense expenseId ls)
    end.
Proof.
  destruct o as [| trip | tripId | expense | expenseId]; try reflexivity.
  unfold step_localStorage, LocalStorage.Call.deleteExpense, LocalStorage.deleteExpense.
  simpl. by destruct (LocalStorage.voyage_expenses ls).
Qed.

(** In any browser, an operation leaves the store as it was or as it leaves
    it in a browser whose storage works. *)
Lemma step_localStorage_store (b : LocalStorage.browser) (o : operation)
    (ls : LocalStorage.localStorage) :
  (step_localStorage (b, o) ls).2 = ls
  ∨ (step_localStorage (b, o) ls).2 = (step_localStorage (LocalStorage.works, o) ls).2.
Proof.
  destruct b; [by right | ..];
    destruct o as [| trip | tripId | expense | expenseId];
    try (by left);
    unfold step_localStorage, LocalStorage.Call.saveTrip, LocalStorage.Call.saveExpense,
      LocalStorage.Call.deleteExpense, LocalStorage.Call.write, LocalStorage.Call.read;
    simpl;
    try (destruct (LocalStorage.voyage_trips ls));
    try (destruct (LocalStorage.voyage_expenses ls));
    first [by left | by right].
Qed.

Lemma step_localStorage_invariant (call : LocalStorage.browser * operation)
    (ls : LocalStorage.localStorage) :
  holds_json ls → unique_ids ls →
  holds_json (step_localStorage call ls).2 ∧ unique_ids (step_localStorage call ls).2.
Proof.
  intros Hj Hu. destruct call as [b o].
  destruct (step_localStorage_store b o ls) as [-> | ->]; [done |].
  rewrite step_localStorage_works. destruct o; simpl; try done.
  - split; [by apply holds_json_saveTrip | by apply unique_ids_saveTrip].
  - split; [by apply holds_json_saveExpense | by apply unique_ids_saveExpense].
  - split; [by apply holds_json_deleteExpense | by apply unique_ids_deleteExpense].
Qed.

Lemma run_localStorage_invariant (calls : list (LocalStorage.browser * operation))
    (ls : LocalStorage.localStorage) :
  holds_json ls → unique_ids ls →
  holds_json (run step_localStorage calls ls).2
  ∧ unique_ids (run step_localStorage calls ls).2.
Proof.
  revert ls. induction calls as [| o ops IH]; intros ls Hj Hu; [done |].
  simpl. destruct (step_localStorage o ls) as [r ls'] eqn:Hstep.
  destruct (step_localStorage_invariant o ls Hj Hu) as [Hj' Hu'].
  rewrite Hstep in Hj', Hu'. simpl in *.
  specialize (IH ls' Hj' Hu').
  by destruct (run step_localStorage ops ls') as [rs ls''].
Qed.

(** C10. Starting from the empty store, no sequence of operations, whatever
    the browser does during each, produces two trips or two expenses with the
    same id. In a store that holds JSON
    and has unique ids, each operation keeps the ids unique; saving a record
    whose id is present replaces the record at its index, every other index
    and the other collection being as before; saving a record whose id is
    absent appends it; deleting an expense id that is absent leaves the store
    as it is. The record stored is the saved one as JSON reads it back. *)
Theorem store_keeps_ids_unique (ls : LocalStorage.localStorage) (trip : Trip)
    (expense : Expense) (expenseId : string) :
  holds_json ls → unique_ids ls →
  (∀ calls, unique_ids (run step_localStorage calls LocalStorage.empty).2)
  ∧ unique_ids (LocalStorage.saveTrip trip ls)
  ∧ unique_ids (LocalStorage.saveExpense expense ls)
  ∧ unique_ids (LocalStorage.deleteExpense expenseId ls)
  ∧ (∀ i old,
       LocalStorage.getTrips ls !! i = Some old → Trip.id old = Trip.id trip →
       LocalStorage.getTrips (LocalStorage.saveTrip trip ls)
       = <[i := Trip.json trip]> (LocalStorage.getTrips ls)
       ∧ LocalStorage.getTrips (LocalStorage.saveTrip trip ls) !! i
         = Some (Trip.json trip)
       ∧ (∀ j, j ≠ i →
            LocalStorage.getTrips (LocalStorage.saveTrip trip ls) !! j
            = LocalStorage.getTrips ls !! j)
       ∧ LocalStorage.allExpenses (LocalStorage.saveTrip trip ls)
         = LocalStorage.allExpenses ls)
  ∧ (Trip.id trip ∉ Trip.id <$> LocalStorage.getTrips ls →
     LocalStorage.getTrips (LocalStorage.saveTrip trip ls)
     = LocalStorage.getTrips ls ++ [Trip.json trip])
  ∧ (∀ i old,
       LocalStorage.allExpenses ls !! i = Some old →
       Expense.id old = Expense.id expense →
       LocalStorage.allExpenses (LocalStorage.saveExpense expense ls)
       = <[i := Expense.json expense]> (LocalStorage.allExpenses ls)
       ∧ LocalStorage.allExpenses (LocalStorage.saveExpense expense ls) !! i
         = Some (Expense.json expense)
       ∧ (∀ j, j ≠ i →
            LocalStorage.allExpenses (LocalStorage.saveExpense expense ls) !! j
            = LocalStorage.allExpenses ls !! j)
       ∧ LocalStorage.getTrips (LocalStorage.saveExpense expense ls)
         = LocalStorage.getTrips ls)
  ∧ (Expense.id expense ∉ Expense.id <$> LocalStorage.allExpenses ls →
     LocalStorage.allExpenses (LocalStorage.saveExpense expense ls)
     = LocalStorage.allExpenses ls ++ [Expense.json expense])
  ∧ (expenseId ∉ Expense.id <$> LocalStorage.allExpenses ls →
     LocalStorage.deleteExpense expenseId ls = ls).
Proof.
  intros Hj Hu. split_and!.
  - intros ops.
    apply (run_localStorage_invariant ops LocalStorage.empty);
      [apply holds_json_empty | apply unique_ids_empty].
  - by apply unique_ids_saveTrip.
  - by apply unique_ids_saveExpense.
  - by apply unique_ids_deleteExpense.
  - intros i old Hi Hid. rewrite getTrips_saveTrip by done.
    rewrite (upsert_at_NoDup Trip.id (Trip.json trip) old _ i);
      [| apply Hu | done | done].
    split_and!; [done | | | done].
    + apply list_lookup_insert_eq. by eapply lookup_lt_Some.
    + intros j Hne. by apply list_lookup_insert_ne.
  - intros Hnot. rewrite getTrips_saveTrip by done. by apply upsert_not_in.
  - intros i old Hi Hid. rewrite allExpenses_saveExpense by done.
    rewrite (upsert_at_NoDup Expense.id (Expense.json expense) old _ i);
      [| apply Hu | done | done].
    split_and!; [done | | | done].
    + apply list_lookup_insert_eq. by eapply lookup_lt_Some.
    + intros j Hne. by apply list_lookup_insert_ne.
  - intros Hnot. rewrite allExpenses_saveExpense by done. by apply upsert_not_in.
  - intros Hnot. by apply deleteExpense_absent.
Qed.

(** The theorem above, applied to sample data. *)
Lemma store_keeps_ids_unique_witness :
  unique_ids (LocalStorage.saveExpense Sample.taxi_edited Sample.store)
  ∧ LocalStorage.deleteExpense "e9" Sample.store = Sample.store.
Proof.
  assert (Hj : holds_json Sample.store) by (by_evaluation).
  assert (Hu : unique_ids Sample.store) by (by_evaluation).
  destruct (store_keeps_ids_unique Sample.store Sample.paris Sample.taxi_edited "e9" Hj Hu)
    as (_ & _ & H3 & _ & _ & _ & _ & _ & H9).
  split; [exact H3 |]. apply H9. by_evaluation.
Defined.

(** ** Deleting an expense (C6) *)

(** C6. In a store that holds JSON, after [deleteExpense id] the expenses
    listed for any trip are those listed before whose id is not [id], in the
    same order, and the trips are as before. When ids are unique and an
    expense has that id, exactly that expense is gone. A trip none of whose
    expenses has that id lists the same expenses and has the same total
    spent. *)
Theorem deleteExpense_removes (ls : LocalStorage.localStorage) (expenseId : string) :
  holds_json ls →
  (∀ tripId,
     LocalStorage.getExpenses tripId (LocalStorage.deleteExpense expenseId ls)
     = filter (λ e, Expense.id e ≠ expenseId) (LocalStorage.getExpenses tripId ls))
  ∧ (∀ tripId e,
       e ∈ LocalStorage.getExpenses tripId (LocalStorage.deleteExpense expenseId ls)
       ↔ e ∈ LocalStorage.getExpenses tripId ls ∧ Expense.id e ≠ expenseId)
  ∧ LocalStorage.getTrips (LocalStorage.deleteExpense expenseId ls)
    = LocalStorage.getTrips ls
  ∧ (unique_ids ls →
     ∀ e, e ∈ LocalStorage.allExpenses ls → Expense.id e = expenseId →
          LocalStorage.allExpenses ls
          ≡ₚ e :: LocalStorage.allExpenses (LocalStorage.deleteExpense expenseId ls))
  ∧ (∀ tripId,
       (∀ e, e ∈ LocalStorage.getExpenses tripId ls → Expense.id e ≠ expenseId) →
       LocalStorage.getExpenses tripId (LocalStorage.deleteExpense expenseId ls)
       = LocalStorage.getExpenses tripId ls
       ∧ TripDashboard.totalSpent
           (TripDashboard.refreshExpenses tripId
              (LocalStorage.deleteExpense expenseId ls))
         = TripDashboard.totalSpent (TripDashboard.refreshExpenses tripId ls)).
Proof.
  intros Hj. split_and!.
  - intros tripId. by apply getExpenses_deleteExpense.
  - intros tripId e. rewrite getExpenses_deleteExpense by done.
    rewrite list_elem_of_filter. naive_solver.
  - apply getTrips_deleteExpense.
  - intros [_ Hu] e He Hid. rewrite allExpenses_deleteExpense by done.
    apply NoDup_Permutation.
    + by eapply NoDup_of_keys.
    + apply NoDup_cons. split.
      * rewrite list_elem_of_filter. naive_solver.
      * eapply NoDup_of_keys, NoDup_keys_filter, Hu.
    + intros x. rewrite elem_of_cons, list_elem_of_filter. split.
      * intros Hx. destruct (decide (Expense.id x = expenseId)) as [Hxe | Hxe];
          [| by right].
        left. apply list_elem_of_lookup in Hx as [i Hi].
        apply list_elem_of_lookup in He as [j Hj'].
        assert (i = j) by (eapply (NoDup_keys_lookup Expense.id); eauto; congruence).
        congruence.
      * intros [-> | [_ Hx]]; done.
  - intros tripId Hne. split; [by apply getExpenses_deleteExpense_other |].
    unfold TripDashboard.refreshExpenses.
    by rewrite getExpenses_deleteExpense_other.
Qed.

(** The theorem above, applied to sample data. *)
Lemma deleteExpense_removes_witness :
  LocalStorage.getExpenses "t1" (LocalStorage.deleteExpense "e2" Sample.store)
  = [Sample.lunch]
  ∧ LocalStorage.getExpenses "t2" (LocalStorage.deleteExpense "e2" Sample.store)
    = LocalStorage.getExpenses "t2" Sample.store.
Proof.
  assert (Hj : holds_json Sample.store) by (by_evaluation).
  destruct (deleteExpense_removes Sample.store "e2" Hj) as (H1 & _ & _ & _ & H5).
  split.
  - rewrite H1. by_evaluation.
  - apply H5. by_evaluation_on_list.
Defined.

(** ** The total spent of a trip (C2) *)

Lemma foldl_filter_trip (tripId : string) (l : list Expense) (acc : number) :
  foldl (λ acc curr, js_add acc (Expense.amountBase curr)) acc
    (filter (λ e, Expense.tripId e = tripId) l)
  = foldl (λ acc curr,
             if decide (Expense.tripId curr = tripId)
             then js_add acc (Expense.amountBase curr) else acc) acc l.
Proof.
  revert acc. induction l as [| e l IH]; intros acc; [done |].
  rewrite filter_cons. simpl. destruct (decide (Expense.tripId e = tripId)); simpl; apply IH.
Qed.

(** C2. The dashboard's total for a trip is the sum of [amountBase], taken in
    stored order from 0, over the stored expenses whose [tripId] is the
    trip's id and over no other. In a store that holds JSON, saving an
    expense of another trip (a new one, or in place of one that was not the
    trip's either) and deleting expenses of other trips leave the listed
    expenses of the trip, and so its total, as they were. *)
Theorem totalSpent_of_trip (ls : LocalStorage.localStorage) (tripId : string)
    (expense : Expense) (expenseId : string) :
  holds_json ls →
  TripDashboard.totalSpent (TripDashboard.refreshExpenses tripId ls)
  = foldl (λ acc curr,
             if decide (Expense.tripId curr = tripId)
             then js_add acc (Expense.amountBase curr) else acc)
      (Num 0) (LocalStorage.allExpenses ls)
  ∧ (Expense.tripId expense ≠ tripId →
     (∀ e, e ∈ LocalStorage.allExpenses ls →
           Expense.id e = Expense.id expense → Expense.tripId e ≠ tripId) →
     TripDashboard.refreshExpenses tripId (LocalStorage.saveExpense expense ls)
     = TripDashboard.refreshExpenses tripId ls
     ∧ TripDashboard.totalSpent
         (TripDashboard.refreshExpenses tripId (LocalStorage.saveExpense expense ls))
       = TripDashboard.totalSpent (TripDashboard.refreshExpenses tripId ls))
  ∧ ((∀ e, e ∈ LocalStorage.allExpenses ls →
           Expense.id e = expenseId → Expense.tripId e ≠ tripId) →
     TripDashboard.refreshExpenses tripId (LocalStorage.deleteExpense expenseId ls)
     = TripDashboard.refreshExpenses tripId ls
     ∧ TripDashboard.totalSpent
         (TripDashboard.refreshExpenses tripId
            (LocalStorage.deleteExpense expenseId ls))
       = TripDashboard.totalSpent (TripDashboard.refreshExpenses tripId ls)).
Proof.
  intros Hj. unfold TripDashboard.refreshExpenses. split_and!.
  - unfold TripDashboard.totalSpent, LocalStorage.getExpenses.
    apply foldl_filter_trip.
  - intros Hne Hold.
    assert (Heq : LocalStorage.getExpenses tripId (LocalStorage.saveExpense expense ls)
                  = LocalStorage.getExpenses tripId ls).
    { unfold LocalStorage.getExpenses. rewrite allExpenses_saveExpense by done.
      apply (filter_upsert_other Expense.id); [done |].
      intros e He Hid. apply Hold; [done |]. by rewrite Hid. }
    by rewrite Heq.
  - intros Hold.
    assert (Heq : LocalStorage.getExpenses tripId (LocalStorage.deleteExpense expenseId ls)
                  = LocalStorage.getExpenses tripId ls).
    { apply getExpenses_deleteExpense_other; [done |].
      intros e He Hid. unfold LocalStorage.getExpenses in He.
      apply list_elem_of_filter in He as [Ht He]. by apply (Hold e). }
    by rewrite Heq.
Qed.

(** The theorem above, applied to sample data. *)
Lemma totalSpent_of_trip_witness :
  TripDashboard.totalSpent (TripDashboard.refreshExpenses "t1" Sample.store)
  = Num (dec 160 1)
  ∧ TripDashboard.totalSpent
      (TripDashboard.refreshExpenses "t1"
         (LocalStorage.saveExpense Sample.taxi_edited Sample.store))
    = TripDashboard.totalSpent (TripDashboard.refreshExpenses "t1" Sample.store)
  ∧ TripDashboard.totalSpent
      (TripDashboard.refreshExpenses "t1" (LocalStorage.deleteExpense "e3" Sample.store))
    = TripDashboard.totalSpent (TripDashboard.refreshExpenses "t1" Sample.store).
Proof.
  assert (Hj : holds_json Sample.store) by (by_evaluation).
  destruct (totalSpent_of_trip Sample.store "t1" Sample.taxi_edited "e3" Hj)
    as (H1 & H2 & H3).
  split_and!.
  - rewrite H1. by_evaluation.
  - apply H2; [by_evaluation | by_evaluation_on_list].
  - apply H3. by_evaluation_on_list.
Defined.

(** ** Balance and settlement labels (C3) *)

Lemma balance_eq (trip : Trip) (expenses : list Expense) (a s : Qc) :
  Trip.advanceAmount trip = Num a → TripDashboard.totalSpent expenses = Num s →
  TripDashboard.balance trip expenses = binary64 (a - s).
Proof.
  intros Ha Hs. unfold TripDashboard.balance. rewrite Ha, Hs, js_or_amount. done.
Qed.

(** The dialog that confirms closing the trip tells the three cases apart. *)
Lemma closeConfirmSettlementLabel_sign (language : Language) (b : Qc) :
  ((0 < b)%Qc →
   TripDashboard.closeConfirmSettlementLabel language (Num b) = t language "toReturn")
  ∧ ((b < 0)%Qc →
     TripDashboard.closeConfirmSettlementLabel language (Num b) = t language "toReimburse")
  ∧ (b = 0%Qc →
     TripDashboard.closeConfirmSettlementLabel language (Num b) = t language "balanced").
Proof.
  unfold TripDashboard.closeConfirmSettlementLabel, js_is0, js_gt0. simpl.
  split_and!; intros Hb.
  - rewrite bool_decide_eq_false_2, bool_decide_eq_true_2; [done .. |].
    intros ->. by apply Qclt_not_le in Hb.
  - assert (¬ (0 < b)%Qc) by (by apply Qcle_not_lt, Qclt_le_weak).
    rewrite bool_decide_eq_false_2, bool_decide_eq_false_2; [done .. |].
    intros ->. by apply Qclt_not_le in Hb.
  - by rewrite bool_decide_eq_true_2.
Qed.

(** The printed report has two labels only: a balance of zero is labelled as
    a positive one. *)
Lemma printSettlementLabel_sign (language : Language) (b : Qc) :
  ((0 ≤ b)%Qc →
   TripDashboard.printHeaderSettlementLabel language (Num b) = t language "toReturn"
   ∧ TripDashboard.printTableSettlementLabel language (Num b) = t language "toReturn")
  ∧ ((b < 0)%Qc →
     TripDashboard.printHeaderSettlementLabel language (Num b) = t language "toReimburse"
     ∧ TripDashboard.printTableSettlementLabel language (Num b)
       = t language "toReimburse").
Proof.
  unfold TripDashboard.printHeaderSettlementLabel,
    TripDashboard.printTableSettlementLabel, js_ge0. simpl.
  split; intros Hb.
  - by rewrite bool_decide_eq_true_2.
  - rewrite bool_decide_eq_false_2; [done |]. by apply Qclt_not_le.
Qed.

(** The scenario of the specification: an advance of 1000 and two expenses of
    50 and 110 in base currency. *)
Lemma scenario_of_the_specification :
  TripDashboard.totalSpent [Sample.lunch; Sample.hotel] = Num (dec 160 1)
  ∧ TripDashboard.balance Sample.tokyo [Sample.lunch; Sample.hotel] = Num (dec 840 1)
  ∧ TripDashboard.closeConfirmSettlementLabel en
      (TripDashboard.balance Sample.tokyo [Sample.lunch; Sample.hotel])
    = "To Return to Company".
Proof. by_evaluation. Qed.

(** C3, where the code departs from it. A trip whose advance of 160 is spent
    to the cent has balance 0. The dialog that confirms closing the trip
    labels it as balanced; the head and the settlement row of the printed
    report label it as an amount to return, which is a different text in both
    languages. *)
Theorem zero_balance_is_printed_as_to_return (language : Language) :
  TripDashboard.balance Sample.tokyo_exact [Sample.lunch; Sample.hotel] = Num 0
  ∧ TripDashboard.closeConfirmSettlementLabel language
      (TripDashboard.balance Sample.tokyo_exact [Sample.lunch; Sample.hotel])
    = t language "balanced"
  ∧ TripDashboard.printHeaderSettlementLabel language
      (TripDashboard.balance Sample.tokyo_exact [Sample.lunch; Sample.hotel])
    = t language "toReturn"
  ∧ TripDashboard.printTableSettlementLabel language
      (TripDashboard.balance Sample.tokyo_exact [Sample.lunch; Sample.hotel])
    = t language "toReturn"
  ∧ t language "toReturn" ≠ t language "balanced".
Proof. destruct language; by_evaluation. Qed.

(** ** The rate service (C9) *)

Lemma is503_isOverloaded (error : Error) : is503 error = true → isOverloaded error = true.
Proof.
  unfold is503, isOverloaded. intros H. apply orb_true_iff in H as [H | H].
  - by rewrite H.
  - rewrite H. by rewrite orb_true_r.
Qed.

Section Retry.
Context {T : Type} (operation : nat → Promise T).

(** Attempts that were rejected as overloaded are tried again while retries
    are left. *)
Lemma retryOperation_skip (n retries call : nat) :
  (∀ m, m < n → ∃ e, operation (call + m) = Rejected e ∧ isOverloaded e = true) →
  retryOperation operation (n + retries) call
  = retryOperation operation retries (call + n).
Proof.
  revert call. induction n as [| n IH]; intros call Hfail.
  - by rewrite Nat.add_0_r.
  - destruct (Hfail 0) as (e & He & Ho); [lia |]. rewrite Nat.add_0_r in He.
    simpl. rewrite He, Ho. rewrite IH.
    + f_equal. lia.
    + intros m Hm. destruct (Hfail (S m)) as (e' & He' & Ho'); [lia |].
      exists e'. split; [| done]. rewrite <- He'. f_equal. lia.
Qed.

Lemma retryOperation_resolved (retries call : nat) (v : T) :
  operation call = Resolved v → retryOperation operation retries call = Resolved v.
Proof. intros H. destruct retries; simpl; by rewrite H. Qed.

Lemma retryOperation_exhausted (call : nat) (e : Error) :
  operation call = Rejected e → retryOperation operation 0 call = Rejected e.
Proof. intros H. simpl. by rewrite H. Qed.

(** Whatever the operation resolves to after retries is what one of its
    attempts resolved to. *)
Lemma retryOperation_Resolved_inv (retries call : nat) (v : T) :
  retryOperation operation retries call = Resolved v →
  ∃ n, operation n = Resolved v.
Proof.
  revert call. induction retries as [| retries IH]; intros call; simpl.
  - destruct (operation call) eqn:Hop; [| done]. intros [= ->]. eauto.
  - destruct (operation call) eqn:Hop.
    + intros [= ->]. eauto.
    + destruct (isOverloaded error); [apply IH | done].
Qed.
End Retry.

Lemma getEstimatedExchangeRate_with_key (apiKey : string)
    (generateContent : nat → attempt) (fromCurrency toCurrency date : string) :
  fromCurrency ≠ toCurrency → apiKey ≠ EmptyString →
  getEstimatedExchangeRate apiKey generateContent fromCurrency toCurrency date
  = retryOperation (rate_attempt generateContent) 3 0.
Proof.
  intros Hne Hkey. unfold getEstimatedExchangeRate.
  by rewrite decide_False, decide_False by done.
Qed.

Lemma rate_attempt_503 (generateContent : nat → attempt) (call : nat) (e : Error) :
  generateContent call = Failure e → is503 e = true →
  rate_attempt generateContent call = Rejected e ∧ isOverloaded e = true.
Proof.
  intros He H503. unfold rate_attempt. rewrite He.
  unfold is503 in H503. rewrite H503. split; [done |].
  by apply is503_isOverloaded.
Qed.

Lemma rate_attempt_Rejected_inv (generateContent : nat → attempt) (call : nat) (e : Error) :
  rate_attempt generateContent call = Rejected e →
  generateContent call = Failure e ∧ is503 e = true.
Proof.
  unfold rate_attempt, is503. destruct (generateContent call) as [rate | e']; [done |].
  destruct (_ || _) eqn:H503; [| done]. by intros [= ->].
Qed.

(** The lookup is rejected only when every attempt it made was answered by
    a 503. *)
Lemma retry_rate_Rejected_inv (generateContent : nat → attempt)
    (retries call : nat) (e : Error) :
  retryOperation (rate_attempt generateContent) retries call = Rejected e →
  ∀ m : nat, (m ≤ retries)%nat →
    ∃ e', generateContent (call + m) = Failure e' ∧ is503 e' = true.
Proof.
  revert call. induction retries as [| retries IH]; intros call Hrej m Hm; simpl in Hrej.
  - assert (m = 0) as -> by lia. rewrite Nat.add_0_r.
    destruct (rate_attempt generateContent call) eqn:Hop; [done |].
    injection Hrej as ->. apply rate_attempt_Rejected_inv in Hop. eauto.
  - destruct (rate_attempt generateContent call) eqn:Hop; [done |].
    apply rate_attempt_Rejected_inv in Hop as [Hgc H503].
    rewrite (is503_isOverloaded _ H503) in Hrej.
    destruct m as [| m].
    + rewrite Nat.add_0_r. eauto.
    + replace (call + S m) with (S call + m) by lia. apply (IH _ Hrej). lia.
Qed.

(** What the lookup does when the model keeps answering 503: after the first
    attempt and three more, the promise is rejected with the last error. *)
Lemma rate_lookup_overload_exhausted (apiKey : string)
    (generateContent : nat → attempt) (fromCurrency toCurrency date : string) (e : Error) :
  fromCurrency ≠ toCurrency → apiKey ≠ EmptyString →
  (∀ m : nat, (m < 3)%nat → ∃ e', generateContent m = Failure e' ∧ is503 e' = true) →
  generateContent 3 = Failure e → is503 e = true →
  getEstimatedExchangeRate apiKey generateContent fromCurrency toCurrency date
  = Rejected e.
Proof.
  intros Hne Hkey Hfail He H503.
  rewrite getEstimatedExchangeRate_with_key by done.
  change 3 with (3 + 0) at 1.
  rewrite (retryOperation_skip (rate_attempt generateContent) 3 0 0).
  - apply retryOperation_exhausted. by apply rate_attempt_503.
  - intros m Hm. destruct (Hfail m Hm) as (e' & He' & H503').
    exists e'. by apply rate_attempt_503.
Qed.

(** C9, as the specification states it, fails. A negative rate answered by
    the remote model is returned as it is. With a key configured and a remote
    model that keeps answering 503, the four attempts are used up and the
    promise is rejected with the error of the model: no rate is returned. *)
Lemma rate_lookup_not_always_positive :
  getEstimatedExchangeRate "key" (λ _, Answer (Some (Num (dec (-150) 1))))
    "USD" "JPY" "2024-01-01"
  = Resolved (Num (dec (-150) 1))
  ∧ ¬ is_positive (Num (dec (-150) 1))
  ∧ getEstimatedExchangeRate "key" (λ _, Failure Sample.overloaded)
      "USD" "JPY" "2024-01-01"
    = Rejected Sample.overloaded.
Proof. by_evaluation. Qed.

(** C9, amended. [getEstimatedExchangeRate] resolves to 1 for a currency and
    itself, and without a key to the positive value of its static table, 1.0
    for a pair that is not in it. With a key, attempts answered by a 503 are
    repeated up to three times; the first attempt that ends otherwise decides
    the result: the rate the model answered, or 1.0 when that rate is absent,
    0, NaN or null, and 1.0 when the attempt failed with any other error. The
    call resolves unless all four attempts are answered by a 503. A resolved
    rate is positive whenever every rate the model answers is. *)
Theorem rate_lookup (apiKey : string) (generateContent : nat → attempt)
    (fromCurrency toCurrency date : string) :
  (fromCurrency = toCurrency →
   getEstimatedExchangeRate apiKey generateContent fromCurrency toCurrency date
   = Resolved (Num 1))
  ∧ (apiKey = EmptyString →
     ∃ q, getEstimatedExchangeRate apiKey generateContent fromCurrency toCurrency date
          = Resolved (Num q) ∧ (0 < q)%Qc)
  ∧ (fromCurrency ≠ toCurrency → apiKey = EmptyString →
     getEstimatedExchangeRate apiKey generateContent fromCurrency toCurrency date
     = Resolved (Num (static_rate (fromCurrency +:+ "-" +:+ toCurrency))))
  ∧ (fromCurrency ≠ toCurrency → apiKey ≠ EmptyString →
     ∀ n : nat, (n ≤ 3)%nat →
       (∀ m : nat, (m < n)%nat → ∃ e, generateContent m = Failure e ∧ is503 e = true) →
       (∀ rate, generateContent n = Answer rate →
          getEstimatedExchangeRate apiKey generateContent fromCurrency toCurrency date
          = Resolved (match rate with Some r => js_or r (Num 1) | None => Num 1 end))
       ∧ (∀ e, generateContent n = Failure e → is503 e = false →
            getEstimatedExchangeRate apiKey generateContent fromCurrency toCurrency date
            = Resolved (Num 1)))
  ∧ (∀ e,
       getEstimatedExchangeRate apiKey generateContent fromCurrency toCurrency date
       = Rejected e →
       ∀ n : nat, (n ≤ 3)%nat →
         ∃ e', generateContent n = Failure e' ∧ is503 e' = true)
  ∧ (∀ v,
       getEstimatedExchangeRate apiKey generateContent fromCurrency toCurrency date
       = Resolved v →
       (∀ n r, generateContent n = Answer (Some r) → is_positive r) →
       is_positive v).
Proof.
  split_and!.
  - intros ->. unfold getEstimatedExchangeRate. by rewrite decide_True.
  - intros ->. unfold getEstimatedExchangeRate.
    rewrite (decide_True (P := EmptyString = EmptyString)) by done.
    repeat case_decide;
      (eexists; split; [reflexivity | by_evaluation]).
  - intros Hne ->. unfold getEstimatedExchangeRate. rewrite decide_False by done.
    rewrite (decide_True (P := EmptyString = EmptyString)) by done.
    unfold static_rate, static_rates. simpl.
    repeat (case_decide; try congruence); done.
  - intros Hne Hkey n Hn Hfail.
    rewrite getEstimatedExchangeRate_with_key by done.
    assert (Hskip : retryOperation (rate_attempt generateContent) 3 0
                    = retryOperation (rate_attempt generateContent) (3 - n) n).
    { replace 3 with (n + (3 - n)) at 1 by lia.
      rewrite (retryOperation_skip (rate_attempt generateContent) n (3 - n) 0); [done |].
      intros m Hm. destruct (Hfail m Hm) as (e & He & H503).
      exists e. by apply rate_attempt_503. }
    rewrite Hskip. split.
    + intros rate Hrate. apply retryOperation_resolved.
      unfold rate_attempt. by rewrite Hrate.
    + intros e He H503. apply retryOperation_resolved.
      unfold rate_attempt. rewrite He. unfold is503 in H503. by rewrite H503.
  - intros e Hrej n Hn.
    destruct (decide (fromCurrency = toCurrency)) as [Heq | Hne].
    { unfold getEstimatedExchangeRate in Hrej. by rewrite decide_True in Hrej. }
    destruct (decide (apiKey = EmptyString)) as [Hkey | Hkey].
    { unfold getEstimatedExchangeRate in Hrej.
      rewrite decide_False, decide_True in Hrej by done.
      repeat case_decide; done. }
    rewrite getEstimatedExchangeRate_with_key in Hrej by done.
    apply (retry_rate_Rejected_inv generateContent 3 0 e Hrej n Hn).
  - intros v Hv Hpos. unfold getEstimatedExchangeRate in Hv.
    case_decide; [by simplify_eq |].
    case_decide.
    + repeat case_decide; simplify_eq; by_evaluation.
    + apply retryOperation_Resolved_inv in Hv as [n Hn].
      destruct (generateContent n) as [[r |] | e] eqn:Hgc.
      * injection Hn as <-. unfold js_or. destruct (truthy r) eqn:Htr.
        -- by eapply Hpos.
        -- by_evaluation.
      * injection Hn as <-. by_evaluation.
      * destruct (_ || _); [done |]. injection Hn as <-. by_evaluation.
Qed.

(** The static table. *)
Lemma rate_lookup_static_table :
  getEstimatedExchangeRate EmptyString (λ _, Answer None) "USD" "BRL" "2024-01-01"
  = Resolved (Num (dec 5 1))
  ∧ getEstimatedExchangeRate EmptyString (λ _, Answer None) "BRL" "USD" "2024-01-01"
    = Resolved (Num (dec 2 10))
  ∧ getEstimatedExchangeRate EmptyString (λ _, Answer None) "EUR" "BRL" "2024-01-01"
    = Resolved (Num (dec 55 10))
  ∧ getEstimatedExchangeRate EmptyString (λ _, Answer None) "BRL" "EUR" "2024-01-01"
    = Resolved (Num (dec 18 100))
  ∧ getEstimatedExchangeRate EmptyString (λ _, Answer None) "USD" "EUR" "2024-01-01"
    = Resolved (Num (dec 92 100))
  ∧ getEstimatedExchangeRate EmptyString (λ _, Answer None) "EUR" "USD" "2024-01-01"
    = Resolved (Num (dec 109 100))
  ∧ getEstimatedExchangeRate EmptyString (λ _, Answer None) "USD" "JPY" "2024-01-01"
    = Resolved (Num 1).
Proof. by_evaluation. Qed.

(** ** Rates entered by hand (C7) *)

(** In the trip wizard a rate entered by hand survives every later change of
    the start date: the effect returns before it fetches. The rate input is
    on screen only while the two currencies differ. *)
Lemma wizard_manual_rate_survives_dates (apiKey : string)
    (generateContent : nat → attempt) (today : string)
    (rate : number) (dates : list string) (st : TripWizard.State) :
  TripWizard.rateInputShown st →
  TripWizard.exchangeRate
    (foldl (λ s d, TripWizard.onStartDateChange apiKey generateContent today d s)
       (TripWizard.handleRateChange rate st) dates) = rate
  ∧ TripWizard.initialExchangeRate
      (TripWizard.formData
         (foldl (λ s d, TripWizard.onStartDateChange apiKey generateContent today d s)
            (TripWizard.handleRateChange rate st) dates)) = rate
  ∧ TripWizard.isManualRate
      (foldl (λ s d, TripWizard.onStartDateChange apiKey generateContent today d s)
         (TripWizard.handleRateChange rate st) dates) = true.
Proof.
  intros Hshown.
  assert (Hinv : ∀ s,
    TripWizard.rateInputShown s → TripWizard.isManualRate s = true →
    TripWizard.exchangeRate s = rate →
    TripWizard.initialExchangeRate (TripWizard.formData s) = rate →
    let s' := foldl (λ s d, TripWizard.onStartDateChange apiKey generateContent today d s)
                s dates in
    TripWizard.exchangeRate s' = rate
    ∧ TripWizard.initialExchangeRate (TripWizard.formData s') = rate
    ∧ TripWizard.isManualRate s' = true).
  { induction dates as [| d dates IH]; intros s Hs Hm Hr Hi; [done |].
    simpl. apply IH; clear IH;
      destruct s as [[i tn n dc l b aa ie sd stt] er m];
      destruct Hs as [Hl Hbl]; simpl in *; subst;
      unfold TripWizard.onStartDateChange, TripWizard.fetchRate; simpl;
      case_decide; simpl; rewrite ?decide_False by done; done. }
  apply Hinv; [| done ..].
  by destruct st as [[] ? ?].
Qed.

(** In the wizard's manual state a change of base currency fetches nothing
    either; it sets the rate to 1 when it makes the two currencies equal and
    leaves the rate as entered otherwise. *)
Lemma wizard_manual_rate_and_currency (apiKey : string)
    (generateContent : nat → attempt) (today : string)
    (rate : number) (value : Currency) (st : TripWizard.State) :
  TripWizard.rateInputShown st →
  TripWizard.exchangeRate
    (TripWizard.onBaseCurrencyChange apiKey generateContent today value
       (TripWizard.handleRateChange rate st))
  = if decide (Currency_value value
               = TripWizard.localCurrencySuggestion (TripWizard.formData st))
    then Num 1 else rate.
Proof.
  intros [Hl Hbl]. destruct st as [[i tn n dc l b aa ie sd stt] er m]; simpl in *.
  unfold TripWizard.onBaseCurrencyChange, TripWizard.fetchRate; simpl.
  destruct (decide (Currency_value value = Currency_value b)) as [Heq | Hne]; simpl.
  - rewrite decide_False; [done | congruence].
  - rewrite (decide_False (P := l = EmptyString)) by done.
    by case_decide.
Qed.

(** The expense form keeps no record of how its rate was set: a change of
    date replaces the rate by what the service resolves to, or by 1 when the
    currency is the base currency. *)
Lemma expense_form_date_change_sets_rate (apiKey : string)
    (generateContent : nat → attempt) (trip : Trip) (value : string)
    (formData : ExpenseForm.FormData) :
  (ExpenseForm.currencyOriginal formData = Currency_value (Trip.baseCurrency trip) →
   ExpenseForm.exchangeRate
     (ExpenseForm.onDateChange apiKey generateContent trip value formData) = Num 1)
  ∧ (∀ rate,
       ExpenseForm.currencyOriginal formData ≠ Currency_value (Trip.baseCurrency trip) →
       getEstimatedExchangeRate apiKey generateContent
         (ExpenseForm.currencyOriginal formData)
         (Currency_value (Trip.baseCurrency trip)) value = Resolved rate →
       ExpenseForm.exchangeRate
         (ExpenseForm.onDateChange apiKey generateContent trip value formData) = rate)
  ∧ ExpenseForm.currencyOriginal
      (ExpenseForm.onDateChange apiKey generateContent trip value formData)
    = ExpenseForm.currencyOriginal formData.
Proof.
  unfold ExpenseForm.onDateChange, ExpenseForm.updateRate. split_and!.
  - intros Heq. by rewrite decide_True.
  - intros rate Hne Hrate. rewrite decide_False by done. by rewrite Hrate.
  - case_decide; [done |]. by destruct (getEstimatedExchangeRate _ _ _ _ _).
Qed.

(** C7, where the code departs from it. In the expense form of a trip in
    dollars, for an expense in euros, the user enters the rate 1.5 and then
    changes the date, the currency staying as it is: the form then holds the
    rate the service resolved to (1.09, the static rate, no key being
    configured), not the rate that was entered. The same two steps in the
    trip wizard keep the rate that was entered. *)
Theorem expense_form_date_change_replaces_manual_rate :
  ExpenseForm.exchangeRate
    (ExpenseForm.onRateChange (Num (dec 3 2)) Sample.form_euro) = Num (dec 3 2)
  ∧ ExpenseForm.currencyOriginal
      (ExpenseForm.onDateChange EmptyString (λ _, Answer None) Sample.tokyo "2024-01-03"
         (ExpenseForm.onRateChange (Num (dec 3 2)) Sample.form_euro))
    = ExpenseForm.currencyOriginal Sample.form_euro
  ∧ ExpenseForm.exchangeRate
      (ExpenseForm.onDateChange EmptyString (λ _, Answer None) Sample.tokyo "2024-01-03"
         (ExpenseForm.onRateChange (Num (dec 3 2)) Sample.form_euro))
    = Num (dec 109 100)
  ∧ TripWizard.exchangeRate
      (TripWizard.onStartDateChange EmptyString (λ _, Answer None) "2024-01-01"
         "2024-01-03"
         (TripWizard.handleRateChange (Num (dec 3 2))
            (TripWizard.handleCountryBlur EmptyString (λ _, Answer None) "2024-01-01"
               "EUR"
               (TripWizard.onDestinationChange "France" (TripWizard.initial "t3")))))
    = Num (dec 3 2).
Proof. by_evaluation. Qed.

(** ** Object stores of IndexedDB *)

Lemma byte_lt_irrefl (a : string) : String_as_OT.lt a a → False.
Proof. apply (irreflexivity String_as_OT.lt). Qed.

Lemma byte_lt_asym (a b : string) : String_as_OT.lt a b → String_as_OT.lt b a → False.
Proof. intros Hab Hba. apply (byte_lt_irrefl a). by etrans. Qed.

(** The order of strings by their bytes is an order of keys. *)
#[global] Instance byte_order : KeyOrder String_as_OT.compare.
Proof.
  split.
  - intros a b. destruct (String_as_OT.compare_spec a b) as [Heq | Hlt | Hgt].
    + done.
    + split; [done |]. intros ->. by apply byte_lt_irrefl in Hlt.
    + split; [done |]. intros ->. by apply byte_lt_irrefl in Hgt.
  - intros a b.
    destruct (String_as_OT.compare_spec a b) as [Heq | Hlt | Hgt],
      (String_as_OT.compare_spec b a) as [Heq' | Hlt' | Hgt']; simpl; try done;
      exfalso; unfold String_as_OT.eq in *; subst;
      eauto using byte_lt_irrefl, byte_lt_asym.
  - intros a b c Hab Hbc.
    destruct (String_as_OT.compare_spec a b) as [| Hlt |]; try done.
    destruct (String_as_OT.compare_spec b c) as [| Hlt' |]; try done.
    assert (String_as_OT.lt a c) as Hac by (by etrans).
    destruct (String_as_OT.compare_spec a c) as [Heq | | Hgt]; [| done |];
      exfalso; unfold String_as_OT.eq in *; subst;
      eauto using byte_lt_irrefl, byte_lt_asym.
Qed.

Section ObjectStoreFacts.
Context {A : Type} (key : A → string).
Context (compare : string → string → comparison) `{!KeyOrder compare}.
Set Default Proof Using "Type*".

Lemma key_compare_refl (a : string) : compare a a = Eq.
Proof. by apply compare_eq. Qed.

Lemma key_lt_ne (a b : string) : compare a b = Lt → a ≠ b.
Proof. intros Hlt ->. by rewrite key_compare_refl in Hlt. Qed.

Lemma key_gt_lt (a b : string) : compare a b = Gt → compare b a = Lt.
Proof. intros Hgt. by rewrite compare_antisym, Hgt. Qed.

Lemma key_sorted_cons (r : A) (store : list A) :
  key_sorted compare key (r :: store)
  ↔ Forall (λ y, compare (key r) (key y) = Lt) store ∧ key_sorted compare key store.
Proof. apply StronglySorted_cons. Qed.

Lemma elem_of_put (x z : A) (store : list A) :
  key_sorted compare key store →
  z ∈ IndexedDB.put key compare x store ↔ z = x ∨ (z ∈ store ∧ key z ≠ key x).
Proof.
  induction store as [| r rest IH]; intros Hs.
  - simpl. set_solver.
  - apply key_sorted_cons in Hs as [Hr Hs]. rewrite Forall_forall in Hr. simpl.
    destruct (compare (key x) (key r)) eqn:Hc.
    + apply (proj1 (compare_eq _ _)) in Hc. rewrite !elem_of_cons. split.
      * intros [-> | Hz]; [by left |]. right. split; [by right |].
        rewrite Hc. apply not_eq_sym, key_lt_ne. by apply Hr.
      * intros [-> | [[-> | Hz] Hne]]; [by left | congruence | by right].
    + rewrite !elem_of_cons. split.
      * intros [-> | [-> | Hz]].
        -- by left.
        -- right. split; [by left |]. by apply not_eq_sym, key_lt_ne.
        -- right. split; [by right |]. apply not_eq_sym, key_lt_ne.
           eapply compare_trans; [done |]. by apply Hr.
      * naive_solver.
    + apply key_gt_lt in Hc. rewrite elem_of_cons, IH by done.
      rewrite elem_of_cons. split.
      * intros [-> | [-> | [Hz Hne]]]; [| by left | by right; split; [right |]].
        right. split; [by left |]. by apply key_lt_ne.
      * naive_solver.
Qed.

Lemma key_sorted_put (x : A) (store : list A) :
  key_sorted compare key store → key_sorted compare key (IndexedDB.put key compare x store).
Proof.
  induction store as [| r rest IH]; intros Hs.
  - simpl. apply key_sorted_cons. split; constructor.
  - pose proof Hs as Hs'.
    apply key_sorted_cons in Hs as [Hr Hs]. simpl.
    destruct (compare (key x) (key r)) eqn:Hc.
    + apply (proj1 (compare_eq _ _)) in Hc. apply key_sorted_cons. by rewrite Hc.
    + apply key_sorted_cons. split; [| done].
      constructor; [done |]. eapply Forall_impl; [done |].
      intros y Hy. simpl in *. by eapply compare_trans.
    + apply key_gt_lt in Hc. apply key_sorted_cons. split; [| by apply IH].
      apply Forall_forall. intros z Hz.
      apply elem_of_put in Hz; [| done].
      destruct Hz as [-> | [Hz _]]; [done |].
      rewrite Forall_forall in Hr. by apply Hr.
Qed.

Lemma key_sorted_NoDup (store : list A) :
  key_sorted compare key store → NoDup (key <$> store).
Proof.
  induction store as [| r rest IH]; intros Hs; [constructor |].
  apply key_sorted_cons in Hs as [Hr Hs]. rewrite fmap_cons.
  apply NoDup_cons. split; [| by apply IH].
  intros Hin. apply list_elem_of_fmap in Hin as (y & Hy & Hin).
  rewrite Forall_forall in Hr. by apply (key_lt_ne _ _ (Hr y Hin)).
Qed.

Lemma key_sorted_filter (P : A → Prop) `{!∀ a, Decision (P a)} (store : list A) :
  key_sorted compare key store → key_sorted compare key (filter P store).
Proof.
  induction store as [| r rest IH]; intros Hs; [done |].
  apply key_sorted_cons in Hs as [Hr Hs]. rewrite filter_cons.
  case_decide; [| by apply IH].
  apply key_sorted_cons. split; [| by apply IH]. by apply Forall_filter_2.
Qed.

(** Replace-or-push on an array and [put] on an object store holding the same
    records leave the same records. *)
Lemma upsert_put_Permutation (x : A) (l store : list A) :
  key_sorted compare key store → l ≡ₚ store →
  upsert key x l ≡ₚ IndexedDB.put key compare x store.
Proof.
  intros Hs Hperm.
  assert (Hnd : NoDup (key <$> l)).
  { rewrite Hperm. by apply key_sorted_NoDup. }
  apply NoDup_Permutation.
  - by eapply NoDup_of_keys, NoDup_keys_upsert.
  - eapply NoDup_of_keys, key_sorted_NoDup, key_sorted_put, Hs.
  - intros z. rewrite elem_of_upsert, elem_of_put by done. by rewrite Hperm.
Qed.

Lemma fmap_put (f : A → A) (x : A) (store : list A) :
  (∀ y, key (f y) = key y) →
  f <$> IndexedDB.put key compare x store = IndexedDB.put key compare (f x) (f <$> store).
Proof.
  intros Hf. induction store as [| r rest IH]; [done |].
  rewrite fmap_cons. cbn [IndexedDB.put]. rewrite !Hf.
  destruct (compare (key x) (key r)); rewrite ?fmap_cons, ?IH; done.
Qed.

Lemma key_sorted_fmap (f : A → A) (store : list A) :
  (∀ y, key (f y) = key y) →
  key_sorted compare key store → key_sorted compare key (f <$> store).
Proof.
  intros Hf. induction store as [| r rest IH]; intros Hs; [constructor |].
  apply key_sorted_cons in Hs as [Hr Hs]. rewrite fmap_cons.
  apply key_sorted_cons. split; [| by apply IH].
  apply Forall_fmap. eapply Forall_impl; [done |].
  intros y Hy. simpl. by rewrite !Hf.
Qed.
End ObjectStoreFacts.
Set Default Proof Using "Type".

(** ** Runs *)

Lemma run_snoc {S C : Type} (step : C → S → outcome * S) (calls : list C) (c : C) (s : S) :
  run step (calls ++ [c]) s
  = ((run step calls s).1 ++ [(step c (run step calls s).2).1],
     (step c (run step calls s).2).2).
Proof.
  revert s. induction calls as [| c' calls IH]; intros s; simpl.
  - by destruct (step c s).
  - destruct (step c' s) as [r s']. rewrite IH.
    by destruct (run step calls s').
Qed.

Lemma length_run {S C : Type} (step : C → S → outcome * S) (calls : list C) (s : S) :
  length (run step calls s).1 = length calls.
Proof.
  revert s. induction calls as [| c calls IH]; intros s; simpl; [done |].
  destruct (step c s) as [r s']. specialize (IH s').
  destruct (run step calls s'). simpl in *. by rewrite IH.
Qed.

(** The outcome of the call at a place of a run is the outcome of that call
    on the store the calls before it left. *)
Lemma run_lookup {S C : Type} (step : C → S → outcome * S) (calls : list C) (s : S)
    (i : nat) (c : C) :
  calls !! i = Some c →
  (run step calls s).1 !! i = Some (step c (run step (take i calls) s).2).1.
Proof.
  revert s i. induction calls as [| c' calls IH]; intros s i Hi; [done |].
  destruct i as [| i]; simpl in *.
  - injection Hi as ->. destruct (step c s) as [r s']. by destruct (run step calls s').
  - destruct (step c' s) as [r s']. specialize (IH s' i Hi).
    destruct (run step calls s') as [rs s'']. simpl in *. rewrite IH.
    by destruct (run step (take i calls) s').
Qed.

Lemma stored_localStorage_snoc (ops : list operation) (o : operation) :
  stored_localStorage (ops ++ [o])
  = (step_localStorage (LocalStorage.works, o) (stored_localStorage ops)).2.
Proof.
  unfold stored_localStorage. rewrite fmap_app.
  change (pair LocalStorage.works <$> [o]) with [(LocalStorage.works, o)].
  by rewrite run_snoc.
Qed.

Lemma stored_IndexedDB_snoc (compare : string → string → comparison)
    (ops : list operation) (o : operation) :
  stored_IndexedDB compare (ops ++ [o])
  = (step_IndexedDB compare (IndexedDB.completes, o) (stored_IndexedDB compare ops)).2.
Proof.
  unfold stored_IndexedDB. rewrite fmap_app.
  change (pair IndexedDB.completes <$> [o]) with [(IndexedDB.completes, o)].
  by rewrite run_snoc.
Qed.

(** ** The two services side by side (C4) *)

Section SideBySide.
Context (compare : string → string → comparison) `{!KeyOrder compare}.
Set Default Proof Using "Type*".

Lemma same_records_empty : same_records compare LocalStorage.empty IndexedDB.empty.
Proof.
  split_and!; [apply holds_json_empty | constructor | constructor | done | done].
Qed.

Lemma same_records_step (o : operation) (ls : LocalStorage.localStorage)
    (db : IndexedDB.IDBDatabase) :
  same_records compare ls db →
  same_records compare (step_localStorage (LocalStorage.works, o) ls).2
    (step_IndexedDB compare (IndexedDB.completes, o) db).2.
Proof.
  intros (Hj & Hst & Hse & Ht & He). rewrite step_localStorage_works.
  destruct o as [| trip | tripId | expense | expenseId]; simpl.
  - by split_and!.
  - split_and!; simpl; try done.
    + by apply holds_json_saveTrip.
    + by apply key_sorted_put.
    + rewrite getTrips_saveTrip by done.
      rewrite (fmap_put Trip.id compare Trip.json) by done.
      apply upsert_put_Permutation; [done | | done].
      by apply key_sorted_fmap.
  - by split_and!.
  - split_and!; simpl; try done.
    + by apply holds_json_saveExpense.
    + by apply key_sorted_put.
    + rewrite allExpenses_saveExpense by done.
      rewrite (fmap_put Expense.id compare Expense.json) by done.
      apply upsert_put_Permutation; [done | | done].
      by apply key_sorted_fmap.
  - split_and!; simpl.
    + by apply holds_json_deleteExpense.
    + done.
    + by apply key_sorted_filter.
    + by rewrite getTrips_deleteExpense.
    + rewrite allExpenses_deleteExpense by done. unfold IndexedDB.delete.
      rewrite He. by rewrite fmap_filter_comm.
Qed.

Lemma same_records_stored (ops : list operation) :
  same_records compare (stored_localStorage ops) (stored_IndexedDB compare ops).
Proof.
  induction ops as [| o ops IH] using rev_ind; [apply same_records_empty |].
  rewrite stored_localStorage_snoc, stored_IndexedDB_snoc.
  by apply same_records_step.
Qed.

End SideBySide.
Set Default Proof Using "Type".

(** The array of a localStorage item holds its records in the order of
    insertion. *)
Lemma fmap_filter_key {A : Type} (key : A → string) (k : string) (l : list A) :
  key <$> filter (λ y, key y ≠ k) l = filter (λ id, id ≠ k) (key <$> l).
Proof.
  induction l as [| y l IH]; [done |].
  rewrite fmap_cons, !filter_cons. case_decide; [| done].
  by rewrite fmap_cons, IH.
Qed.

Lemma holds_json_stored (ops : list operation) : holds_json (stored_localStorage ops).
Proof.
  unfold stored_localStorage.
  apply run_localStorage_invariant; [apply holds_json_empty | apply unique_ids_empty].
Qed.

Lemma stored_in_order_of_insertion (ops : list operation) :
  Trip.id <$> LocalStorage.getTrips (stored_localStorage ops) = trips_inserted ops
  ∧ Expense.id <$> LocalStorage.allExpenses (stored_localStorage ops)
    = expenses_inserted ops.
Proof.
  induction ops as [| o ops [IHt IHe]] using rev_ind; [done |].
  pose proof (holds_json_stored ops) as Hj.
  rewrite stored_localStorage_snoc, step_localStorage_works.
  unfold trips_inserted, expenses_inserted. rewrite !foldl_app. cbn [foldl].
  fold (trips_inserted ops) (expenses_inserted ops). rewrite <- IHt, <- IHe.
  destruct o as [| trip | tripId | expense | expenseId]; cbn [snd].
  - done.
  - rewrite getTrips_saveTrip, allExpenses_saveTrip by done.
    by rewrite keys_upsert.
  - done.
  - rewrite getTrips_saveExpense, allExpenses_saveExpense by done.
    by rewrite keys_upsert.
  - rewrite getTrips_deleteExpense, allExpenses_deleteExpense by done.
    by rewrite fmap_filter_key.
Qed.

(** C4, as the specification states it, fails. Two trips are saved and then
    listed. The localStorage service returns nothing from a save and lists
    the trips in the order they were saved in; the IndexedDB service returns
    the id from a save and lists the trips in the order of their ids. Nor do
    the two fail under the same conditions: each fails when its own store
    does. With the quota of localStorage exceeded and IndexedDB working, the
    save throws in the one and resolves in the other; with IndexedDB failing
    to open and localStorage working, it is the reverse; and a transaction
    aborted at commit leaves the promise of the IndexedDB service unsettled,
    which no call of the localStorage service does. *)
Lemma services_differ_in_outcomes :
  (run step_localStorage
     (pair LocalStorage.works
        <$> [upsertTrip Sample.paris; upsertTrip Sample.tokyo; listTrips])
     LocalStorage.empty).1
  = [Undefined; Undefined; Trips [Sample.paris; Sample.tokyo]]
  ∧ (run (step_IndexedDB String_as_OT.compare)
       (pair IndexedDB.completes
          <$> [upsertTrip Sample.paris; upsertTrip Sample.tokyo; listTrips])
       IndexedDB.empty).1
    = [Key "t2"; Key "t1"; Trips [Sample.tokyo; Sample.paris]]
  ∧ (run step_localStorage
       (pair LocalStorage.works
          <$> [upsertTrip Sample.paris; upsertTrip Sample.tokyo; listTrips])
       LocalStorage.empty).1
    ≠ (run (step_IndexedDB String_as_OT.compare)
         (pair IndexedDB.completes
            <$> [upsertTrip Sample.paris; upsertTrip Sample.tokyo; listTrips])
         IndexedDB.empty).1
  ∧ (run step_localStorage
       [(LocalStorage.setItem_throws Sample.quota_exceeded, upsertTrip Sample.paris);
        (LocalStorage.works, listTrips)]
       LocalStorage.empty).1
    = [Failed Sample.quota_exceeded; Trips []]
  ∧ (run (step_IndexedDB String_as_OT.compare)
       [(IndexedDB.completes, upsertTrip Sample.paris); (IndexedDB.completes, listTrips)]
       IndexedDB.empty).1
    = [Key "t2"; Trips [Sample.paris]]
  ∧ (run step_localStorage
       [(LocalStorage.works, upsertTrip Sample.paris); (LocalStorage.works, listTrips)]
       LocalStorage.empty).1
    = [Undefined; Trips [Sample.paris]]
  ∧ (run (step_IndexedDB String_as_OT.compare)
       [(IndexedDB.open_fails Sample.open_failed, upsertTrip Sample.paris);
        (IndexedDB.completes, listTrips)]
       IndexedDB.empty).1
    = [Failed Sample.open_failed; Trips []]
  ∧ (run (step_IndexedDB String_as_OT.compare)
       [(IndexedDB.aborts, upsertTrip Sample.paris); (IndexedDB.completes, listTrips)]
       IndexedDB.empty).1
    = [Pending; Trips []].
Proof. by_evaluation. Qed.

Lemma step_localStorage_failed (b : LocalStorage.browser) (o : operation)
    (ls : LocalStorage.localStorage) (error : Error) :
  (step_localStorage (b, o) ls).1 = Failed error →
  thrown b = Some error ∧ (step_localStorage (b, o) ls).2 = ls.
Proof.
  destruct b, o;
    unfold step_localStorage, LocalStorage.Call.getTrips, LocalStorage.Call.getExpenses,
      LocalStorage.Call.saveTrip, LocalStorage.Call.saveExpense,
      LocalStorage.Call.deleteExpense, LocalStorage.Call.write, LocalStorage.Call.read;
    simpl;
    try (destruct (LocalStorage.voyage_trips ls));
    try (destruct (LocalStorage.voyage_expenses ls));
    simpl; intros [= <-] || done; done.
Qed.

Lemma step_localStorage_settles (b : LocalStorage.browser) (o : operation)
    (ls : LocalStorage.localStorage) :
  (step_localStorage (b, o) ls).1 ≠ Pending.
Proof.
  destruct b, o;
    unfold step_localStorage, LocalStorage.Call.getTrips, LocalStorage.Call.getExpenses,
      LocalStorage.Call.saveTrip, LocalStorage.Call.saveExpense,
      LocalStorage.Call.deleteExpense, LocalStorage.Call.write, LocalStorage.Call.read;
    simpl;
    try (destruct (LocalStorage.voyage_trips ls));
    try (destruct (LocalStorage.voyage_expenses ls));
    done.
Qed.

Lemma step_localStorage_getItem_throws (error : Error) (o : operation)
    (ls : LocalStorage.localStorage) :
  step_localStorage (LocalStorage.getItem_throws error, o) ls = (Failed error, ls).
Proof.
  destruct o; try reflexivity.
  unfold step_localStorage, LocalStorage.Call.deleteExpense. simpl.
  by destruct (LocalStorage.voyage_expenses ls).
Qed.

(** What [performTransaction] does with a transaction that is aborted at
    commit: the database is as it was and the promise is never settled;
    [getExpenses], which resolves when its request succeeds, has resolved by
    then. *)
Lemma aborted_transaction_is_not_settled (compare : string → string → comparison)
    (o : operation) (db : IndexedDB.IDBDatabase) :
  (step_IndexedDB compare (IndexedDB.aborts, o) db).2 = db
  ∧ (step_IndexedDB compare (IndexedDB.aborts, o) db).1
    = match o with
      | listExpenses _ => (step_IndexedDB compare (IndexedDB.completes, o) db).1
      | _ => Pending
      end.
Proof. by destruct o. Qed.

(** C4, amended. Each service fails when its own store does, and only then:
    an operation of the localStorage service throws the exception that
    [getItem], [JSON.parse] or [setItem] throws, [getItem] failing every
    operation and [setItem] every upsert; an operation of the IndexedDB
    service is rejected with the error with which the database fails to open,
    a call throws or the request fails, and with no other. A failed
    operation leaves the store as it was. With both stores working,
    for every sequence of the five operations applied to both services from
    the empty store, each operation succeeds in both, the two listings of an
    operation hold the same records, those of localStorage as JSON reads them
    back and in the order of insertion, those of IndexedDB in the ascending
    order of their ids; an upsert returns nothing in localStorage and the id
    of the record in IndexedDB, and a deletion returns nothing in either.
    The order of ids is any strict total order. *)
Theorem services_agree_up_to_order (compare : string → string → comparison)
    `{!KeyOrder compare} (ops : list operation)
    (b : LocalStorage.browser) (tx : IndexedDB.transaction) (o : operation)
    (ls : LocalStorage.localStorage) (db : IndexedDB.IDBDatabase) :
  (∀ i next, ops !! i = Some next →
     ∃ local indexed,
       (run step_localStorage (pair LocalStorage.works <$> ops) LocalStorage.empty).1 !! i
       = Some local
       ∧ (run (step_IndexedDB compare) (pair IndexedDB.completes <$> ops)
            IndexedDB.empty).1 !! i
         = Some indexed
       ∧ outcomes_agree compare (take i ops) next local indexed)
  ∧ (∀ error, (step_localStorage (b, o) ls).1 = Failed error →
       thrown b = Some error ∧ (step_localStorage (b, o) ls).2 = ls)
  ∧ (step_localStorage (b, o) ls).1 ≠ Pending
  ∧ (∀ error, b = LocalStorage.getItem_throws error →
       (step_localStorage (b, o) ls).1 = Failed error)
  ∧ (∀ error record,
       b = LocalStorage.setItem_throws error →
       o = upsertTrip record →
       (step_localStorage (b, o) ls).1 = Failed error)
  ∧ (∀ error record,
       b = LocalStorage.setItem_throws error →
       o = upsertExpense record →
       (step_localStorage (b, o) ls).1 = Failed error)
  ∧ (∀ error, rejected tx = Some error ↔
       (step_IndexedDB compare (tx, o) db).1 = Failed error)
  ∧ (∀ error, rejected tx = Some error →
       (step_IndexedDB compare (tx, o) db).2 = db).
Proof.
  split_and!.
  - intros i next Hi.
    rewrite (run_lookup _ _ _ i (LocalStorage.works, next))
      by (by rewrite list_lookup_fmap, Hi).
    rewrite (run_lookup _ _ _ i (IndexedDB.completes, next))
      by (by rewrite list_lookup_fmap, Hi).
    eexists _, _. split_and!; [done | done |].
    rewrite <- !fmap_take.
    fold (stored_localStorage (take i ops)) (stored_IndexedDB compare (take i ops)).
    destruct (same_records_stored compare (take i ops)) as (Hj & Hst & Hse & Ht & He).
    destruct (stored_in_order_of_insertion (take i ops)) as [Hit Hie].
    rewrite step_localStorage_works.
    destruct next as [| trip | tripId | expense | expenseId]; simpl; try done.
    + by eexists _, _.
    + eexists _, _, _. split_and!; [done | done | | done | done |].
      * unfold LocalStorage.getExpenses. rewrite He. by rewrite fmap_filter_comm.
      * by apply key_sorted_filter.
  - apply step_localStorage_failed.
  - apply step_localStorage_settles.
  - intros error ->. by rewrite step_localStorage_getItem_throws.
  - intros error record -> ->.
    unfold step_localStorage, LocalStorage.Call.saveTrip, LocalStorage.Call.write. done.
  - intros error record -> ->.
    unfold step_localStorage, LocalStorage.Call.saveExpense, LocalStorage.Call.write. done.
  - intros error. destruct tx, o; simpl; split; (intros [= <-] || done); done.
  - intros error. by destruct tx, o.
Qed.

(** The theorem above, for the order of strings by their bytes and the three
    sample operations. *)
Lemma services_agree_up_to_order_witness :
  ∃ local indexed,
    (run step_localStorage
       (pair LocalStorage.works
          <$> [upsertTrip Sample.paris; upsertTrip Sample.tokyo; listTrips])
       LocalStorage.empty).1 !! 2
    = Some local
    ∧ (run (step_IndexedDB String_as_OT.compare)
         (pair IndexedDB.completes
            <$> [upsertTrip Sample.paris; upsertTrip Sample.tokyo; listTrips])
         IndexedDB.empty).1 !! 2
      = Some indexed
    ∧ outcomes_agree String_as_OT.compare
        (take 2 [upsertTrip Sample.paris; upsertTrip Sample.tokyo; listTrips])
        listTrips local indexed.
Proof.
  destruct (services_agree_up_to_order String_as_OT.compare
              [upsertTrip Sample.paris; upsertTrip Sample.tokyo; listTrips]
              LocalStorage.works IndexedDB.completes listTrips
              LocalStorage.empty IndexedDB.empty) as [Hagree _].
  apply (Hagree 2 listTrips). reflexivity.
Defined.

(** ** The exported CSV (C8) *)

Lemma append_nil (b : string) : EmptyString +:+ b = b.
Proof. reflexivity. Qed.

Lemma append_cons (x : ascii) (a b : string) : String x a +:+ b = String x (a +:+ b).
Proof. reflexivity. Qed.

Lemma append_assoc (a b c : string) : (a +:+ b) +:+ c = a +:+ (b +:+ c).
Proof. induction a as [| x a IH]; [done |]. rewrite !append_cons. by f_equal. Qed.

Lemma length_append (a b : string) :
  String.length (a +:+ b) = String.length a + String.length b.
Proof. induction a as [| x a IH]; [done |]. rewrite append_cons. simpl. by f_equal. Qed.

Lemma lacks_append (c : ascii) (a b : string) :
  lacks c (a +:+ b) ↔ lacks c a ∧ lacks c b.
Proof.
  induction a as [| x a IH]; [rewrite append_nil; simpl; naive_solver |].
  rewrite append_cons. simpl. rewrite IH. naive_solver.
Qed.

Lemma all_digits_append (a b : string) :
  all_digits (a +:+ b) ↔ all_digits a ∧ all_digits b.
Proof.
  induction a as [| x a IH]; [rewrite append_nil; simpl; naive_solver |].
  rewrite append_cons. simpl. rewrite IH. naive_solver.
Qed.

Lemma is_digit_not_point (c : ascii) : is_digit c = true → c ≠ "."%char.
Proof. intros Hc ->. done. Qed.

Lemma all_digits_lacks_point (s : string) : all_digits s → lacks "." s.
Proof.
  induction s as [| c s IH]; simpl; [done |].
  intros [Hc Hs]. split; [by apply is_digit_not_point | by apply IH].
Qed.

Lemma replace_first_lacks (from to : ascii) (a b : string) :
  lacks from a →
  TripDashboard.replace_first from to (a +:+ String from b) = a +:+ String to b.
Proof.
  induction a as [| c a IH].
  - intros _. rewrite !append_nil. simpl. by rewrite decide_True.
  - intros [Hc Ha]. rewrite !append_cons. simpl.
    rewrite decide_False by done. by rewrite IH.
Qed.

Lemma digit_is_digit (m : N) : (m < 10)%N → is_digit (TripDashboard.digit m) = true.
Proof.
  intros Hm. unfold is_digit, TripDashboard.digit.
  rewrite N_ascii_embedding by lia.
  apply andb_true_iff. split; apply N.leb_le; lia.
Qed.

Lemma digits_fixed_shape (width : nat) (n : N) :
  all_digits (TripDashboard.digits_fixed width n)
  ∧ String.length (TripDashboard.digits_fixed width n) = width.
Proof.
  revert n. induction width as [| w IH]; intros n; simpl; [done |].
  destruct (IH (n / 10)%N) as [Hd Hl].
  rewrite all_digits_append, length_append, Hl. simpl. split_and!; [done | | done | lia].
  apply digit_is_digit. apply N.mod_lt. done.
Qed.

Lemma all_digits_string_of_uint (d : Decimal.uint) :
  all_digits (NilEmpty.string_of_uint d).
Proof. induction d; simpl; done. Qed.

Lemma string_of_N_shape (n : N) :
  all_digits (TripDashboard.string_of_N n) ∧ TripDashboard.string_of_N n ≠ EmptyString.
Proof.
  unfold TripDashboard.string_of_N, NilZero.string_of_uint.
  destruct (N.to_uint n) eqn:Hn;
    try (split; [apply (all_digits_string_of_uint (_ u)) | done]).
  done.
Qed.

Lemma Qc_opp_lt_bound (q b : Qc) : (- b < q)%Qc → (- q < b)%Qc.
Proof.
  intros H. qc_to_q. lra.
Qed.

(** What [toFixed] prints for a number of magnitude below 10^21: a sign, the
    digits before the point, the point and as many digits as asked for. *)
Lemma toFixed_shape (fractionDigits : nat) (q : Qc) :
  prints_decimal (Num q) →
  ∃ sign int frac,
    TripDashboard.toFixed (S fractionDigits) (Num q)
    = Some (sign +:+ int +:+ String "." frac)
    ∧ (sign = EmptyString ∨ sign = "-")
    ∧ int ≠ EmptyString ∧ all_digits int
    ∧ all_digits frac ∧ String.length frac = S fractionDigits.
Proof.
  intros [Hlow Hhigh]. unfold TripDashboard.toFixed.
  set (negative := bool_decide (q < 0)%Qc).
  set (x := if negative then (- q)%Qc else q).
  assert (Hx : (x < fraction (10 ^ 21) 1)%Qc).
  { subst x. destruct negative; [by apply Qc_opp_lt_bound | done]. }
  rewrite bool_decide_eq_false_2 by (by apply Qclt_not_le).
  set (n := Z.to_N _). set (scale := (10 ^ _)%N).
  exists (if negative then "-" else EmptyString),
    (TripDashboard.string_of_N (n / scale)),
    (TripDashboard.digits_fixed (S fractionDigits) n).
  destruct (string_of_N_shape (n / scale)) as [Hd Hne].
  destruct (digits_fixed_shape (S fractionDigits) n) as [Hfd Hfl].
  split_and!; try done.
  destruct negative; auto.
Qed.

Lemma lacks_point_quote : lacks "." TripDashboard.quote.
Proof. by_evaluation. Qed.

Lemma toFixed_is_Some (fractionDigits : nat) (v : number) :
  v ≠ Null → is_Some (TripDashboard.toFixed fractionDigits v).
Proof.
  intros Hv. destruct v as [q | negative | |]; [| by eexists .. | done].
  unfold TripDashboard.toFixed. case_bool_decide; by eexists.
Qed.

Lemma numeric_cell (fractionDigits : nat) (v : number) :
  v ≠ Null →
  ∃ s, TripDashboard.toFixed (S fractionDigits) v = Some s
       ∧ (prints_decimal v →
          decimal_comma_cell (S fractionDigits)
            (TripDashboard.quote +:+ TripDashboard.replace_first "." "," s
             +:+ TripDashboard.quote)).
Proof.
  intros Hv. destruct (toFixed_is_Some (S fractionDigits) v Hv) as [s Hs].
  exists s. split; [done |]. intros Hprints.
  destruct v as [q | negative | |]; try done.
  destruct (toFixed_shape fractionDigits q Hprints)
    as (sign & int & frac & Heq & Hsign & Hne & Hint & Hfrac & Hlen).
  rewrite Heq in Hs. injection Hs as <-.
  assert (Hlacks : lacks "." (sign +:+ int)).
  { apply lacks_append. split; [| by apply all_digits_lacks_point].
    by destruct Hsign as [-> | ->]. }
  rewrite <- (append_assoc sign int (String "." frac)).
  rewrite (replace_first_lacks _ _ _ _ Hlacks).
  rewrite (append_assoc sign int (String "," frac)).
  split.
  - apply lacks_append in Hlacks as [Hsg Hi].
    rewrite !lacks_append. simpl.
    split_and!; try done; try apply lacks_point_quote.
    by apply all_digits_lacks_point.
  - exists sign, int, frac. split_and!; try done.
    by rewrite !append_assoc.
Qed.

Lemma formatDecimal_cell (v : number) :
  v ≠ Null →
  ∃ s, TripDashboard.formatDecimal v = Some s
       ∧ (prints_decimal v → decimal_comma_cell 2 s).
Proof.
  intros Hv. destruct (numeric_cell 1 v Hv) as (s & Hs & Hcell).
  unfold TripDashboard.formatDecimal. rewrite Hs. simpl. eauto.
Qed.

Lemma formatRate_cell (v : number) :
  v ≠ Null →
  ∃ s, TripDashboard.formatRate v = Some s
       ∧ (prints_decimal v → decimal_comma_cell 6 s).
Proof.
  intros Hv. destruct (numeric_cell 5 v Hv) as (s & Hs & Hcell).
  unfold TripDashboard.formatRate. rewrite Hs. simpl. eauto.
Qed.

Lemma binary64_not_Null (q : Qc) : binary64 q ≠ Null.
Proof.
  unfold binary64. case_decide; [done |]. by case_bool_decide.
Qed.

Lemma js_add_not_Null (a b : number) : js_add a b ≠ Null.
Proof.
  unfold js_add. destruct (ToNumber a), (ToNumber b);
    try done; try apply binary64_not_Null. by case_bool_decide.
Qed.

Lemma js_sub_not_Null (a b : number) : js_sub a b ≠ Null.
Proof.
  unfold js_sub. destruct (ToNumber a), (ToNumber b);
    try done; try apply binary64_not_Null. by case_bool_decide.
Qed.

Lemma totalSpent_not_Null (expenses : list Expense) :
  TripDashboard.totalSpent expenses ≠ Null.
Proof.
  unfold TripDashboard.totalSpent.
  induction expenses as [| e l IH] using rev_ind; [done |].
  rewrite foldl_app. simpl. apply js_add_not_Null.
Qed.

Lemma str_or_empty (s : string) : str_or s EmptyString = s.
Proof. unfold str_or. by case_decide. Qed.

Lemma expenseCells_row (language : Language) (e : Expense) :
  Expense.amountOriginal e ≠ Null → Expense.exchangeRate e ≠ Null →
  Expense.amountBase e ≠ Null →
  ∃ cells, TripDashboard.expenseCells language e = Some cells
           ∧ length cells = 9
           ∧ expense_row language e (String.concat ";" cells).
Proof.
  intros Ha Hr Hb.
  destruct (formatDecimal_cell _ Ha) as (a & Hfa & Hca).
  destruct (formatRate_cell _ Hr) as (r & Hfr & Hcr).
  destruct (formatDecimal_cell _ Hb) as (b & Hfb & Hcb).
  unfold TripDashboard.expenseCells. rewrite Hfa, Hfr, Hfb. simpl.
  eexists. split_and!; [done | done |].
  exists a, r, b. rewrite str_or_empty. by split_and!.
Qed.

(** Numeric cells on sample values: [toFixed] rounds the exact value of the
    binary64 number, so that 1.005 prints as 1,00; from 10^21 on it prints
    exponent notation, without a comma. *)
Lemma numeric_cell_examples :
  TripDashboard.formatDecimal (Num (dec 12345 10))
  = Some (TripDashboard.quote +:+ "1234,50" +:+ TripDashboard.quote)
  ∧ TripDashboard.formatDecimal (Num (dec (-7) 2))
    = Some (TripDashboard.quote +:+ "-3,50" +:+ TripDashboard.quote)
  ∧ TripDashboard.formatDecimal (Num (dec 1 8))
    = Some (TripDashboard.quote +:+ "0,13" +:+ TripDashboard.quote)
  ∧ TripDashboard.formatDecimal (Num (dec 1005 1000))
    = Some (TripDashboard.quote +:+ "1,00" +:+ TripDashboard.quote)
  ∧ TripDashboard.formatRate (Num (dec 109 100))
    = Some (TripDashboard.quote +:+ "1,090000" +:+ TripDashboard.quote)
  ∧ TripDashboard.formatDecimal (Num (dec (10 ^ 21) 1))
    = Some (TripDashboard.quote +:+ "1e+21" +:+ TripDashboard.quote)
  ∧ TripDashboard.formatDecimal (Num (dec (-2 ^ 70) 1))
    = Some (TripDashboard.quote +:+ "-1,1805916207174113e+21" +:+ TripDashboard.quote)
  ∧ TripDashboard.formatDecimal (Infinity false)
    = Some (TripDashboard.quote +:+ "Infinity" +:+ TripDashboard.quote)
  ∧ TripDashboard.formatDecimal NaN
    = Some (TripDashboard.quote +:+ "NaN" +:+ TripDashboard.quote)
  ∧ TripDashboard.formatDecimal Null = None.
Proof. by_evaluation. Qed.

Lemma expenseRows_exist (language : Language) (expenses : list Expense) :
  Forall (λ e, Expense.amountOriginal e ≠ Null ∧ Expense.exchangeRate e ≠ Null
               ∧ Expense.amountBase e ≠ Null) expenses →
  ∃ cells, mapM (TripDashboard.expenseCells language) expenses = Some cells
           ∧ Forall (λ row, length row = 9) cells
           ∧ Forall2 (expense_row language) expenses (String.concat ";" <$> cells).
Proof.
  induction 1 as [| e l (Ha & Hr & Hb) _ (cells & Hcells & Hlen & Hrows)].
  - exists []. split_and!; by constructor.
  - destruct (expenseCells_row language e Ha Hr Hb) as (row & Hrow & Hl & Hshape).
    exists (row :: cells). split_and!.
    + simpl. rewrite Hrow. simpl. by rewrite Hcells.
    + by constructor.
    + rewrite fmap_cons. by constructor.
Qed.

(** C8, as the specification states it, fails. The export of the trip to
    Tokyo with two expenses does not begin with the byte-order mark: it
    begins with the line [sep=;], and the mark follows that line. *)
Lemma csv_export_begins_with_sep_line :
  String.prefix TripDashboard.BOM
    <$> TripDashboard.handleExportCSV en Sample.tokyo [Sample.lunch; Sample.hotel]
  = Some false
  ∧ String.prefix ("sep=;" +:+ TripDashboard.LF +:+ TripDashboard.BOM)
      <$> TripDashboard.handleExportCSV en Sample.tokyo [Sample.lunch; Sample.hotel]
    = Some true.
Proof. by_evaluation. Qed.

(** C8, amended. When no numeric field of the trip and its expenses is null,
    the export produces a text made of: the line [sep=;]; a metadata block
    of eight rows, each a name and a value between quotes joined by a
    semicolon, the last three values being the budget, the total spent and
    the balance as the export formats numbers; a blank line; a header row of
    nine cells joined by semicolons; and one row per expense, in order, of
    nine cells joined by semicolons. Every numeric cell whose number is
    finite and of magnitude below 10^21 has a comma for decimal separator,
    two decimals for an amount and six for a rate, and no point. Whether the
    mark U+FEFF stands before the metadata block is left open. *)
Theorem csv_export_layout (language : Language) (trip : Trip) (expenses : list Expense) :
  exportable trip expenses →
  ∃ budget spent settlement rows mark,
    TripDashboard.formatDecimal (Trip.advanceAmount trip) = Some budget
    ∧ TripDashboard.formatDecimal (TripDashboard.totalSpent expenses) = Some spent
    ∧ TripDashboard.formatDecimal (TripDashboard.balance trip expenses) = Some settlement
    ∧ (prints_decimal (Trip.advanceAmount trip) → decimal_comma_cell 2 budget)
    ∧ (prints_decimal (TripDashboard.totalSpent expenses) → decimal_comma_cell 2 spent)
    ∧ (prints_decimal (TripDashboard.balance trip expenses)
       → decimal_comma_cell 2 settlement)
    ∧ Forall2 (expense_row language) expenses rows
    ∧ length (TripDashboard.headers language trip) = 9
    ∧ (mark = EmptyString ∨ mark = TripDashboard.BOM)
    ∧ TripDashboard.handleExportCSV language trip expenses
      = Some ("sep=;" +:+ TripDashboard.LF +:+ mark
              +:+ String.concat TripDashboard.LF
                    [ metadata_row (t language "tripName") (Trip.tripName trip);
                      metadata_row (t language "travelerName") (Trip.travelerName trip);
                      metadata_row (t language "destination")
                        (Trip.destinationCountry trip);
                      metadata_row (t language "startDate") (Trip.startDate trip);
                      metadata_row (t language "status")
                        (t language (TripStatus_value (Trip.status trip)));
                      metadata_row (t language "budget") budget;
                      metadata_row (t language "spent") spent;
                      metadata_row (t language "settlement") settlement ]
              +:+ TripDashboard.LF +:+ TripDashboard.LF
              +:+ String.concat ";"
                    ((λ v, TripDashboard.escape (Some v))
                       <$> TripDashboard.headers language trip)
              +:+ TripDashboard.LF
              +:+ String.concat TripDashboard.LF rows).
Proof.
  intros [Hadvance Hexpenses].
  destruct (formatDecimal_cell _ Hadvance) as (budget & Hbudget & Hcb).
  destruct (formatDecimal_cell _ (totalSpent_not_Null expenses)) as (spent & Hspent & Hcs).
  destruct (formatDecimal_cell (TripDashboard.balance trip expenses))
    as (settlement & Hsettlement & Hcl); [apply js_sub_not_Null |].
  destruct (expenseRows_exist language expenses Hexpenses) as (cells & Hcells & _ & Hrows).
  exists budget, spent, settlement, (String.concat ";" <$> cells), TripDashboard.BOM.
  split_and!; try done; [by right |].
  unfold TripDashboard.handleExportCSV, TripDashboard.metadata.
  rewrite Hbudget, Hspent, Hsettlement. simpl. rewrite Hcells. done.
Qed.

(** The theorem above, applied to sample data. *)
Lemma csv_export_layout_witness :
  is_Some (TripDashboard.handleExportCSV en Sample.tokyo [Sample.lunch; Sample.hotel]).
Proof.
  assert (H : exportable Sample.tokyo [Sample.lunch; Sample.hotel]) by (by_evaluation).
  destruct (csv_export_layout en Sample.tokyo [Sample.lunch; Sample.hotel] H)
    as (budget & spent & settlement & rows & mark & _ & _ & _ & _ & _ & _ & _ & _ & _ & Hcsv).
  rewrite Hcsv. by eexists.
Defined.

(** * Further properties of the services and the views *)

(** ** [retryOperation] *)

Lemma retryOperation_Rejected_inv {T : Type} (operation : nat → Promise T)
    (retries call : nat) (e : Error) :
  retryOperation operation retries call = Rejected e →
  ∃ n, operation n = Rejected e.
Proof.
  revert call. induction retries as [| retries IH]; intros call; simpl.
  - destruct (operation call) eqn:Hop; [done |]. intros [= ->]. eauto.
  - destruct (operation call) as [v | e'] eqn:Hop; [done |].
    destruct (isOverloaded e'); [apply IH |]. intros [= ->]. eauto.
Qed.

(** The attempt [retryOperation] settles to. *)
Lemma retryOperation_settles {T : Type} (operation : nat → Promise T)
    (retries call : nat) :
  ∃ k : nat,
    (k ≤ retries)%nat
    ∧ retryOperation operation retries call = operation (call + k)
    ∧ (∀ j : nat, (j < k)%nat →
         ∃ e, operation (call + j) = Rejected e ∧ isOverloaded e = true)
    ∧ ((k < retries)%nat →
         ∀ e, operation (call + k) = Rejected e → isOverloaded e = false).
Proof.
  revert call. induction retries as [| retries IH]; intros call.
  - exists 0. rewrite Nat.add_0_r. split_and!; [lia | | intros; lia | intros; lia].
    simpl. by destruct (operation call).
  - simpl. destruct (operation call) as [v | e] eqn:Hop.
    + exists 0. rewrite Nat.add_0_r, Hop. split_and!; [lia | done | intros; lia |].
      intros _ e [=].
    + destruct (isOverloaded e) eqn:Hover.
      * destruct (IH (S call)) as (k & Hk & Heq & Hbefore & Hafter).
        exists (S k). replace (call + S k) with (S call + k) by lia.
        split_and!; [lia | done | |].
        -- intros [| j] Hj.
           ++ rewrite Nat.add_0_r. eauto.
           ++ replace (call + S j) with (S call + j) by lia. apply Hbefore. lia.
        -- intros Hlt. apply Hafter. lia.
      * exists 0. rewrite Nat.add_0_r, Hop. split_and!; [lia | done | intros; lia |].
        intros _ e' [= <-]. done.
Qed.

(** X1. [retryOperation] settles to the outcome of one of the first
    [retries + 1] attempts: the first one that is not a rejection by an
    overloaded service, or the last one allowed. Every attempt before it was
    rejected as overloaded, so a success or any other error is never
    retried. *)
Theorem retryOperation_first_settled {T : Type} (operation : nat → Promise T)
    (retries call : nat) :
  ∃ k : nat,
    (k ≤ retries)%nat
    ∧ retryOperation operation retries call = operation (call + k)
    ∧ (∀ j : nat, (j < k)%nat →
         ∃ e, operation (call + j) = Rejected e ∧ isOverloaded e = true)
    ∧ ((k < retries)%nat →
         ∀ e, operation (call + k) = Rejected e → isOverloaded e = false).
Proof. apply retryOperation_settles. Qed.

(** ** [suggestCurrencyForCountry] *)

Lemma property_elem_of (table : list (string * string)) (key value : string) :
  property table key = Some value → (key, value) ∈ table.
Proof.
  induction table as [| [k v] table IH]; simpl; [done |].
  case_decide as Hk.
  - intros [= ->]. subst. by left.
  - intros H. right. by apply IH.
Qed.

Lemma COUNTRY_CURRENCY_MAP_codes (key currency : string) :
  property COUNTRY_CURRENCY_MAP key = Some currency →
  is_currency_code currency = true.
Proof.
  intros H%property_elem_of. revert H.
  change (is_currency_code currency = true)
    with ((λ kv : string * string, is_currency_code kv.2 = true) (key, currency)).
  generalize (key, currency). by_evaluation_on_list.
Qed.

Lemma is_currency_code_not_empty (currency : string) :
  is_currency_code currency = true → currency ≠ EmptyString.
Proof. by intros H ->. Qed.

Lemma COUNTRY_CURRENCY_MAP_at_None (key : string) :
  COUNTRY_CURRENCY_MAP_at key = None →
  property COUNTRY_CURRENCY_MAP key = None ∧ key ∉ Object_prototype.
Proof.
  unfold COUNTRY_CURRENCY_MAP_at.
  destruct (property COUNTRY_CURRENCY_MAP key); [done |]. by case_decide.
Qed.

Lemma Object_prototype_not_countries (name : string) :
  name ∈ Object_prototype → property COUNTRY_CURRENCY_MAP name = None.
Proof. revert name. by_evaluation_on_list. Qed.

Section Suggest.
Context (toLowerCase trim : string → string).
Context (apiKey : string) (generateContent : nat → currency_attempt).

Lemma suggestCurrency_remote (country : string) :
  COUNTRY_CURRENCY_MAP_at (trim (toLowerCase country)) = None →
  suggestCurrencyForCountry toLowerCase trim apiKey generateContent country
  = retryOperation (suggestCurrency_operation apiKey generateContent) 3 0.
Proof. intros H. unfold suggestCurrencyForCountry. by rewrite H. Qed.

Lemma suggestCurrency_cases (country : string) :
  (∃ currency,
      property COUNTRY_CURRENCY_MAP (trim (toLowerCase country)) = Some currency
      ∧ suggestCurrencyForCountry toLowerCase trim apiKey generateContent country
        = Resolved (Code currency))
  ∨ (trim (toLowerCase country) ∈ Object_prototype
     ∧ suggestCurrencyForCountry toLowerCase trim apiKey generateContent country
       = Resolved (Inherited (trim (toLowerCase country))))
  ∨ (COUNTRY_CURRENCY_MAP_at (trim (toLowerCase country)) = None
     ∧ suggestCurrencyForCountry toLowerCase trim apiKey generateContent country
       = retryOperation (suggestCurrency_operation apiKey generateContent) 3 0).
Proof.
  unfold suggestCurrencyForCountry, COUNTRY_CURRENCY_MAP_at.
  destruct (property COUNTRY_CURRENCY_MAP (trim (toLowerCase country)))
    as [currency |] eqn:Hp.
  - left. exists currency. split; [done |].
    apply COUNTRY_CURRENCY_MAP_codes, is_currency_code_not_empty in Hp.
    by case_decide.
  - case_decide; [right; left | right; right]; done.
Qed.

Lemma suggestCurrency_operation_Rejected_inv (call : nat) (e : Error) :
  suggestCurrency_operation apiKey generateContent call = Rejected e →
  apiKey ≠ EmptyString ∧ generateContent call = CurrencyFailure e ∧ is503 e = true.
Proof.
  unfold suggestCurrency_operation, suggestCurrency_catch, is503.
  case_decide as Hkey; [done |].
  destruct (generateContent call) as [currency | e']; [done |].
  destruct (_ || _) eqn:H503; [| done]. by intros [= ->].
Qed.

Lemma suggestCurrency_operation_Resolved_inv (call : nat) (s : suggestion) :
  suggestCurrency_operation apiKey generateContent call = Resolved s →
  s = Code "USD"
  ∨ ∃ currency, s = Code currency ∧ currency ≠ EmptyString ∧ apiKey ≠ EmptyString
      ∧ generateContent call = CurrencyAnswer (Some currency).
Proof.
  unfold suggestCurrency_operation, suggestCurrency_catch.
  case_decide as Hkey; [intros [= <-]; by left |].
  destruct (generateContent call) as [[currency |] | e'].
  - unfold str_or. simpl. case_decide; intros [= <-]; [by left |].
    right. by exists currency.
  - intros [= <-]. by left.
  - destruct (_ || _); [done |]. intros [= <-]. by left.
Qed.

(** X2. A country of the static table is answered from the table, with a
    code of three upper-case letters, whatever the key or the remote model:
    the lookup works offline. *)
Theorem suggestCurrency_known_country (country currency : string) :
  property COUNTRY_CURRENCY_MAP (trim (toLowerCase country)) = Some currency →
  suggestCurrencyForCountry toLowerCase trim apiKey generateContent country
  = Resolved (Code currency)
  ∧ is_currency_code currency = true.
Proof.
  intros Hp. split; [| by eapply COUNTRY_CURRENCY_MAP_codes].
  destruct (suggestCurrency_cases country)
    as [(c & Hc & ->) | [(Hin & _) | (Hnone & _)]].
  - congruence.
  - apply Object_prototype_not_countries in Hin. congruence.
  - apply COUNTRY_CURRENCY_MAP_at_None in Hnone as [Hnone _]. congruence.
Qed.

(** X3. A currency the function resolves to is never the empty string, and
    it is never invented: it is the table's entry for the country, or the
    answer of one of the at most four calls of the remote model, or the
    default "USD". *)
Theorem suggestCurrency_resolved_code (country currency : string) :
  suggestCurrencyForCountry toLowerCase trim apiKey generateContent country
  = Resolved (Code currency) →
  currency ≠ EmptyString
  ∧ (property COUNTRY_CURRENCY_MAP (trim (toLowerCase country)) = Some currency
     ∨ currency = "USD"
     ∨ (apiKey ≠ EmptyString
        ∧ ∃ call : nat, (call ≤ 3)%nat
            ∧ generateContent call = CurrencyAnswer (Some currency))).
Proof.
  intros Hres.
  destruct (suggestCurrency_cases country)
    as [(c & Hc & Heq) | [(Hin & Heq) | (Hnone & Heq)]];
    rewrite Heq in Hres.
  - injection Hres as ->. split; [| by left].
    by eapply is_currency_code_not_empty, COUNTRY_CURRENCY_MAP_codes.
  - done.
  - destruct (retryOperation_settles (suggestCurrency_operation apiKey generateContent) 3 0)
      as (k & Hk & Hsettled & _).
    rewrite Hsettled in Hres. simpl in Hres.
    apply suggestCurrency_operation_Resolved_inv in Hres
      as [[= ->] | (c & [= ->] & Hne & Hkey & Hgen)].
    + split; [done |]. right. by left.
    + split; [done |]. right. right. split; [done |]. by exists k.
Qed.

(** X4. The function rejects only when all else failed: a key is
    configured, the country is not in the table, and each of the four calls
    of the remote model failed with a 503; the error is the one of the last
    call. *)
Theorem suggestCurrency_rejected (country : string) (e : Error) :
  suggestCurrencyForCountry toLowerCase trim apiKey generateContent country
  = Rejected e →
  apiKey ≠ EmptyString
  ∧ COUNTRY_CURRENCY_MAP_at (trim (toLowerCase country)) = None
  ∧ generateContent 3 = CurrencyFailure e
  ∧ ∀ call : nat, (call ≤ 3)%nat →
      ∃ e', generateContent call = CurrencyFailure e' ∧ is503 e' = true.
Proof.
  intros Hrej.
  destruct (suggestCurrency_cases country)
    as [(c & Hc & Heq) | [(Hin & Heq) | (Hnone & Heq)]];
    rewrite Heq in Hrej; [done | done |].
  destruct (retryOperation_settles (suggestCurrency_operation apiKey generateContent) 3 0)
    as (k & Hk & Hsettled & Hbefore & Hafter).
  rewrite Hsettled in Hrej. simpl in Hrej.
  pose proof (suggestCurrency_operation_Rejected_inv _ _ Hrej) as (Hkey & Hgen & H503).
  assert (k = 3) as ->.
  { destruct (decide (k = 3)) as [| Hne]; [done |].
    assert (isOverloaded e = false) as Hno by (apply Hafter; [lia | done]).
    apply is503_isOverloaded in H503. congruence. }
  split_and!; [done | done | done |].
  intros call Hcall. destruct (decide (call = 3)) as [-> | Hne]; [by exists e |].
  destruct (Hbefore call) as (e' & He' & _); [lia |]. simpl in He'.
  apply suggestCurrency_operation_Rejected_inv in He' as (_ & He' & H503').
  by exists e'.
Qed.

(** X5. For a country outside the table the answer defaults to "USD" when
    no key is configured, when the remote model fails with anything but a
    503, and when its answer carries no currency. *)
Theorem suggestCurrency_defaults_to_USD (country : string) :
  COUNTRY_CURRENCY_MAP_at (trim (toLowerCase country)) = None →
  apiKey = EmptyString
  ∨ (∃ e, generateContent 0 = CurrencyFailure e ∧ is503 e = false)
  ∨ generateContent 0 = CurrencyAnswer None
  ∨ generateContent 0 = CurrencyAnswer (Some EmptyString) →
  suggestCurrencyForCountry toLowerCase trim apiKey generateContent country
  = Resolved (Code "USD").
Proof.
  intros Hnone Hcase. rewrite suggestCurrency_remote by done.
  apply retryOperation_resolved.
  unfold suggestCurrency_operation, suggestCurrency_catch.
  destruct Hcase as [-> | [(e & -> & H503) | [-> | ->]]].
  - done.
  - case_decide; [done |]. unfold is503 in H503. by rewrite H503.
  - by case_decide.
  - by case_decide.
Qed.

(** X6. A name that JavaScript finds on every object ("constructor",
    "__proto__") is looked up like a country: the truthy member the table
    inherits under it is returned as the suggested currency, and the remote
    model is not asked. *)
Theorem suggestCurrency_inherited_member (country : string) :
  trim (toLowerCase country) ∈ Object_prototype →
  suggestCurrencyForCountry toLowerCase trim apiKey generateContent country
  = Resolved (Inherited (trim (toLowerCase country))).
Proof.
  intros Hin.
  destruct (suggestCurrency_cases country)
    as [(c & Hc & Heq) | [(_ & Heq) | (Hnone & _)]].
  - apply Object_prototype_not_countries in Hin. congruence.
  - done.
  - by apply COUNTRY_CURRENCY_MAP_at_None in Hnone as [_ Hnone].
Qed.

End Suggest.

(** X2 for the country typed as "  Japan ", without a key. *)
Lemma suggestCurrency_known_country_witness :
  suggestCurrencyForCountry Latin.toLowerCase Latin.trim EmptyString
    (λ _, CurrencyAnswer None) "  Japan "
  = Resolved (Code "JPY")
  ∧ is_currency_code "JPY" = true.
Proof.
  apply (suggestCurrency_known_country Latin.toLowerCase Latin.trim EmptyString
           (λ _, CurrencyAnswer None) "  Japan " "JPY").
  reflexivity.
Defined.

(** X3 for a country outside the table, answered CHF by the remote model. *)
Lemma suggestCurrency_resolved_code_witness :
  "CHF" ≠ EmptyString
  ∧ (property COUNTRY_CURRENCY_MAP (Latin.trim (Latin.toLowerCase "Liechtenstein")) = Some "CHF"
     ∨ "CHF" = "USD"
     ∨ ("key" ≠ EmptyString
        ∧ ∃ call : nat, (call ≤ 3)%nat
            ∧ (λ _ : nat, CurrencyAnswer (Some "CHF")) call = CurrencyAnswer (Some "CHF"))).
Proof.
  apply (suggestCurrency_resolved_code Latin.toLowerCase Latin.trim "key"
           (λ _, CurrencyAnswer (Some "CHF")) "Liechtenstein" "CHF").
  reflexivity.
Defined.

(** X4 for a country outside the table and a remote model that stays overloaded. *)
Lemma suggestCurrency_rejected_witness :
  "key" ≠ EmptyString
  ∧ COUNTRY_CURRENCY_MAP_at (Latin.trim (Latin.toLowerCase "Liechtenstein")) = None
  ∧ (λ _ : nat, CurrencyFailure Sample.overloaded) 3 = CurrencyFailure Sample.overloaded
  ∧ ∀ call : nat, (call ≤ 3)%nat →
      ∃ e', (λ _ : nat, CurrencyFailure Sample.overloaded) call = CurrencyFailure e'
            ∧ is503 e' = true.
Proof.
  apply (suggestCurrency_rejected Latin.toLowerCase Latin.trim "key"
           (λ _, CurrencyFailure Sample.overloaded) "Liechtenstein" Sample.overloaded).
  reflexivity.
Defined.

(** X5 for a country outside the table, without a key. *)
Lemma suggestCurrency_defaults_to_USD_witness :
  suggestCurrencyForCountry Latin.toLowerCase Latin.trim EmptyString
    (λ _, CurrencyAnswer None) "Liechtenstein"
  = Resolved (Code "USD").
Proof.
  apply (suggestCurrency_defaults_to_USD Latin.toLowerCase Latin.trim EmptyString
           (λ _, CurrencyAnswer None) "Liechtenstein").
  - reflexivity.
  - by left.
Defined.

(** X6 for the country typed as "Constructor". *)
Lemma suggestCurrency_inherited_member_witness :
  suggestCurrencyForCountry Latin.toLowerCase Latin.trim "key"
    (λ _, CurrencyAnswer (Some "EUR")) "Constructor"
  = Resolved (Inherited "constructor").
Proof.
  apply (suggestCurrency_inherited_member Latin.toLowerCase Latin.trim "key"
           (λ _, CurrencyAnswer (Some "EUR")) "Constructor").
  by_evaluation.
Defined.

(** ** [analyzeReceipt] *)

Lemma message_includes_has_message (error : Error) (needle : string) :
  needle ≠ EmptyString → message_includes error needle = true → has_message error.
Proof.
  unfold message_includes, has_message. intros Hneedle.
  destruct (message error) as [m |]; [| done]. intros H. exists m. split; [done |].
  intros ->. simpl in H. destruct needle; [done | discriminate].
Qed.

Lemma analyzeReceipt_catch_unfold (error : Error) :
  analyzeReceipt_catch error
  = if is429 error then quota_exceeded
    else if is503_or_overloaded error then error
    else
      match message error with
      | Some m =>
          if decide (m = EmptyString)
          then new_Error "Failed to analyze receipt. Please try again or enter manually."
          else if includes m "Quota" || includes m "valid JSON" || includes m "API Key"
          then error
          else new_Error ("AI Analysis failed: " +:+ m)
      | None =>
          new_Error "Failed to analyze receipt. Please try again or enter manually."
      end.
Proof. reflexivity. Qed.

Lemma analyzeReceipt_catch_message (error : Error) :
  status (analyzeReceipt_catch error) = Some 503%Z
  ∨ has_message (analyzeReceipt_catch error).
Proof.
  rewrite analyzeReceipt_catch_unfold.
  destruct (is429 error) eqn:H429.
  { right. eexists. split; [reflexivity | done]. }
  destruct (is503_or_overloaded error) eqn:H503.
  { unfold is503_or_overloaded in H503.
    apply orb_true_iff in H503 as [H503 | H].
    - apply orb_true_iff in H503 as [H | H].
      + left. by apply bool_decide_eq_true in H.
      + right. eapply message_includes_has_message; [| exact H]. done.
    - right. eapply message_includes_has_message; [| exact H]. done. }
  destruct (message error) as [m |] eqn:Hm.
  - case_decide as Hempty.
    + right. eexists. split; [reflexivity | done].
    + destruct (_ || _ || _).
      * right. by exists m.
      * right. eexists. split; [reflexivity | done].
  - right. eexists. split; [reflexivity | done].
Qed.

Lemma analyzeReceipt_catch_overloaded (error : Error) :
  is429 error = false → is503_or_overloaded error = true →
  analyzeReceipt_catch error = error ∧ isOverloaded error = true.
Proof.
  intros H429 H503. rewrite analyzeReceipt_catch_unfold, H429, H503.
  split; [done |]. unfold is503_or_overloaded in H503. unfold isOverloaded.
  apply orb_true_iff in H503 as [H | H].
  - by rewrite H.
  - rewrite H. by rewrite orb_true_r.
Qed.

Section Receipt.
Context (toUpperCase : string → string).
Context (apiKey : string) (generateContent : nat → receipt_attempt).

Lemma analyzeReceipt_operation_Rejected_inv (call : nat) (e : Error) :
  analyzeReceipt_operation toUpperCase apiKey generateContent call = Rejected e →
  ∃ error, e = analyzeReceipt_catch error.
Proof.
  unfold analyzeReceipt_operation. case_decide; [intros [= <-]; eauto |].
  destruct (generateContent call); intros [= <-]; eauto.
Qed.

(** X7. Every rejection of [analyzeReceipt] tells what happened: the error
    carries a message that is not empty, or it is the 503 of the overloaded
    service that was retried in vain. *)
Theorem analyzeReceipt_rejection_message (base64Image : string) (e : Error) :
  analyzeReceipt toUpperCase apiKey generateContent base64Image = Rejected e →
  status e = Some 503%Z ∨ has_message e.
Proof.
  unfold analyzeReceipt. intros (n & Hn)%retryOperation_Rejected_inv.
  apply analyzeReceipt_operation_Rejected_inv in Hn as (error & ->).
  apply analyzeReceipt_catch_message.
Qed.

(** X8. The failures reported at once, without a second attempt: a missing
    key (the remote model is not called at all), an exceeded quota (also
    when the same error reads like a 503), a response that is not JSON and
    a response without text. *)
Theorem analyzeReceipt_reports_at_once (base64Image : string) :
  (apiKey = EmptyString →
   analyzeReceipt toUpperCase apiKey generateContent base64Image
   = Rejected (new_Error
       "API Key missing. Please check VITE_API_KEY in your .env file or settings."))
  ∧ (∀ e, apiKey ≠ EmptyString → generateContent 0 = ReceiptFailure e →
       is429 e = true →
       analyzeReceipt toUpperCase apiKey generateContent base64Image
       = Rejected quota_exceeded)
  ∧ (apiKey ≠ EmptyString → generateContent 0 = ReceiptNotJSON →
     analyzeReceipt toUpperCase apiKey generateContent base64Image
     = Rejected (new_Error "AI response was not valid JSON. Please enter manually."))
  ∧ (apiKey ≠ EmptyString → generateContent 0 = ReceiptNoText →
     analyzeReceipt toUpperCase apiKey generateContent base64Image
     = Rejected (new_Error "AI Analysis failed: No response from AI")).
Proof.
  unfold analyzeReceipt. split_and!.
  - intros ->. reflexivity.
  - intros e Hkey Hgen H429. simpl. unfold analyzeReceipt_operation at 1.
    case_decide; [done |]. rewrite Hgen.
    by rewrite analyzeReceipt_catch_unfold, H429.
  - intros Hkey Hgen. simpl. unfold analyzeReceipt_operation at 1.
    case_decide; [done |]. rewrite Hgen. reflexivity.
  - intros Hkey Hgen. simpl. unfold analyzeReceipt_operation at 1.
    case_decide; [done |]. rewrite Hgen. reflexivity.
Qed.

(** X9. An overloaded service is asked again: when the first [k] calls
    (at most three) fail with a 503 or an "overloaded" message and the next
    call answers, the receipt is read from that answer, with the category
    mapped to the enumeration. *)
Theorem analyzeReceipt_retries_overloaded (base64Image : string) (k : nat)
    (date merchant : option string) (amount : option number)
    (currency category : option string) :
  apiKey ≠ EmptyString → (k ≤ 3)%nat →
  (∀ j : nat, (j < k)%nat →
     ∃ e, generateContent j = ReceiptFailure e
          ∧ is429 e = false ∧ is503_or_overloaded e = true) →
  generateContent k = ReceiptAnswer date merchant amount currency category →
  analyzeReceipt toUpperCase apiKey generateContent base64Image
  = Resolved (OCRResult.mk date merchant amount currency
                (Some (receipt_category toUpperCase category))).
Proof.
  intros Hkey Hk Hfail Hanswer. unfold analyzeReceipt.
  replace 3 with (k + (3 - k)) by lia.
  rewrite retryOperation_skip.
  - apply retryOperation_resolved. simpl. unfold analyzeReceipt_operation.
    case_decide; [done |]. by rewrite Hanswer.
  - intros m Hm. destruct (Hfail m Hm) as (e & He & H429 & H503).
    exists e. simpl. unfold analyzeReceipt_operation.
    case_decide; [done |]. rewrite He.
    destruct (analyzeReceipt_catch_overloaded e H429 H503) as [-> Hover]. done.
Qed.

(** X10. The category of a receipt is matched without regard to case: a
    category other than [Other] is assigned only to an answer that reads, in
    upper case, like the name of the category; and an answer that reads like
    the name of some category is assigned a category that reads the same. *)
Theorem receipt_category_matches (category : option string) :
  (receipt_category toUpperCase category ≠ OTHER →
   ∃ text, category = Some text
     ∧ toUpperCase (ExpenseCategory_value (receipt_category toUpperCase category))
       = toUpperCase text)
  ∧ (∀ (text : string) (c : ExpenseCategory),
       category = Some text →
       toUpperCase (ExpenseCategory_value c) = toUpperCase text →
       toUpperCase (ExpenseCategory_value (receipt_category toUpperCase category))
       = toUpperCase text).
Proof.
  unfold receipt_category. split.
  - case_bool_decide as Hin; [| done].
    destruct (list_find _ _) as [[i val] |] eqn:Hfind; [| done].
    apply list_find_Some in Hfind as (_ & Hval & _). intros _.
    destruct category as [text |]; [| done]. exists text. split; [done |].
    simpl in Hval. by injection Hval.
  - intros text c -> Hc.
    assert (c ∈ ExpenseCategory_values) as Hmem by (destruct c; by_evaluation).
    rewrite bool_decide_eq_true_2.
    2: { apply list_elem_of_fmap. exists c. simpl. split; [by rewrite Hc | done]. }
    destruct (list_find _ _) as [[i val] |] eqn:Hfind.
    + apply list_find_Some in Hfind as (_ & Hval & _). simpl in Hval. by injection Hval.
    + apply list_find_None in Hfind.
      rewrite Forall_forall in Hfind. specialize (Hfind c Hmem). simpl in Hfind.
      by rewrite Hc in Hfind.
Qed.

End Receipt.

(** X7 for a remote model that answers with status 429. *)
Lemma analyzeReceipt_rejection_message_witness :
  status quota_exceeded = Some 503%Z ∨ has_message quota_exceeded.
Proof.
  apply (analyzeReceipt_rejection_message Latin.toUpperCase "key"
           (λ _, ReceiptFailure (mkError (Some 429%Z) None)) "data:image/jpeg;base64,AA==").
  reflexivity.
Defined.

(** X9 for a remote model that is overloaded twice and then reads the receipt. *)
Lemma analyzeReceipt_retries_overloaded_witness :
  analyzeReceipt Latin.toUpperCase "key"
    (λ call, if decide (call < 2)%nat then ReceiptFailure Sample.overloaded
             else ReceiptAnswer (Some "2024-01-02") (Some "Sushi Bar")
                    (Some (Num (dec 4500 1))) (Some "JPY") (Some "meal"))
    "data:image/jpeg;base64,AA=="
  = Resolved (OCRResult.mk (Some "2024-01-02") (Some "Sushi Bar")
                (Some (Num (dec 4500 1))) (Some "JPY")
                (Some (receipt_category Latin.toUpperCase (Some "meal")))).
Proof.
  apply (analyzeReceipt_retries_overloaded Latin.toUpperCase "key" _
           "data:image/jpeg;base64,AA==" 2); [done | lia | | reflexivity].
  intros j Hj. exists Sample.overloaded. split_and!; [| reflexivity | reflexivity].
  by case_decide.
Defined.

(** ** The expense form: scans and edits *)

Lemma t_unknownMerchant (language : Language) : t language "unknownMerchant" ≠ EmptyString.
Proof. by destruct language. Qed.

Lemma str_or_not_empty (a b : string) : b ≠ EmptyString → str_or a b ≠ EmptyString.
Proof. unfold str_or. by case_decide. Qed.

Lemma js_mul_one (v : number) :
  representable v → v ≠ NaN → v ≠ Null → js_mul v (Num 1) = v.
Proof.
  destruct v as [q | negative | |]; try done; intros Hq _ _.
  - unfold js_mul. simpl. by replace (q * 1)%Qc with q by ring.
  - destruct negative; by_evaluation.
Qed.

Lemma opt_js_or_amount (a : option number) :
  (∀ v, a = Some v → representable v) →
  representable (ExpenseForm.opt_js_or a (Num 0))
  ∧ ExpenseForm.opt_js_or a (Num 0) ≠ NaN
  ∧ ExpenseForm.opt_js_or a (Num 0) ≠ Null.
Proof.
  intros Ha. destruct a as [v |]; simpl; [| done].
  specialize (Ha v eq_refl). rewrite js_or_amount. by destruct v.
Qed.

Lemma Currency_value_not_empty (c : Currency) : Currency_value c ≠ EmptyString.
Proof. by destruct c. Qed.

Section Scan.
Context (toUpperCase : string → string) (language : Language).
Context (apiKey : string) (generateReceipt : nat → receipt_attempt)
  (generateContent : nat → attempt) (trip : Trip).

Lemma updateRate_sets_rate (currency date : string) (formData : ExpenseForm.FormData) :
  ∃ rate,
    ExpenseForm.updateRate apiKey generateContent trip currency date formData
    = ExpenseForm.set_exchangeRate rate formData.
Proof.
  unfold ExpenseForm.updateRate. case_decide; [eauto |].
  destruct (getEstimatedExchangeRate _ _ _ _ _); [eauto |].
  exists (ExpenseForm.exchangeRate formData). by destruct formData.
Qed.

(** X12. A scan either leaves the form as it was, which is what happens on
    every failure and always when no key is configured, or it stores the
    resized image and marks the form as verified; then the merchant is not
    empty, and the expense keeps its id, its trip and its payment method. *)
Theorem scan_outcome (resized : option (Promise string))
    (formData : ExpenseForm.FormData) :
  let scanned :=
    ExpenseForm.handleFileChange toUpperCase language apiKey generateReceipt
      generateContent trip resized formData in
  (apiKey = EmptyString → scanned = formData)
  ∧ (scanned = formData
     ∨ ∃ resizedBase64,
         resized = Some (Resolved resizedBase64)
         ∧ ExpenseForm.receiptImage scanned = resizedBase64
         ∧ ExpenseForm.isVerified scanned = true
         ∧ ExpenseForm.merchant scanned ≠ EmptyString
         ∧ ExpenseForm.id scanned = ExpenseForm.id formData
         ∧ ExpenseForm.tripId scanned = ExpenseForm.tripId formData
         ∧ ExpenseForm.paymentMethod scanned = ExpenseForm.paymentMethod formData).
Proof.
  intros scanned. subst scanned. unfold ExpenseForm.handleFileChange. split.
  - intros ->. destruct resized as [[resizedBase64 | e] |]; done.
  - destruct resized as [[resizedBase64 | e] |]; [| by left | by left].
    destruct (analyzeReceipt _ _ _ _) as [ocrResult | e]; [| by left].
    right. exists resizedBase64. split; [done |].
    match goal with
    | |- context [ExpenseForm.mk ?a ?b ?c ?d ?e ?f ?g ?h ?i ?j ?k] =>
        set (updated := ExpenseForm.mk a b c d e f g h i j k)
    end.
    assert (ExpenseForm.merchant updated ≠ EmptyString) as Hmerchant.
    { simpl. apply str_or_not_empty, t_unknownMerchant. }
    destruct (_ || _); [| done].
    destruct (updateRate_sets_rate
                (ExpenseForm.opt_str_or (OCRResult.currency ocrResult)
                   (ExpenseForm.currencyOriginal formData))
                (ExpenseForm.opt_str_or (OCRResult.date ocrResult)
                   (ExpenseForm.date formData))
                updated) as [rate ->].
    done.
Qed.

(** X13. A receipt in the base currency of the trip is booked at its face
    value: after the scan the rate is 1, and the expense the form submits
    has the amount the receipt shows as its amount in base currency (0 when
    the receipt shows none). The amount the receipt shows is a number that
    JavaScript can hold. *)
Theorem scan_in_base_currency (resizedBase64 : string) (ocrResult : OCRResult)
    (formData : ExpenseForm.FormData) :
  analyzeReceipt toUpperCase apiKey generateReceipt resizedBase64 = Resolved ocrResult →
  OCRResult.currency ocrResult = Some (Currency_value (Trip.baseCurrency trip)) →
  (∀ v, OCRResult.amount ocrResult = Some v → representable v) →
  let scanned :=
    ExpenseForm.handleFileChange toUpperCase language apiKey generateReceipt
      generateContent trip (Some (Resolved resizedBase64)) formData in
  ExpenseForm.currencyOriginal scanned = Currency_value (Trip.baseCurrency trip)
  ∧ ExpenseForm.exchangeRate scanned = Num 1
  ∧ Expense.amountBase (ExpenseForm.handleSubmit scanned)
    = ExpenseForm.opt_js_or (OCRResult.amount ocrResult) (Num 0).
Proof.
  intros Hocr Hcurrency Hamount scanned. subst scanned.
  unfold ExpenseForm.handleFileChange. rewrite Hocr, Hcurrency.
  pose proof (Currency_value_not_empty (Trip.baseCurrency trip)) as Hbase.
  assert (ExpenseForm.opt_str_or (Some (Currency_value (Trip.baseCurrency trip)))
            (ExpenseForm.currencyOriginal formData)
          = Currency_value (Trip.baseCurrency trip)) as ->.
  { unfold ExpenseForm.opt_str_or, str_or. simpl. by case_decide. }
  assert (ExpenseForm.opt_truthy (Some (Currency_value (Trip.baseCurrency trip))) = true)
    as ->.
  { simpl. by apply bool_decide_eq_true. }
  simpl. unfold ExpenseForm.updateRate. case_decide; [| done]. simpl.
  split_and!; [done | done |].
  destruct (opt_js_or_amount (OCRResult.amount ocrResult) Hamount) as (Hr & Hnan & Hnull).
  rewrite js_or_amount, js_or_rate.
  destruct (ExpenseForm.opt_js_or (OCRResult.amount ocrResult) (Num 0)) as [q | negative | |];
    try done; by apply js_mul_one.
Qed.

End Scan.

(** X13 for a receipt in dollars scanned into a form of the trip to Tokyo, whose base currency is the dollar. *)
Lemma scan_in_base_currency_witness :
  let scanned :=
    ExpenseForm.handleFileChange Latin.toUpperCase en "key"
      (λ _, ReceiptAnswer (Some "2024-01-02") (Some "Diner") (Some (Num (dec 12 1)))
              (Some "USD") (Some "meal"))
      (λ _, Answer None) Sample.tokyo
      (Some (Resolved "data:image/jpeg;base64,AA==")) Sample.form_euro in
  ExpenseForm.currencyOriginal scanned = "USD"
  ∧ ExpenseForm.exchangeRate scanned = Num 1
  ∧ Expense.amountBase (ExpenseForm.handleSubmit scanned) = Num (dec 12 1).
Proof.
  apply (scan_in_base_currency Latin.toUpperCase en "key"
           (λ _, ReceiptAnswer (Some "2024-01-02") (Some "Diner") (Some (Num (dec 12 1)))
                   (Some "USD") (Some "meal"))
           (λ _, Answer None) Sample.tokyo
           "data:image/jpeg;base64,AA=="
           (OCRResult.mk (Some "2024-01-02") (Some "Diner") (Some (Num (dec 12 1)))
              (Some "USD") (Some MEAL))
           Sample.form_euro); [reflexivity | reflexivity |].
  intros v [= <-]. by_evaluation.
Defined.

(** X14. Opening a saved expense in the form and saving it unchanged stores
    the same expense again, provided the expense has an id, a date and a
    currency, belongs to the trip, and holds a number as amount and a rate
    other than 0 (a rate of 0 would be replaced by 1). *)
Theorem edit_without_change (trip : Trip) (formData : ExpenseForm.FormData)
    (uuid today : string) (amount : Qc) :
  ExpenseForm.id formData ≠ EmptyString →
  ExpenseForm.date formData ≠ EmptyString →
  ExpenseForm.currencyOriginal formData ≠ EmptyString →
  ExpenseForm.tripId formData = Trip.id trip →
  ExpenseForm.amountOriginal formData = Num amount →
  truthy (ExpenseForm.exchangeRate formData) = true →
  ExpenseForm.handleSubmit
    (ExpenseForm.initial trip (Some (ExpenseForm.handleSubmit formData)) uuid today)
  = ExpenseForm.handleSubmit formData.
Proof.
  destruct formData as [id tripId date category merchant amountOriginal
                          currencyOriginal exchangeRate paymentMethod receiptImage
                          isVerified].
  simpl. intros Hid Hdate Hcurrency -> -> Hrate.
  unfold ExpenseForm.initial, ExpenseForm.handleSubmit. simpl.
  assert (∀ a b, a ≠ EmptyString → str_or a b = a) as Hor.
  { intros a b Ha. unfold str_or. by case_decide. }
  rewrite !Hor by done. rewrite !js_or_amount.
  assert (js_or exchangeRate (Num 1) = exchangeRate) as -> by (unfold js_or; by rewrite Hrate).
  assert (js_or exchangeRate (Num 1) = exchangeRate) as -> by (unfold js_or; by rewrite Hrate).
  done.
Qed.

(** X14 for the sample form of one euro at a rate of 0.125. *)
Lemma edit_without_change_witness :
  ExpenseForm.handleSubmit
    (ExpenseForm.initial Sample.tokyo (Some (ExpenseForm.handleSubmit Sample.form_eighth))
       "u1" "2024-02-01")
  = ExpenseForm.handleSubmit Sample.form_eighth.
Proof.
  apply (edit_without_change Sample.tokyo Sample.form_eighth "u1" "2024-02-01" 1);
    by_evaluation.
Defined.

(** ** The chart of the dashboard *)

Lemma binary64_is_total (q : Qc) : is_total (binary64 q).
Proof. unfold binary64. case_decide; [done |]. by case_bool_decide. Qed.

Lemma js_add_is_total (v a : number) :
  is_total v → written_as_is a → is_total (js_add v a).
Proof.
  destruct v as [x | negative | |], a as [y | negative' | |];
    try done; intros _ _; unfold js_add; simpl; apply binary64_is_total.
Qed.

Lemma js_or_is_total (v : number) : is_total v → js_or v (Num 0) = v.
Proof.
  destruct v as [x | negative | |]; try done. intros _.
  rewrite js_or_amount. done.
Qed.

Lemma totalSpent_snoc (expenses : list Expense) (e : Expense) :
  TripDashboard.totalSpent (expenses ++ [e])
  = js_add (TripDashboard.totalSpent expenses) (Expense.amountBase e).
Proof. unfold TripDashboard.totalSpent. by rewrite foldl_app. Qed.

Lemma totalSpent_is_total (expenses : list Expense) :
  Forall (λ e, written_as_is (Expense.amountBase e)) expenses →
  is_total (TripDashboard.totalSpent expenses).
Proof.
  induction expenses as [| e expenses IH] using rev_ind; intros Hall; [done |].
  apply Forall_app in Hall as [Hall He]. rewrite Forall_singleton in He.
  rewrite totalSpent_snoc. apply js_add_is_total; [by apply IH | done].
Qed.

Lemma chartData_snoc (expenses : list Expense) (e : Expense) :
  TripDashboard.chartData (expenses ++ [e])
  = TripDashboard.groups_add (slice_of e) (Expense.amountBase e)
      (TripDashboard.chartData expenses).
Proof. unfold TripDashboard.chartData. by rewrite foldl_app. Qed.

Lemma keys_groups_add (key : string) (amount : number) (groups : list (string * number)) :
  (TripDashboard.groups_add key amount groups).*1
  = if decide (key ∈ groups.*1) then groups.*1 else groups.*1 ++ [key].
Proof.
  induction groups as [| [k v] groups IH]; [done |].
  cbn [TripDashboard.groups_add].
  destruct (decide (k = key)) as [-> | Hne]; rewrite !fmap_cons; cbn [fst].
  - rewrite decide_True by set_solver. done.
  - rewrite IH. destruct (decide (key ∈ groups.*1)) as [Hin | Hnot].
    + rewrite decide_True by set_solver. done.
    + rewrite decide_False by set_solver. done.
Qed.

Lemma elem_of_groups_add (key : string) (amount : number)
    (groups : list (string * number)) (k : string) (v : number) :
  NoDup groups.*1 →
  (k, v) ∈ TripDashboard.groups_add key amount groups →
  (k ≠ key ∧ (k, v) ∈ groups)
  ∨ (k = key
     ∧ ((∃ v0, (key, v0) ∈ groups ∧ v = js_add (js_or v0 (Num 0)) amount)
        ∨ ((key ∉ groups.*1) ∧ v = js_add (Num 0) amount))).
Proof.
  induction groups as [| [k1 v1] groups IH]; simpl.
  - intros _ Hin. apply list_elem_of_singleton in Hin as [= -> ->].
    right. split; [done |]. right. split; [set_solver | done].
  - rewrite NoDup_cons. intros [Hk1 Hnd].
    destruct (decide (k1 = key)) as [-> | Hne].
    + intros [[= -> ->] | Hin]%elem_of_cons.
      * right. split; [done |]. left. exists v1. split; [by left | done].
      * left. split; [| by right].
        intros ->. apply Hk1. apply list_elem_of_fmap. by exists (key, v).
    + intros [[= -> ->] | Hin]%elem_of_cons.
      * left. split; [done | by left].
      * destruct (IH Hnd Hin) as [[Hk Hin'] | [-> [(v0 & Hv0 & ->) | [Hnot ->]]]].
        -- left. split; [done | by right].
        -- right. split; [done |]. left. exists v0. split; [by right | done].
        -- right. split; [done |]. right. split; [| done].
           simpl. set_solver.
Qed.

Lemma chartData_keys (expenses : list Expense) :
  NoDup (TripDashboard.chartData expenses).*1
  ∧ ∀ name : string,
      name ∈ (TripDashboard.chartData expenses).*1
      ↔ ∃ e, e ∈ expenses ∧ slice_of e = name.
Proof.
  induction expenses as [| e expenses [IHnd IHin]] using rev_ind.
  - split; [constructor |]. intros name. split; [by intros ?%elem_of_nil |].
    by intros (e & ?%elem_of_nil & _).
  - rewrite chartData_snoc, keys_groups_add. split.
    + case_decide as Hin; [done |]. apply NoDup_app. split_and!; [done | | apply NoDup_singleton].
      intros k Hk ->%list_elem_of_singleton. done.
    + intros name. case_decide as Hin.
      * rewrite IHin. split.
        -- intros (e' & He' & Hname). exists e'. split; [set_solver | done].
        -- intros (e' & [He' | ->%list_elem_of_singleton]%elem_of_app & Hname); [eauto |].
           apply IHin. by rewrite <- Hname.
      * rewrite elem_of_app, IHin, list_elem_of_singleton. split.
        -- intros [(e' & He' & Hname) | ->].
           ++ exists e'. split; [set_solver | done].
           ++ exists e. split; [set_solver | done].
        -- intros (e' & [He' | ->%list_elem_of_singleton]%elem_of_app & Hname); [eauto |].
           by right.
Qed.

(** X15. The chart has one slice for each category that occurs among the
    expenses, and none else: no name is listed twice, and a name is listed
    exactly when some expense has that category. *)
Theorem chartData_names (expenses : list Expense) :
  NoDup (TripDashboard.chartData expenses).*1
  ∧ ∀ name : string,
      name ∈ (TripDashboard.chartData expenses).*1
      ↔ ∃ e, e ∈ expenses ∧ ExpenseCategory_value (Expense.category e) = name.
Proof. apply chartData_keys. Qed.

Lemma filter_none {A : Type} (P : A → Prop) `{!∀ a, Decision (P a)} (l : list A) :
  (∀ x, x ∈ l → ¬ P x) → filter P l = [].
Proof.
  induction l as [| y l IH]; intros Hl; [done |].
  rewrite filter_cons_False by (apply Hl; by left).
  apply IH. intros x Hx. apply Hl. by right.
Qed.

Lemma in_slice_snoc (name : string) (expenses : list Expense) (e : Expense) :
  in_slice name (expenses ++ [e])
  = in_slice name expenses ++ (if decide (slice_of e = name) then [e] else []).
Proof.
  unfold in_slice. by rewrite filter_app.
Qed.

Lemma chartData_slice (expenses : list Expense) (name : string) (value : number) :
  Forall (λ e, written_as_is (Expense.amountBase e)) expenses →
  (name, value) ∈ TripDashboard.chartData expenses →
  value = TripDashboard.totalSpent (in_slice name expenses).
Proof.
  revert value. induction expenses as [| e expenses IH] using rev_ind;
    intros value Hall Hin; [by apply elem_of_nil in Hin |].
  apply Forall_app in Hall as [Hall He]. rewrite Forall_singleton in He.
  rewrite chartData_snoc in Hin. rewrite in_slice_snoc.
  destruct (chartData_keys expenses) as [Hnd Hkeys].
  apply elem_of_groups_add in Hin
    as [[Hne Hin] | [-> [(v0 & Hv0 & ->) | [Hnot ->]]]]; [| | | done].
  - rewrite decide_False by done. rewrite app_nil_r. by apply IH.
  - rewrite decide_True by done. rewrite totalSpent_snoc.
    rewrite (IH v0 Hall Hv0).
    rewrite js_or_is_total; [done |].
    apply totalSpent_is_total. by apply Forall_filter_2.
  - rewrite decide_True by done. rewrite totalSpent_snoc.
    replace (in_slice (slice_of e) expenses) with (@nil Expense); [done |].
    symmetry. apply filter_none. intros x Hx Hslice.
    apply Hnot, Hkeys. by exists x.
Qed.

(** X16. When every amount is a finite number or null (each is, among the
    expenses read from the localStorage store), each slice of the chart is
    the total of the expenses of its category, computed as the dashboard
    computes its total: the amounts of the category added up in binary64 in
    the order of the expenses. *)
Theorem chartData_values (expenses : list Expense) :
  Forall (λ e, written_as_is (Expense.amountBase e)) expenses →
  ∀ (name : string) (value : number),
    (name, value) ∈ TripDashboard.chartData expenses →
    value = TripDashboard.totalSpent (in_slice name expenses).
Proof. intros Hall name value. by apply chartData_slice. Qed.

(** X16 for the three sample expenses. *)
Lemma chartData_values_witness :
  Forall (λ e, written_as_is (Expense.amountBase e))
    [Sample.lunch; Sample.hotel; Sample.taxi]
  ∧ ∀ (name : string) (value : number),
      (name, value) ∈ TripDashboard.chartData [Sample.lunch; Sample.hotel; Sample.taxi] →
      value
      = TripDashboard.totalSpent (in_slice name [Sample.lunch; Sample.hotel; Sample.taxi]).
Proof.
  assert (Forall (λ e, written_as_is (Expense.amountBase e))
            [Sample.lunch; Sample.hotel; Sample.taxi]) as Hall by (by_evaluation).
  split; [exact Hall |].
  exact (chartData_values [Sample.lunch; Sample.hotel; Sample.taxi] Hall).
Defined.

(** The slices need not add up to the total spent: binary64 addition is not
    associative. Of three expenses of 0.1, 0.1 and 1.1, the second for
    lodging and the others for meals, the total spent is 1.3 and the two
    slices add up to 1.3000000000000003. *)
Lemma chartData_slices_do_not_add_up :
  TripDashboard.totalSpent Sample.three_small = Num (dec 13 10)
  ∧ foldl js_add (Num 0) (TripDashboard.chartData Sample.three_small).*2
    = Num (dec 13000000000000003 10000000000000000)
  ∧ dec 13 10 ≠ dec 13000000000000003 10000000000000000.
Proof. by_evaluation. Qed.

(** ** The handlers of the dashboard over the localStorage service *)

Lemma upsert_same_key_twice {A : Type} (key : A → string) (x y : A) (l : list A) :
  key x = key y → upsert key x (upsert key y l) = upsert key x l.
Proof.
  intros Hxy. induction l as [| z l IH].
  - rewrite !upsert_nil, upsert_cons. by rewrite decide_True.
  - rewrite (upsert_cons key y), (upsert_cons key x z).
    destruct (decide (key z = key y)) as [Hzy | Hzy].
    + rewrite upsert_cons, decide_True by done.
      rewrite decide_True by congruence. done.
    + rewrite upsert_cons. rewrite !decide_False by congruence. by rewrite IH.
Qed.

Lemma upsert_elem {A : Type} (key : A → string) (x : A) (l : list A) :
  NoDup (key <$> l) → x ∈ l → upsert key x l = l.
Proof.
  induction l as [| z l IH]; intros Hnd Hx; [by apply elem_of_nil in Hx |].
  rewrite fmap_cons, NoDup_cons in Hnd. destruct Hnd as [Hz Hnd].
  rewrite upsert_cons. apply elem_of_cons in Hx as [-> | Hx].
  - by rewrite decide_True.
  - rewrite decide_False; [by rewrite IH |].
    intros Heq. apply Hz. rewrite Heq. by apply list_elem_of_fmap_2.
Qed.

Lemma loadData_saveTrip (trip : Trip) (ls : LocalStorage.localStorage)
    (st : TripDashboard.State) :
  Trip.id trip ≠ EmptyString →
  TripDashboard.loadData (Trip.id trip) (LocalStorage.saveTrip trip ls) st
  = Some (TripDashboard.mkState (Some (Trip.json trip))
            (LocalStorage.getExpenses (Trip.id trip) ls)
            (js_or (JSON_number (Trip.initialExchangeRate trip)) (Num 1))).
Proof.
  intros Hid. unfold TripDashboard.loadData. rewrite decide_False by done.
  rewrite saveTrip_unfold. unfold LocalStorage.getTrips at 1. simpl.
  rewrite (fmap_upsert Trip.id Trip.json) by done.
  destruct (list_find_upsert Trip.id (Trip.json trip)
              (Trip.json <$> LocalStorage.getTrips ls)) as [i Hfind].
  simpl in Hfind. rewrite Hfind. done.
Qed.

Lemma js_or_JSON_rate (rate : number) :
  js_or (JSON_number rate) (Num 1) = effective_rate (JSON_number rate).
Proof. apply js_or_rate. Qed.

(** X17. Closing a trip and reopening it, or the reverse, gives back the
    trip as it was: the first toggle changes the status and nothing else,
    the second restores the state of the dashboard; the expenses in the
    store are never touched, and when the trip was read from the store the
    list of trips is again what it was. *)
Theorem toggle_status_twice (ls : LocalStorage.localStorage)
    (st : TripDashboard.State) (current : Trip) :
  TripDashboard.trip st = Some current →
  let once := TripDashboard.handleToggleTripStatus ls st in
  let twice := TripDashboard.handleToggleTripStatus once.1 once.2 in
  (∃ toggled, TripDashboard.trip once.2 = Some toggled
     ∧ Trip.status toggled ≠ Trip.status current
     ∧ TripDashboard.set_status (Trip.status current) toggled = current)
  ∧ twice.2 = st
  ∧ LocalStorage.voyage_expenses twice.1 = LocalStorage.voyage_expenses ls
  ∧ (holds_json ls → unique_ids ls → current ∈ LocalStorage.getTrips ls →
     LocalStorage.getTrips twice.1 = LocalStorage.getTrips ls).
Proof.
  intros Htrip once twice. subst once twice.
  destruct st as [shown expenses tempRate]. simpl in Htrip. subst shown.
  unfold TripDashboard.handleToggleTripStatus.
  cbn [TripDashboard.trip TripDashboard.expenses TripDashboard.tempRate fst snd].
  set (toggled := TripDashboard.set_status _ current).
  assert (TripDashboard.set_status
            match Trip.status toggled with active => closed | closed => active end
            toggled = current) as Hback.
  { subst toggled. destruct current as [? ? ? ? ? ? ? ? ? []]; done. }
  rewrite Hback. split_and!.
  - exists toggled. split_and!; [done | |].
    + subst toggled. by destruct (Trip.status current).
    + subst toggled. by destruct current.
  - done.
  - done.
  - intros Hj [Hu _] Hin.
    rewrite getTrips_saveTrip by (by apply holds_json_saveTrip).
    rewrite getTrips_saveTrip by done.
    rewrite upsert_same_key_twice by (subst toggled; by destruct current).
    destruct Hj as [Hj _]. rewrite Forall_forall in Hj.
    rewrite (proj1 (Trip_json_fixed current)) by (by apply Hj).
    by apply upsert_elem.
Qed.

(** X17 for the trip to Tokyo in the sample store. *)
Lemma toggle_status_twice_witness :
  let st := TripDashboard.mkState (Some Sample.tokyo) [Sample.lunch; Sample.hotel] (Num 1) in
  let once := TripDashboard.handleToggleTripStatus Sample.store st in
  let twice := TripDashboard.handleToggleTripStatus once.1 once.2 in
  (∃ toggled, TripDashboard.trip once.2 = Some toggled
     ∧ Trip.status toggled ≠ Trip.status Sample.tokyo
     ∧ TripDashboard.set_status (Trip.status Sample.tokyo) toggled = Sample.tokyo)
  ∧ twice.2 = st
  ∧ LocalStorage.voyage_expenses twice.1 = LocalStorage.voyage_expenses Sample.store
  ∧ (holds_json Sample.store → unique_ids Sample.store →
     Sample.tokyo ∈ LocalStorage.getTrips Sample.store →
     LocalStorage.getTrips twice.1 = LocalStorage.getTrips Sample.store).
Proof.
  apply (toggle_status_twice Sample.store
           (TripDashboard.mkState (Some Sample.tokyo) [Sample.lunch; Sample.hotel] (Num 1))
           Sample.tokyo).
  reflexivity.
Defined.

(** X18. A rate saved on the dashboard is the rate of the trip from then on:
    the trip in the store differs from the one shown only in its rate, and
    reloading the dashboard shows it, with the rate field starting from the
    saved rate as JSON reads it back, or from 1 when that is 0 or not a
    number (a NaN or an infinity is read back as null). Expenses are not
    touched. *)
Theorem saved_rate_is_reloaded (ls : LocalStorage.localStorage)
    (st : TripDashboard.State) (current : Trip) (rate : number) :
  TripDashboard.trip st = Some current →
  Trip.id current ≠ EmptyString →
  let saved := TripDashboard.handleSaveRate ls (TripDashboard.setTempRate rate st) in
  TripDashboard.trip saved.2 = Some (TripDashboard.set_initialExchangeRate rate current)
  ∧ LocalStorage.voyage_expenses saved.1 = LocalStorage.voyage_expenses ls
  ∧ TripDashboard.loadData (Trip.id current) saved.1 TripDashboard.initial
    = Some (TripDashboard.mkState
              (Some (Trip.json (TripDashboard.set_initialExchangeRate rate current)))
              (LocalStorage.getExpenses (Trip.id current) ls)
              (effective_rate (JSON_number rate))).
Proof.
  intros Htrip Hid saved. subst saved.
  unfold TripDashboard.handleSaveRate, TripDashboard.setTempRate. simpl.
  rewrite Htrip. simpl. split_and!; [done | done |].
  change (Trip.id current)
    with (Trip.id (TripDashboard.set_initialExchangeRate rate current)) at 1.
  rewrite loadData_saveTrip by done. simpl. by rewrite js_or_JSON_rate.
Qed.

(** X18 for the trip to Tokyo and a rate field that was cleared. *)
Lemma saved_rate_is_reloaded_witness :
  let st := TripDashboard.mkState (Some Sample.tokyo) [Sample.lunch; Sample.hotel] (Num 1) in
  let saved :=
    TripDashboard.handleSaveRate Sample.store (TripDashboard.setTempRate NaN st) in
  TripDashboard.trip saved.2 = Some (TripDashboard.set_initialExchangeRate NaN Sample.tokyo)
  ∧ LocalStorage.voyage_expenses saved.1 = LocalStorage.voyage_expenses Sample.store
  ∧ TripDashboard.loadData (Trip.id Sample.tokyo) saved.1 TripDashboard.initial
    = Some (TripDashboard.mkState
              (Some (Trip.json (TripDashboard.set_initialExchangeRate NaN Sample.tokyo)))
              (LocalStorage.getExpenses (Trip.id Sample.tokyo) Sample.store)
              (effective_rate (JSON_number NaN))).
Proof.
  apply (saved_rate_is_reloaded Sample.store
           (TripDashboard.mkState (Some Sample.tokyo) [Sample.lunch; Sample.hotel] (Num 1))
           Sample.tokyo NaN); [reflexivity | done].
Defined.

(** X19. A trip created in the wizard is the trip the dashboard opens: after
    the wizard saved it, loading the dashboard for its id finds it, as JSON
    reads it back, which is the trip itself unless its rate is NaN or an
    infinity or its advance is an infinity, together with the expenses
    stored under its id. *)
Theorem created_trip_is_loaded (wizard : TripWizard.State) (trip : Trip)
    (ls : LocalStorage.localStorage) :
  TripWizard.handleSubmit wizard = Some trip →
  Trip.id trip ≠ EmptyString →
  ∃ st,
    TripDashboard.loadData (Trip.id trip) (LocalStorage.saveTrip trip ls)
      TripDashboard.initial = Some st
    ∧ TripDashboard.trip st = Some (Trip.json trip)
    ∧ (written_as_is (Trip.initialExchangeRate trip) →
       (∀ negative, Trip.advanceAmount trip ≠ Infinity negative) →
       Trip.json trip = trip)
    ∧ TripDashboard.expenses st = LocalStorage.getExpenses (Trip.id trip) ls.
Proof.
  intros Hsubmit Hid. rewrite loadData_saveTrip by done.
  eexists. split_and!; [done | done | | done].
  intros Hrate Hadvance. apply Trip_json_fixed. split; [| done].
  unfold TripWizard.handleSubmit in Hsubmit. case_decide; [done |].
  injection Hsubmit as <-. simpl in *.
  destruct (TripWizard.advanceAmount _) as [v |]; [| done].
  rewrite js_or_amount in *. destruct v as [q | negative | |]; try done.
  by destruct (Hadvance negative).
Qed.

(** X19 for the trip the sample wizard submits. *)
Lemma created_trip_is_loaded_witness :
  ∃ st,
    TripDashboard.loadData (Trip.id Sample.tokyo_cleared_rate)
      (LocalStorage.saveTrip Sample.tokyo_cleared_rate Sample.store)
      TripDashboard.initial = Some st
    ∧ TripDashboard.trip st = Some (Trip.json Sample.tokyo_cleared_rate)
    ∧ (written_as_is (Trip.initialExchangeRate Sample.tokyo_cleared_rate) →
       (∀ negative, Trip.advanceAmount Sample.tokyo_cleared_rate ≠ Infinity negative) →
       Trip.json Sample.tokyo_cleared_rate = Sample.tokyo_cleared_rate)
    ∧ TripDashboard.expenses st
      = LocalStorage.getExpenses (Trip.id Sample.tokyo_cleared_rate) Sample.store.
Proof.
  apply (created_trip_is_loaded Sample.wizard_cleared_rate Sample.tokyo_cleared_rate
           Sample.store); [by_evaluation | done].
Defined.

(** X20. Saving a new expense and then deleting it restores the store and
    the list on the dashboard: when the store holds JSON and no expense has
    the id yet, the dashboard first shows the expense at the end of the
    trip's list, and after the deletion the trips and the expenses of the
    store are what they were. *)
Theorem save_then_delete_restores (id : string) (expense : Expense)
    (ls : LocalStorage.localStorage) (st : TripDashboard.State) :
  holds_json ls →
  Expense.id expense ∉ Expense.id <$> LocalStorage.allExpenses ls →
  id ≠ EmptyString →
  let saved := TripDashboard.handleSaveExpense id expense ls st in
  let deleted :=
    TripDashboard.handleDelete true id (Expense.id expense) saved.1 saved.2 in
  (Expense.tripId expense = id →
   TripDashboard.expenses saved.2
   = LocalStorage.getExpenses id ls ++ [Expense.json expense])
  ∧ LocalStorage.allExpenses deleted.1 = LocalStorage.allExpenses ls
  ∧ LocalStorage.getTrips deleted.1 = LocalStorage.getTrips ls
  ∧ TripDashboard.expenses deleted.2 = LocalStorage.getExpenses id ls.
Proof.
  intros Hj Hnew Hid saved deleted. subst saved deleted.
  unfold TripDashboard.handleSaveExpense, TripDashboard.handleDelete,
    TripDashboard.refreshExpenses.
  rewrite !decide_False by done. simpl.
  assert (LocalStorage.allExpenses (LocalStorage.saveExpense expense ls)
          = LocalStorage.allExpenses ls ++ [Expense.json expense]) as Hsaved.
  { rewrite allExpenses_saveExpense by done. by apply upsert_not_in. }
  assert (LocalStorage.allExpenses
            (LocalStorage.deleteExpense (Expense.id expense)
               (LocalStorage.saveExpense expense ls))
          = LocalStorage.allExpenses ls) as Hdeleted.
  { rewrite allExpenses_deleteExpense by (by apply holds_json_saveExpense).
    rewrite Hsaved, filter_app, filter_key_ne_id by done.
    rewrite filter_cons_False by (simpl; by intros []). by rewrite filter_nil, app_nil_r. }
  split_and!.
  - intros Htrip. unfold LocalStorage.getExpenses. rewrite Hsaved, filter_app.
    by rewrite filter_cons_True, filter_nil.
  - done.
  - by rewrite getTrips_deleteExpense.
  - unfold LocalStorage.getExpenses. by rewrite Hdeleted.
Qed.

(** X20 for the sample store and the expense of the sample form in euros. *)
Lemma save_then_delete_restores_witness :
  let st := TripDashboard.mkState (Some Sample.tokyo) [Sample.lunch; Sample.hotel] (Num 1) in
  let expense := ExpenseForm.handleSubmit Sample.form_euro in
  let saved := TripDashboard.handleSaveExpense "t1" expense Sample.store st in
  let deleted :=
    TripDashboard.handleDelete true "t1" (Expense.id expense) saved.1 saved.2 in
  (Expense.tripId expense = "t1" →
   TripDashboard.expenses saved.2
   = LocalStorage.getExpenses "t1" Sample.store ++ [Expense.json expense])
  ∧ LocalStorage.allExpenses deleted.1 = LocalStorage.allExpenses Sample.store
  ∧ LocalStorage.getTrips deleted.1 = LocalStorage.getTrips Sample.store
  ∧ TripDashboard.expenses deleted.2 = LocalStorage.getExpenses "t1" Sample.store.
Proof.
  apply (save_then_delete_restores "t1" (ExpenseForm.handleSubmit Sample.form_euro)
           Sample.store
           (TripDashboard.mkState (Some Sample.tokyo) [Sample.lunch; Sample.hotel] (Num 1)));
    [by_evaluation | by_evaluation | done].
Defined.

(** ** The trip wizard *)

Section WizardSession.
Context (apiKey : string) (generateContent : nat → attempt) (today : string).








End WizardSession.


(** The traveler name of the sample session is the one typed, not the
    default of the field. *)
Lemma wizard_saves_typed_traveler :
  Trip.travelerName Sample.tokyo_alice = "Alice".
Proof. reflexivity. Qed.

(** ** The settings *)

Lemma Language_value_not_empty (lang : Language) :
  Settings.Language_value lang ≠ EmptyString.
Proof. by destruct lang. Qed.

Lemma settings_reload_step (st : Settings.State) (event : settings_event) :
  Settings.mount (Settings.voyage_lang st) (Settings.voyage_theme st) = st →
  Settings.mount (Settings.voyage_lang (settings_step st event))
    (Settings.voyage_theme (settings_step st event))
  = settings_step st event.
Proof.
  destruct st as [language theme storedLang storedTheme dark].
  unfold Settings.mount. simpl. intros Hst. destruct event as [lang |]; simpl.
  - assert (str_or (Settings.Language_value lang) "pt" = Settings.Language_value lang) as ->.
    { unfold str_or. rewrite decide_False; [done | apply Language_value_not_empty]. }
    case_decide; by injection Hst as _ <- <-.
  - unfold Settings.toggleTheme. simpl.
    assert (language = str_or (default EmptyString storedLang) "pt") as <-.
    { case_decide; by injection Hst. }
    destruct (decide (theme = "light")); reflexivity.
Qed.

Lemma mount_stored_lang (storedLang storedTheme : option string) :
  Settings.voyage_lang (Settings.mount storedLang storedTheme) = storedLang.
Proof. unfold Settings.mount. by case_decide. Qed.

Lemma mount_stored_theme (storedLang storedTheme : option string) :
  Settings.voyage_theme (Settings.mount storedLang storedTheme) = storedTheme.
Proof. unfold Settings.mount. by case_decide. Qed.

Lemma mount_dark (storedLang storedTheme : option string) :
  Settings.dark (Settings.mount storedLang storedTheme)
  = bool_decide (Settings.theme (Settings.mount storedLang storedTheme) = "dark").
Proof. unfold Settings.mount. by case_decide. Qed.

(** X22. The settings survive a reload: after any sequence of language
    choices and theme toggles, mounting the provider again over the stored
    items gives the very state the session ended in; and in that state the
    document carries the class [dark] exactly when the theme is dark. *)
Theorem settings_survive_reload (storedLang storedTheme : option string)
    (events : list settings_event) :
  let st := settings_session storedLang storedTheme events in
  Settings.mount (Settings.voyage_lang st) (Settings.voyage_theme st) = st
  ∧ Settings.dark st = bool_decide (Settings.theme st = "dark").
Proof.
  intros st. subst st.
  assert (Settings.mount
            (Settings.voyage_lang (settings_session storedLang storedTheme events))
            (Settings.voyage_theme (settings_session storedLang storedTheme events))
          = settings_session storedLang storedTheme events) as Hreload.
  { unfold settings_session.
    induction events as [| event events IH] using rev_ind.
    - cbn [foldl]. by rewrite !mount_stored_lang, !mount_stored_theme.
    - rewrite foldl_app. by apply settings_reload_step. }
  split; [done |]. rewrite <- Hreload. apply mount_dark.
Qed.

(** ** The translations *)

Lemma property_is_Some (table : list (string * string)) (key : string) :
  is_Some (property table key) ↔ key ∈ table.*1.
Proof.
  induction table as [| [k v] table IH]; simpl.
  - split; [by intros [? ?] | by intros ?%elem_of_nil].
  - case_decide as Hk.
    + subst. split; [intros _; by left | by eexists].
    + rewrite IH. split; [by right |]. by intros [-> | ?]%elem_of_cons.
Qed.

(** X23. The two languages translate the same keys, no translation is
    empty, so that [t] shows the text of the table for every key either
    table lists, and every value of the three enumerations that the views
    pass to [t] (expense category, payment method, trip status) is such a
    key. *)
Theorem translations_complete :
  (∀ key : string,
     is_Some (property (translations en) key) ↔ is_Some (property (translations pt) key))
  ∧ (∀ (language : Language) (key text : string),
       property (translations language) key = Some text →
       text ≠ EmptyString ∧ t language key = text)
  ∧ (∀ (language : Language) (c : ExpenseCategory),
       is_Some (property (translations language) (ExpenseCategory_value c)))
  ∧ (∀ (language : Language) (m : PaymentMethod),
       is_Some (property (translations language) (PaymentMethod_value m)))
  ∧ (∀ (language : Language) (s : TripStatus),
       is_Some (property (translations language) (TripStatus_value s))).
Proof.
  split_and!.
  - intros key. rewrite !property_is_Some. split; revert key; by_evaluation_on_list.
  - intros language key text Hp.
    assert (text ≠ EmptyString) as Hne.
    { apply property_elem_of in Hp. revert Hp.
      change (text ≠ EmptyString)
        with ((λ kv : string * string, kv.2 ≠ EmptyString) (key, text)).
      generalize (key, text). destruct language; by_evaluation_on_list. }
    split; [done |]. unfold t. rewrite Hp. by rewrite decide_False.
  - intros [] []; by eexists.
  - intros [] []; by eexists.
  - intros [] []; by eexists.
Qed.

(** ** Reading back an exported cell *)

Lemma read_quoted_double_quotes (value after : string) :
  (∀ rest, after ≠ String TripDashboard.quote_char rest) →
  read_quoted (TripDashboard.double_quotes value +:+ TripDashboard.quote +:+ after)
  = Some (value, after).
Proof.
  intros Hafter. induction value as [| c value IH].
  - cbn [TripDashboard.double_quotes]. rewrite append_nil.
    unfold TripDashboard.quote. rewrite append_cons, append_nil.
    cbn [read_quoted]. rewrite decide_True by done.
    destruct after as [| c' rest]; [done |].
    rewrite decide_False; [done |]. intros ->. by apply (Hafter rest).
  - cbn [TripDashboard.double_quotes]. case_decide as Hc.
    + subst c. rewrite !append_cons. cbn [read_quoted].
      rewrite !decide_True by done. by rewrite IH.
    + rewrite append_cons. cbn [read_quoted].
      rewrite decide_False by done. by rewrite IH.
Qed.

(** X24. A cell written by [escape] is read back as the text it was written
    from, whatever quotes, semicolons or line breaks the text contains: a
    CSV reader that takes two quotes for one and a single quote for the end
    of the field recovers the text and stops right behind the cell, provided
    the text behind the cell does not begin with a quote (in the export it
    begins with a semicolon or a line feed, or is empty). An absent value is
    written as the empty cell. *)
Theorem escape_is_read_back (value after : string) :
  (∀ rest, after ≠ String TripDashboard.quote_char rest) →
  read_field (TripDashboard.escape (Some value) +:+ after) = Some (value, after)
  ∧ TripDashboard.escape None = TripDashboard.escape (Some EmptyString).
Proof.
  intros Hafter. split; [| done].
  unfold TripDashboard.escape. rewrite !append_assoc.
  unfold TripDashboard.quote at 1. rewrite append_cons, append_nil.
  cbn [read_field]. rewrite decide_True by done.
  by apply read_quoted_double_quotes.
Qed.

(** X24 for a merchant with quotes and a semicolon in its name, followed by the next cell. *)
Lemma escape_is_read_back_witness :
  read_field
    (TripDashboard.escape (Some ("Chez " +:+ TripDashboard.quote +:+ "Léon"
                                 +:+ TripDashboard.quote +:+ "; Paris"))
     +:+ ";")
  = Some ("Chez " +:+ TripDashboard.quote +:+ "Léon" +:+ TripDashboard.quote +:+ "; Paris",
          ";")
  ∧ TripDashboard.escape None = TripDashboard.escape (Some EmptyString).
Proof.
  apply (escape_is_read_back
           ("Chez " +:+ TripDashboard.quote +:+ "Léon" +:+ TripDashboard.quote +:+ "; Paris")
           ";").
  intros rest. discriminate.
Defined.

(** ** The IndexedDB service *)

(** X25. IndexedDB hands back what was saved: after a [saveExpense] whose
    transaction completed, the list of the expense's trip contains the
    expense exactly as it was given (a NaN stays a NaN, where the
    localStorage service reads back null) and no other record with its id;
    the records with other ids are those that were listed before; and the
    store stays in ascending order of id, whatever strict total order that
    of the ids is. *)
Theorem IndexedDB_save_then_read (compare : string → string → comparison)
    `{!KeyOrder compare} (db : IndexedDB.IDBDatabase) (expense : Expense) :
  key_sorted compare Expense.id (IndexedDB.expenses db) →
  let saved := (IndexedDB.saveExpense compare IndexedDB.completes expense db).2 in
  key_sorted compare Expense.id (IndexedDB.expenses saved)
  ∧ IndexedDB.trips saved = IndexedDB.trips db
  ∧ ∃ listed before,
      IndexedDB.getExpenses IndexedDB.completes (Expense.tripId expense) saved
      = Some (Resolved listed)
      ∧ IndexedDB.getExpenses IndexedDB.completes (Expense.tripId expense) db
        = Some (Resolved before)
      ∧ expense ∈ listed
      ∧ (∀ e, e ∈ listed → Expense.id e = Expense.id expense → e = expense)
      ∧ (∀ e, Expense.id e ≠ Expense.id expense → e ∈ listed ↔ e ∈ before).
Proof.
  intros Hsorted saved. subst saved.
  unfold IndexedDB.saveExpense, IndexedDB.getExpenses.
  cbn [snd IndexedDB.performTransaction IndexedDB.expenses IndexedDB.trips]. split_and!.
  - by apply key_sorted_put.
  - done.
  - eexists _, _. split_and!; [done | done | | |].
    + apply list_elem_of_filter. split; [done |].
      apply (elem_of_put Expense.id compare); [done |]. by left.
    + intros e [_ Hin]%list_elem_of_filter Hid.
      apply (elem_of_put Expense.id compare) in Hin; [| done].
      by destruct Hin as [-> | [_ Hne]].
    + intros e Hne. rewrite !list_elem_of_filter.
      rewrite (elem_of_put Expense.id compare expense e _ Hsorted). naive_solver.
Qed.

(** X25 for the order of strings by their bytes, a database with two
    expenses and the expense of the sample form in euros. *)
Lemma IndexedDB_save_then_read_witness :
  let db := IndexedDB.mk [Sample.tokyo] [Sample.lunch; Sample.hotel] in
  let expense := ExpenseForm.handleSubmit Sample.form_euro in
  let saved :=
    (IndexedDB.saveExpense String_as_OT.compare IndexedDB.completes expense db).2 in
  key_sorted String_as_OT.compare Expense.id (IndexedDB.expenses saved)
  ∧ IndexedDB.trips saved = IndexedDB.trips db
  ∧ ∃ listed before,
      IndexedDB.getExpenses IndexedDB.completes (Expense.tripId expense) saved
      = Some (Resolved listed)
      ∧ IndexedDB.getExpenses IndexedDB.completes (Expense.tripId expense) db
        = Some (Resolved before)
      ∧ expense ∈ listed
      ∧ (∀ e, e ∈ listed → Expense.id e = Expense.id expense → e = expense)
      ∧ (∀ e, Expense.id e ≠ Expense.id expense → e ∈ listed ↔ e ∈ before).
Proof.
  apply (IndexedDB_save_then_read String_as_OT.compare
           (IndexedDB.mk [Sample.tokyo] [Sample.lunch; Sample.hotel])
           (ExpenseForm.handleSubmit Sample.form_euro)).
  repeat constructor.
Defined.

(** ** Identifiers *)

Lemma below_16 (v : N) : (v < 16)%N → ∃ n : nat, n < 16 ∧ v = N.of_nat n.
Proof. intros Hv. exists (N.to_nat v). split; lia. Qed.

Lemma toString16_is_hex (v : N) : (v < 16)%N → is_hex (toString16 v) = true.
Proof.
  intros (n & Hn & ->)%below_16.
  do 16 (destruct n as [| n]; [reflexivity |]). lia.
Qed.

Lemma toString16_is_variant (r : N) :
  (r < 16)%N → is_variant (toString16 (N.lor (N.land r 3) 8)) = true.
Proof.
  intros (n & Hn & ->)%below_16.
  do 16 (destruct n as [| n]; [reflexivity |]). lia.
Qed.

Lemma replace_xy_shape (template : string) (random : nat → N) (k : nat) :
  (∀ k, (random k < 16)%N) → plain_template template = true →
  has_shape (shape_of_template template) (replace_xy template random k) = true.
Proof.
  intros Hrandom. revert k. induction template as [| c template IH]; intros k Hplain.
  - done.
  - cbn [plain_template] in Hplain.
    apply andb_true_iff in Hplain as [Hc Hplain].
    apply andb_true_iff in Hc as [Hh Hv].
    apply bool_decide_eq_true in Hh. apply bool_decide_eq_true in Hv.
    cbn [replace_xy shape_of_template].
    destruct (decide (c = "x"%char)) as [-> | Hx].
    + cbn [has_shape]. rewrite decide_True by done.
      by rewrite toString16_is_hex, IH.
    + destruct (decide (c = "y"%char)) as [-> | Hy].
      * cbn [has_shape]. rewrite decide_False by done. rewrite decide_True by done.
        by rewrite toString16_is_variant, IH.
      * cbn [has_shape]. rewrite !decide_False by done.
        rewrite bool_decide_eq_true_2 by done. by rewrite IH.
Qed.

Lemma replace_xy_length (template : string) (random : nat → N) (k : nat) :
  String.length (replace_xy template random k) = String.length template.
Proof.
  revert k. induction template as [| c template IH]; intros k; [done |].
  cbn [replace_xy]. repeat case_decide; cbn [String.length]; by rewrite IH.
Qed.

(** X26. The identifier drawn for a new trip or expense is the one the
    browser generates where it can; otherwise it is built from the template,
    and whatever the random numbers are it is a well-formed UUID of
    version 4: 36 characters, hexadecimal digits in groups of 8, 4, 4, 4 and
    12, the version digit 4 and a variant digit among 8, 9, a and b. *)
Theorem generateUUID_is_v4 (random : nat → N) :
  (∀ k, (random k < 16)%N) →
  (∀ uuid, generateUUID (Some uuid) random = uuid)
  ∧ is_uuid_v4 (generateUUID None random) = true
  ∧ String.length (generateUUID None random) = 36.
Proof.
  intros Hrandom. split_and!; [done | |].
  - unfold is_uuid_v4, generateUUID.
    by apply (replace_xy_shape "xxxxxxxx-xxxx-4xxx-yxxx-xxxxxxxxxxxx").
  - unfold generateUUID. by rewrite replace_xy_length.
Qed.

(** X26 for the random numbers 0, 7, 14, 5, ... *)
Lemma generateUUID_is_v4_witness :
  (∀ uuid, generateUUID (Some uuid) (λ k, N.of_nat (k * 7 mod 16)) = uuid)
  ∧ is_uuid_v4 (generateUUID None (λ k, N.of_nat (k * 7 mod 16))) = true
  ∧ String.length (generateUUID None (λ k, N.of_nat (k * 7 mod 16))) = 36.
Proof.
  apply (generateUUID_is_v4 (λ k, N.of_nat (k * 7 mod 16))).
  intros k. pose proof (Nat.mod_upper_bound (k * 7) 16). lia.
Defined.

(** ** Rounding to binary64 *)

(** Powers of two. *)
Lemma pow2_this (k : Z) : (this (pow2 k) == (2 # 1) ^ k)%Q.
Proof. unfold pow2. cbn [this Q2Qc]. apply Qred_correct. Qed.

Lemma two_pos : (0 < 2 # 1)%Q.
Proof. reflexivity. Qed.

Lemma two_ne_0 : ¬ (2 # 1 == 0)%Q.
Proof. intros H. discriminate H. Qed.

Lemma pow2_pos (k : Z) : (0 < (2 # 1) ^ k)%Q.
Proof. apply Qpower_0_lt, two_pos. Qed.

Lemma pow2_succ (k : Z) : ((2 # 1) ^ (k + 1) == (2 # 1) * (2 # 1) ^ k)%Q.
Proof. rewrite Qpower_plus by apply two_ne_0. rewrite Qpower_1_r. ring. Qed.

Lemma pow2_pred (k : Z) : ((2 # 1) * (2 # 1) ^ (k - 1) == (2 # 1) ^ k)%Q.
Proof.
  rewrite <- pow2_succ. by replace (k - 1 + 1)%Z with k by lia.
Qed.

Lemma pow2_le (j k : Z) : (j ≤ k)%Z → ((2 # 1) ^ j <= (2 # 1) ^ k)%Q.
Proof. intros H. by apply Qpower_le_compat_l. Qed.

Lemma pow2_lt_inv (j k : Z) : ((2 # 1) ^ j < (2 # 1) ^ k)%Q → (j < k)%Z.
Proof. intros H. by apply (Qpower_lt_compat_l_inv (2 # 1)). Qed.

Lemma pow2_Z (k : Z) : (0 ≤ k)%Z → (inject_Z (2 ^ k) == (2 # 1) ^ k)%Q.
Proof. intros H. by rewrite Zpower_Qpower. Qed.

(** The bounds of the binary logarithm. *)
Lemma Z_log2_bounds (n : Z) :
  (0 < n)%Z →
  ((2 # 1) ^ Z.log2 n <= inject_Z n)%Q ∧ (inject_Z n < (2 # 1) * (2 # 1) ^ Z.log2 n)%Q.
Proof.
  intros Hn. destruct (Z.log2_spec n Hn) as [Hlow Hhigh].
  pose proof (Z.log2_nonneg n) as Hnonneg.
  rewrite <- pow2_succ. rewrite <- !pow2_Z by lia.
  rewrite <- Zle_Qle, <- Zlt_Qlt. by rewrite <- Z.add_1_r in Hhigh.
Qed.

Lemma Qc_log2_bounds (a : Qc) :
  (0 < a)%Qc →
  ((2 # 1) ^ Qc_log2 a <= a)%Q ∧ (a < (2 # 1) * (2 # 1) ^ Qc_log2 a)%Q.
Proof.
  intros Ha. unfold Qc_log2.
  destruct a as [[n d] Hcanon]. unfold Qclt in Ha. cbn [this Qnum Qden] in *.
  assert (0 < n)%Z as Hn.
  { unfold Qlt in Ha. simpl in Ha. lia. }
  destruct (Z_log2_bounds n Hn) as [Hn1 Hn2].
  destruct (Z_log2_bounds (Z.pos d) eq_refl) as [Hd1 Hd2].
  set (ln := Z.log2 n) in *. set (ld := Z.log2 (Z.pos d)) in *.
  assert (Hsplit : ((2 # 1) ^ ln == (2 # 1) ^ (ln - ld) * (2 # 1) ^ ld)%Q).
  { rewrite <- Qpower_plus by apply two_ne_0. by replace (ln - ld + ld)%Z with ln by lia. }
  pose proof (pow2_pos (ln - ld)) as Hu. pose proof (pow2_pos ld) as Hw.
  pose proof (pow2_pred (ln - ld)) as Hpred.
  assert (Hq : ((n # d) * inject_Z (Z.pos d) == inject_Z n)%Q).
  { unfold Qeq, Qmult, inject_Z. simpl. lia. }
  assert (Hdpos : (0 < inject_Z (Z.pos d))%Q) by reflexivity.
  set (u := ((2 # 1) ^ (ln - ld))%Q) in *. set (w := ((2 # 1) ^ ld)%Q) in *.
  set (u' := ((2 # 1) ^ (ln - ld - 1))%Q) in *.
  set (D := inject_Z (Z.pos d)) in *. set (N := inject_Z n) in *.
  set (a := (n # d)%Q) in *.
  rewrite Hsplit in Hn1, Hn2.
  assert (Hhigh : (a < (2 # 1) * u)%Q).
  { apply Qnot_le_lt. intros Hle.
    assert ((2 # 1) * u * D <= a * D)%Q by (apply Qmult_le_compat_r; [done | by apply Qlt_le_weak]).
    assert ((2 # 1) * u * w <= (2 # 1) * u * D)%Q.
    { apply Qmult_le_l; [| done]. nra. }
    nra. }
  assert (Hlow : (u' < a)%Q).
  { apply Qnot_le_lt. intros Hle.
    assert (a * D <= u' * D)%Q by (apply Qmult_le_compat_r; [done | by apply Qlt_le_weak]).
    assert (u' * D < u' * ((2 # 1) * w))%Q.
    { apply Qmult_lt_l; [apply pow2_pos | done]. }
    nra. }
  case_bool_decide as Hcase.
  - unfold Qcle in Hcase. rewrite pow2_this in Hcase. cbn [this] in Hcase.
    split; [done | done].
  - unfold Qcle in Hcase. rewrite pow2_this in Hcase. cbn [this] in Hcase.
    apply Qnot_le_lt in Hcase. fold u in Hcase.
    split; [by apply Qlt_le_weak |]. fold u'. by rewrite Hpred.
Qed.

(** Rounding to the nearest integer. *)
Lemma half_this : (this (fraction 1 2) == 1 # 2)%Q.
Proof. unfold fraction. cbn [this Q2Qc]. apply Qred_correct. Qed.

Lemma round_half_even_cases (r : Qc) :
  (round_half_even r = Qfloor r ∧ (r - inject_Z (Qfloor r) <= 1 # 2)%Q)
  ∨ (round_half_even r = (Qfloor r + 1)%Z ∧ (1 # 2 <= r - inject_Z (Qfloor r))%Q
     ∧ ((r - inject_Z (Qfloor r) == 1 # 2)%Q → Z.even (Qfloor r) = false)).
Proof.
  unfold round_half_even. cbv zeta.
  set (f := Qfloor r).
  assert (Hd : (this (r - Q2Qc (inject_Z f))%Qc == r - inject_Z f)%Q).
  { qc_to_q. lra. }
  pose proof half_this as Hhalf.
  case_bool_decide as H1.
  - left. unfold Qclt in H1. rewrite Hd, Hhalf in H1.
    split; [done | by apply Qlt_le_weak].
  - unfold Qclt in H1. rewrite Hd, Hhalf in H1. apply Qnot_lt_le in H1.
    case_bool_decide as H2.
    + right. unfold Qclt in H2. rewrite Hd, Hhalf in H2.
      split_and!; [done | done |]. intros Heq. rewrite Heq in H2.
      by apply Qlt_irrefl in H2.
    + unfold Qclt in H2. rewrite Hd, Hhalf in H2. apply Qnot_lt_le in H2.
      destruct (Z.even f) eqn:Heven.
      * left. done.
      * right. done.
Qed.

Lemma Qfloor_bounds (r : Q) :
  (inject_Z (Qfloor r) <= r)%Q ∧ (r < inject_Z (Qfloor r) + 1)%Q.
Proof.
  split; [apply Qfloor_le |].
  pose proof (Qlt_floor r) as H. by rewrite inject_Z_plus in H.
Qed.

Lemma round_half_even_near (r : Qc) :
  (inject_Z (round_half_even r) <= r + (1 # 2))%Q
  ∧ (inject_Z (Qfloor r) <= inject_Z (round_half_even r))%Q.
Proof.
  destruct (Qfloor_bounds r) as [Hlow Hhigh].
  destruct (round_half_even_cases r) as [(-> & Hd) | (-> & Hd & _)].
  - split; lra.
  - rewrite inject_Z_plus. change (inject_Z 1) with 1%Q. split; lra.
Qed.

Lemma round_half_even_le (r : Qc) (N : Z) :
  (r <= inject_Z N)%Q → (round_half_even r ≤ N)%Z.
Proof.
  intros Hr. destruct (Qfloor_bounds r) as [Hlow Hhigh].
  assert (Qfloor r ≤ N)%Z as Hf by (rewrite Zle_Qle; lra).
  destruct (round_half_even_cases r) as [(-> & Hd) | (-> & Hd & _)]; [done |].
  destruct (decide (Qfloor r = N)) as [Heq | Hne]; [| lia].
  rewrite Heq in Hd. lra.
Qed.

Lemma round_half_even_le_even (r : Qc) (N : Z) :
  Z.even N = true → (r <= inject_Z N + (1 # 2))%Q → (round_half_even r ≤ N)%Z.
Proof.
  intros Heven Hr. destruct (Qfloor_bounds r) as [Hlow Hhigh].
  assert (Qfloor r ≤ N)%Z as Hf.
  { apply Z.lt_succ_r. rewrite Zlt_Qlt, <- Z.add_1_r, inject_Z_plus.
    change (inject_Z 1) with 1%Q. lra. }
  destruct (round_half_even_cases r) as [(-> & Hd) | (-> & Hd & Htie)]; [done |].
  destruct (decide (Qfloor r = N)) as [Heq | Hne]; [| lia].
  rewrite Heq in Hd, Htie. rewrite Htie in Heven; [done |]. lra.
Qed.

(** Rounding a positive number to binary64. *)
Lemma Qc_pos_ne (a : Qc) : (0 < a)%Qc → a ≠ 0%Qc.
Proof. intros H E. apply (Qclt_not_eq _ _ H). by rewrite E. Qed.

Lemma binary64_pos (a : Qc) :
  (0 < a)%Qc →
  binary64 a
  = if bool_decide (pow2 1024 ≤ nearest a)%Qc then Infinity false else Num (nearest a).
Proof.
  intros Ha. unfold binary64. rewrite decide_False by (by apply Qc_pos_ne).
  rewrite (bool_decide_eq_false_2 (a < 0)%Qc); [done |].
  by apply Qcle_not_lt, Qclt_le_weak.
Qed.

Lemma nearest_this (a : Qc) :
  (this (nearest a)
   == inject_Z (round_half_even (a / pow2 (exponent a))) * (2 # 1) ^ exponent a)%Q.
Proof.
  unfold nearest, Qcmult. cbn [this Q2Qc]. rewrite !Qred_correct.
  by rewrite pow2_this.
Qed.

Lemma scaled_this (a : Qc) (e : Z) :
  (this (a / pow2 e)%Qc == a * (2 # 1) ^ (- e))%Q.
Proof.
  unfold Qcdiv, Qcmult, Qcinv. cbn [this Q2Qc]. rewrite !Qred_correct.
  by rewrite pow2_this, Qpower_opp.
Qed.

Lemma pow2_opp (e : Z) : ((2 # 1) ^ (- e) * (2 # 1) ^ e == 1)%Q.
Proof.
  rewrite <- Qpower_plus by apply two_ne_0.
  by replace (- e + e)%Z with 0%Z by lia.
Qed.

Lemma Qc_pos_this (a : Qc) : (0 < a)%Qc → (0 < this a)%Q.
Proof. intros H. exact H. Qed.

Lemma nearest_nonneg (a : Qc) : (0 < a)%Qc → (0 <= nearest a)%Q.
Proof.
  intros Ha. rewrite nearest_this.
  destruct (round_half_even_near (a / pow2 (exponent a))) as [_ Hfloor].
  pose proof (pow2_pos (exponent a)) as He.
  pose proof (pow2_pos (- exponent a)) as He'.
  assert (0 <= this (a / pow2 (exponent a))%Qc)%Q as Hx.
  { rewrite scaled_this. apply Qc_pos_this in Ha.
    apply Qmult_le_0_compat; by apply Qlt_le_weak. }
  assert (0 ≤ Qfloor (a / pow2 (exponent a))%Qc)%Z as Hf.
  { change 0%Z with (Qfloor 0). by apply Qfloor_resp_le. }
  rewrite Zle_Qle in Hf. change (inject_Z 0) with 0%Q in Hf.
  apply Qmult_le_0_compat; [lra | by apply Qlt_le_weak].
Qed.

(** A number below an integer of less than 54 bits is rounded to a number
    that is not above that integer. *)
Lemma exponent_small (a : Qc) :
  (0 < a)%Qc → (a < inject_Z (2 ^ 53))%Q → (exponent a ≤ 0)%Z.
Proof.
  intros Ha Hlt. destruct (Qc_log2_bounds a Ha) as [Hlow _].
  rewrite pow2_Z in Hlt by lia.
  assert ((2 # 1) ^ Qc_log2 a < (2 # 1) ^ 53)%Q as Hpow by lra.
  apply pow2_lt_inv in Hpow. unfold exponent. lia.
Qed.

Lemma nearest_le_integer (a : Qc) (N : Z) :
  (0 < a)%Qc → (a <= inject_Z N)%Q → (N < 2 ^ 53)%Z →
  (nearest a <= inject_Z N)%Q.
Proof.
  intros Ha HaN HN.
  assert (a < inject_Z (2 ^ 53))%Q as Hlt.
  { rewrite Zlt_Qlt in HN. lra. }
  pose proof (exponent_small a Ha Hlt) as He.
  set (e := exponent a) in *.
  pose proof (pow2_pos e) as Hpe. pose proof (pow2_pos (- e)) as Hpe'.
  pose proof (pow2_opp e) as Hopp.
  assert (Hint : (inject_Z (N * 2 ^ (- e)) == inject_Z N * (2 # 1) ^ (- e))%Q).
  { rewrite inject_Z_mult, pow2_Z by lia. done. }
  assert (round_half_even (a / pow2 e) ≤ N * 2 ^ (- e))%Z as Hm.
  { apply round_half_even_le. rewrite scaled_this, Hint. nra. }
  rewrite nearest_this. fold e. rewrite Zle_Qle, Hint in Hm.
  set (m := inject_Z (round_half_even (a / pow2 e))) in *.
  set (p := ((2 # 1) ^ e)%Q) in *. set (p' := ((2 # 1) ^ (- e))%Q) in *.
  set (n := inject_Z N) in *.
  assert (m * p <= n * p' * p)%Q by (apply Qmult_le_compat_r; [done | by apply Qlt_le_weak]).
  assert (n * p' * p == n)%Q as Hn by (rewrite <- Qmult_assoc, Hopp; ring).
  lra.
Qed.

Lemma no_overflow (v : Qc) (N : Z) :
  (v <= inject_Z N)%Q → (N ≤ 2 ^ 53)%Z → ¬ (pow2 1024 ≤ v)%Qc.
Proof.
  intros Hv HN Hle. unfold Qcle in Hle. rewrite pow2_this in Hle.
  rewrite Zle_Qle, pow2_Z in HN by lia.
  assert ((2 # 1) ^ 53 < (2 # 1) ^ 1024)%Q by (by apply Qpower_lt_compat_l).
  lra.
Qed.

Lemma binary64_le_integer (a : Qc) (N : Z) :
  (0 < a)%Qc → (a <= inject_Z N)%Q → (N < 2 ^ 53)%Z →
  binary64 a = Num (nearest a) ∧ (0 <= nearest a)%Q ∧ (nearest a <= inject_Z N)%Q.
Proof.
  intros Ha HaN HN. pose proof (nearest_le_integer a N Ha HaN HN) as Hle.
  rewrite binary64_pos by done.
  rewrite bool_decide_eq_false_2 by (apply (no_overflow _ N); [done | lia]).
  split_and!; [done | by apply nearest_nonneg | done].
Qed.

(** A number that exceeds 1024 by half a unit in the last place at most is
    rounded to 1024 at most: the tie goes to 1024, whose significand is
    even. *)
Lemma binary64_le_1024 (a : Qc) :
  (0 < a)%Qc → (a <= 1024 + (1 # 2 ^ 43))%Q →
  binary64 a = Num (nearest a) ∧ (0 <= nearest a)%Q ∧ (nearest a <= 1024)%Q.
Proof.
  intros Ha Hle.
  destruct (Qlt_le_dec 1024 a) as [Hbig | Hsmall].
  - destruct (Qc_log2_bounds a Ha) as [Hlow Hhigh].
    assert (H10 : ((2 # 1) ^ 10 == 1024)%Q) by reflexivity.
    assert (H11 : ((2 # 1) ^ 11 == 2048)%Q) by reflexivity.
    assert (Qc_log2 a = 10%Z) as HL.
    { assert ((2 # 1) ^ Qc_log2 a < (2 # 1) ^ 11)%Q as Hup.
      { rewrite H11. assert (1 # 2 ^ 43 < 1)%Q by reflexivity. lra. }
      assert ((2 # 1) ^ 10 < (2 # 1) ^ (Qc_log2 a + 1))%Q as Hdown.
      { rewrite pow2_succ, H10. lra. }
      apply pow2_lt_inv in Hup, Hdown. lia. }
    assert (exponent a = (-42)%Z) as He by (unfold exponent; rewrite HL; reflexivity).
    assert (H42 : ((2 # 1) ^ 42 == inject_Z (2 ^ 42))%Q) by reflexivity.
    assert (Hm42 : ((2 # 1) ^ (-42) * inject_Z (2 ^ 52) == 1024)%Q) by reflexivity.
    assert (round_half_even (a / pow2 (exponent a)) ≤ 2 ^ 52)%Z as Hm.
    { apply round_half_even_le_even; [reflexivity |].
      rewrite scaled_this, He. change (- -42)%Z with 42%Z. rewrite H42.
      assert ((1024 + (1 # 2 ^ 43)) * inject_Z (2 ^ 42) == inject_Z (2 ^ 52) + (1 # 2))%Q
        as <- by reflexivity.
      apply Qmult_le_compat_r; [exact Hle | discriminate]. }
    assert (nearest a <= 1024)%Q as Hnear.
    { rewrite nearest_this, He. rewrite Zle_Qle, He in Hm. rewrite <- Hm42.
      rewrite (Qmult_comm ((2 # 1) ^ (-42))).
      apply Qmult_le_compat_r; [exact Hm | apply Qlt_le_weak, pow2_pos]. }
    rewrite binary64_pos by done.
    rewrite bool_decide_eq_false_2 by (by apply (no_overflow _ 1024)).
    split_and!; [done | by apply nearest_nonneg | done].
  - by apply (binary64_le_integer a 1024).
Qed.

(** A number in the normal range is rounded with a relative error of
    [2 ^ -53] at most. *)
Lemma nearest_error (a : Qc) :
  (0 < a)%Qc → ((2 # 1) ^ (-1022) <= a)%Q →
  (nearest a <= a + a * (2 # 1) ^ (-53))%Q.
Proof.
  intros Ha Hnormal. destruct (Qc_log2_bounds a Ha) as [Hlow Hhigh].
  assert (-1022 ≤ Qc_log2 a)%Z as HL.
  { assert ((2 # 1) ^ (-1022) < (2 # 1) ^ (Qc_log2 a + 1))%Q as Hdown.
    { rewrite pow2_succ. lra. }
    apply pow2_lt_inv in Hdown. lia. }
  assert (exponent a = (Qc_log2 a - 52)%Z) as He by (unfold exponent; lia).
  rewrite nearest_this, He.
  destruct (round_half_even_near (a / pow2 (Qc_log2 a - 52))) as [Hm _].
  rewrite scaled_this in Hm.
  pose proof (pow2_opp (Qc_log2 a - 52)) as Hopp.
  pose proof (pow2_pos (Qc_log2 a - 52)) as Hpe.
  assert (Hsplit : ((2 # 1) ^ (Qc_log2 a - 52)
                    == (2 # 1) * ((2 # 1) ^ Qc_log2 a * (2 # 1) ^ (-53)))%Q).
  { rewrite <- Qpower_plus by apply two_ne_0.
    replace (Qc_log2 a + -53)%Z with (Qc_log2 a - 52 - 1)%Z by lia.
    by rewrite pow2_pred. }
  pose proof (pow2_pos (-53)) as H53.
  set (m := inject_Z (round_half_even (a / pow2 (Qc_log2 a - 52)))) in *.
  set (p := ((2 # 1) ^ (Qc_log2 a - 52))%Q) in *.
  set (p' := ((2 # 1) ^ (- (Qc_log2 a - 52)))%Q) in *.
  set (l := ((2 # 1) ^ Qc_log2 a)%Q) in *. set (u := ((2 # 1) ^ (-53))%Q) in *.
  assert (m * p <= (a * p' + (1 # 2)) * p)%Q
    by (apply Qmult_le_compat_r; [done | by apply Qlt_le_weak]).
  assert ((a * p' + (1 # 2)) * p == a + (1 # 2) * p)%Q as Heq.
  { transitivity (a * (p' * p) + (1 # 2) * p)%Q; [ring |]. rewrite Hopp. ring. }
  assert (l * u <= a * u)%Q by (apply Qmult_le_compat_r; [done | by apply Qlt_le_weak]).
  lra.
Qed.

(** ** The size of a scanned image *)

Lemma Z2Qc_this (z : Z) : (this (Q2Qc (inject_Z z)) == inject_Z z)%Q.
Proof. cbn [this Q2Qc]. apply Qred_correct. Qed.

Lemma dec_1024 : dec 1024 1 = Q2Qc (inject_Z 1024).
Proof. by_evaluation. Qed.

Lemma Qc_pos_of_this (a : Qc) : (0 < this a)%Q → (0 < a)%Qc.
Proof. intros H. exact H. Qed.

(** The shorter side [x] of an image, scaled by the ratio of 1024 to its
    longer side [y] as binary64 has it, is at most [x] and at most 1024. *)
Lemma scale_fits (x y : Z) :
  (0 ≤ x ≤ y)%Z → (1024 < y < 2 ^ 32)%Z →
  ∃ r v : Qc,
    js_div (Num (dec 1024 1)) (Num (Q2Qc (inject_Z y))) = Num r
    ∧ js_mul (Num (Q2Qc (inject_Z x))) (Num r) = Num v
    ∧ (0 <= v)%Q ∧ (v <= inject_Z x)%Q ∧ (v <= 1024)%Q.
Proof.
  intros [Hx Hxy] [Hy Hy32].
  pose proof (Z2Qc_this y) as HY. pose proof (Z2Qc_this x) as HX.
  set (Y := Q2Qc (inject_Z y)) in *. set (X := Q2Qc (inject_Z x)) in *.
  assert (1024 < inject_Z y)%Q as Hy' by (rewrite Zlt_Qlt in Hy; exact Hy).
  assert (inject_Z y < inject_Z (2 ^ 32))%Q as Hy32' by (by rewrite <- Zlt_Qlt).
  assert (0 <= inject_Z x)%Q as Hx' by (rewrite Zle_Qle in Hx; exact Hx).
  assert (inject_Z x <= inject_Z y)%Q as Hxy' by (by rewrite <- Zle_Qle).
  assert (Y ≠ 0%Qc) as HYne.
  { intros E. rewrite E in HY. change (this 0%Qc) with 0%Q in HY. lra. }
  rewrite dec_1024. unfold js_div. cbn [ToNumber]. rewrite decide_False by done.
  set (ρ := (Q2Qc (inject_Z 1024) / Y)%Qc).
  assert (Hρ : (this ρ * inject_Z y == 1024)%Q).
  { subst ρ. unfold Qcdiv, Qcmult, Qcinv. cbn [this Q2Qc].
    rewrite !Qred_correct, HY. change (inject_Z 1024) with 1024%Q. field. lra. }
  assert (0 < this ρ)%Q as Hρpos.
  { apply Qnot_le_lt. intros Hle.
    assert (this ρ * inject_Z y <= 0 * inject_Z y)%Q
      by (apply Qmult_le_compat_r; lra).
    lra. }
  assert (this ρ <= 1)%Q as Hρ1.
  { apply Qnot_lt_le. intros Hlt.
    assert (1 * inject_Z y < this ρ * inject_Z y)%Q
      by (apply Qmult_lt_compat_r; lra).
    lra. }
  assert (((2 # 1) ^ (-1022) <= this ρ)%Q) as Hnormal.
  { assert (((2 # 1) ^ (-1022) <= (2 # 1) ^ (-22))%Q) by (by apply pow2_le).
    assert (((2 # 1) ^ (-22) * inject_Z (2 ^ 32) == 1024)%Q) as H22 by reflexivity.
    pose proof (pow2_pos (-22)) as Hp22.
    assert ((2 # 1) ^ (-22) <= this ρ)%Q; [| lra].
    apply Qnot_lt_le. intros Hlt.
    assert (this ρ * inject_Z y < (2 # 1) ^ (-22) * inject_Z y)%Q
      by (apply Qmult_lt_compat_r; lra).
    assert ((2 # 1) ^ (-22) * inject_Z y < (2 # 1) ^ (-22) * inject_Z (2 ^ 32))%Q
      by (apply Qmult_lt_l; lra).
    lra. }
  destruct (binary64_le_integer ρ 1 (Qc_pos_of_this _ Hρpos) Hρ1 eq_refl)
    as (Hr & Hr0 & Hr1).
  pose proof (nearest_error ρ (Qc_pos_of_this _ Hρpos) Hnormal) as Herr.
  exists (nearest ρ). rewrite Hr. unfold js_mul. cbn [ToNumber].
  set (r := nearest ρ) in *.
  assert (Ha : (this (X * r)%Qc == inject_Z x * r)%Q).
  { unfold Qcmult. cbn [this Q2Qc]. by rewrite Qred_correct, HX. }
  assert (0 <= this (X * r)%Qc)%Q as Ha0.
  { rewrite Ha. by apply Qmult_le_0_compat. }
  destruct (decide ((X * r)%Qc = 0%Qc)) as [Hzero | Hne].
  - rewrite Hzero. exists 0%Qc. split_and!; [done | done | done | done | done].
  - assert (0 < X * r)%Qc as Hpos.
    { destruct (Qclt_le_dec 0 (X * r)) as [Hlt | Hle]; [done |].
      destruct Hne. apply Qcle_antisym; [done | exact Ha0]. }
    assert (this (X * r)%Qc <= inject_Z x)%Q as Hax.
    { rewrite Ha.
      assert (inject_Z x * r <= inject_Z x * 1)%Q.
      { rewrite !(Qmult_comm (inject_Z x)).
        apply Qmult_le_compat_r; [exact Hr1 | exact Hx']. }
      lra. }
    destruct (binary64_le_integer (X * r) x Hpos Hax ltac:(lia)) as (Hv & Hv0 & Hvx).
    assert (this (X * r)%Qc <= 1024 + (1 # 2 ^ 43))%Q as Ha1024.
    { rewrite Ha.
      assert (1024 * (2 # 1) ^ (-53) == 1 # 2 ^ 43)%Q as <- by reflexivity.
      pose proof (pow2_pos (-53)) as H53.
      set (u := ((2 # 1) ^ (-53))%Q) in *.
      assert (inject_Z x * r <= inject_Z y * r)%Q
        by (apply Qmult_le_compat_r; [exact Hxy' | exact Hr0]).
      assert (inject_Z y * r <= inject_Z y * (ρ + ρ * u))%Q.
      { rewrite !(Qmult_comm (inject_Z y)).
        apply Qmult_le_compat_r; [exact Herr | lra]. }
      assert (inject_Z y * (ρ + ρ * u) == 1024 + 1024 * u)%Q as Heq.
      { transitivity (ρ * inject_Z y + ρ * inject_Z y * u)%Q; [ring |].
        by rewrite Hρ. }
      lra. }
    destruct (binary64_le_1024 (X * r) Hpos Ha1024) as (_ & _ & Hv1024).
    exists (nearest (X * r)). split_and!; done.
Qed.

Lemma of_N_this (n : N) : (this (ExpenseForm.of_N n) == inject_Z (Z.of_N n))%Q.
Proof. apply Z2Qc_this. Qed.

Lemma of_N_lt (a b : N) : (ExpenseForm.of_N a < ExpenseForm.of_N b)%Qc ↔ (a < b)%N.
Proof. unfold Qclt. rewrite !of_N_this, <- Zlt_Qlt. lia. Qed.

Lemma of_N_le (a b : N) : (ExpenseForm.of_N a ≤ ExpenseForm.of_N b)%Qc ↔ (a ≤ b)%N.
Proof. unfold Qcle. rewrite !of_N_this, <- Zle_Qle. lia. Qed.

Lemma of_N_1024 : ExpenseForm.of_N 1024 = dec 1024 1.
Proof. by rewrite dec_1024. Qed.

Lemma of_N_nonneg (n : N) : (0 ≤ ExpenseForm.of_N n)%Qc.
Proof. change 0%Qc with (ExpenseForm.of_N 0). apply of_N_le. lia. Qed.

Lemma Qcle_of_N (v : Qc) (n : N) :
  (v <= inject_Z (Z.of_N n))%Q → (v ≤ ExpenseForm.of_N n)%Qc.
Proof. intros H. unfold Qcle. by rewrite of_N_this. Qed.

(** The length the canvas takes from a number between 0 and an integer. *)
Lemma canvas_length_le (q : Qc) (n : N) :
  (0 ≤ q)%Qc → (q ≤ ExpenseForm.of_N n)%Qc →
  (ExpenseForm.canvas_length (Num q) ≤ n)%N.
Proof.
  intros Hq0 Hq. unfold ExpenseForm.canvas_length, ExpenseForm.truncate.
  rewrite bool_decide_eq_false_2 by (by apply Qcle_not_lt).
  unfold Qcle in Hq, Hq0. rewrite of_N_this in Hq.
  apply Qfloor_resp_le in Hq, Hq0. rewrite Qfloor_Z in Hq.
  change (Qfloor (this 0%Qc)) with 0%Z in Hq0.
  pose proof (Z.mod_le (Qfloor q) (2 ^ 32) Hq0 eq_refl) as Hmod.
  pose proof (Z.mod_pos_bound (Qfloor q) (2 ^ 32) eq_refl) as Hpos.
  lia.
Qed.

Lemma resizeImage_size_cases (img_width img_height : N) :
  (img_width < 2 ^ 32)%N → (img_height < 2 ^ 32)%N →
  ∃ width height : Qc,
    ExpenseForm.resizeImage_size img_width img_height = (Num width, Num height)
    ∧ (0 ≤ width)%Qc ∧ (width ≤ dec 1024 1)%Qc
    ∧ (width ≤ ExpenseForm.of_N img_width)%Qc
    ∧ (0 ≤ height)%Qc ∧ (height ≤ dec 1024 1)%Qc
    ∧ (height ≤ ExpenseForm.of_N img_height)%Qc
    ∧ ((img_width ≤ 1024 ∧ img_height ≤ 1024)%N
       ↔ (width = ExpenseForm.of_N img_width ∧ height = ExpenseForm.of_N img_height)).
Proof.
  intros HW HH. unfold ExpenseForm.resizeImage_size, js_gt,
    ExpenseForm.MAX_WIDTH, ExpenseForm.MAX_HEIGHT. cbn [ToNumber].
  rewrite <- of_N_1024.
  case_bool_decide as Hwide; [apply of_N_lt in Hwide | rewrite of_N_lt in Hwide];
    case_bool_decide as Hbig; [apply of_N_lt in Hbig | rewrite of_N_lt in Hbig
                               | apply of_N_lt in Hbig | rewrite of_N_lt in Hbig].
  - destruct (scale_fits (Z.of_N img_height) (Z.of_N img_width))
      as (r & v & Hr & Hv & Hv0 & Hvx & Hv1024); [lia | lia |].
    rewrite of_N_1024. unfold ExpenseForm.of_N at 1 2. rewrite Hr, Hv.
    rewrite <- of_N_1024.
    exists (ExpenseForm.of_N 1024), v.
    split_and!; [done | apply of_N_nonneg | apply Qcle_refl | apply of_N_le; lia
                 | exact Hv0 | by apply (Qcle_of_N v 1024) | by apply Qcle_of_N |].
    split; [lia |]. intros [Heq _]. exfalso.
    {
      apply (f_equal (λ q, bool_decide (q < ExpenseForm.of_N img_width)%Qc)) in Heq.
      rewrite bool_decide_eq_true_2 in Heq by (by apply of_N_lt).
      rewrite bool_decide_eq_false_2 in Heq; [done |]. rewrite of_N_lt. lia. }
  - exists (ExpenseForm.of_N img_width), (ExpenseForm.of_N img_height).
    split_and!; [done | apply of_N_nonneg | apply of_N_le; lia | apply Qcle_refl
                 | apply of_N_nonneg | apply of_N_le; lia | apply Qcle_refl |].
    split; [done | lia].
  - destruct (scale_fits (Z.of_N img_width) (Z.of_N img_height))
      as (r & v & Hr & Hv & Hv0 & Hvx & Hv1024); [lia | lia |].
    rewrite of_N_1024. unfold ExpenseForm.of_N at 1 2. rewrite Hr, Hv.
    rewrite <- of_N_1024.
    exists v, (ExpenseForm.of_N 1024).
    split_and!; [done | exact Hv0 | by apply (Qcle_of_N v 1024) | by apply Qcle_of_N
                 | apply of_N_nonneg | apply Qcle_refl | apply of_N_le; lia |].
    split; [lia |]. intros [_ Heq]. exfalso.
    {
      apply (f_equal (λ q, bool_decide (q < ExpenseForm.of_N img_height)%Qc)) in Heq.
      rewrite bool_decide_eq_true_2 in Heq by (by apply of_N_lt).
      rewrite bool_decide_eq_false_2 in Heq; [done |]. rewrite of_N_lt. lia. }
  - exists (ExpenseForm.of_N img_width), (ExpenseForm.of_N img_height).
    split_and!; [done | apply of_N_nonneg | apply of_N_le; lia | apply Qcle_refl
                 | apply of_N_nonneg | apply of_N_le; lia | apply Qcle_refl |].
    split; [done | lia].
Qed.

(** X11. [resizeImage] makes an image fit and never enlarges it: for an
    image whose natural size is a pair of integers below [2 ^ 32], the width
    and the height it draws at, computed in binary64, are numbers between 0
    and 1024 that do not exceed the natural width and height, and they are
    the natural width and height exactly when these are 1024 at most; the
    canvas, whose sides are the integer parts of these numbers, is within
    1024 by 1024 and within the natural size. *)
Theorem resizeImage_size_fits (img_width img_height : N) :
  (img_width < 2 ^ 32)%N → (img_height < 2 ^ 32)%N →
  ∃ width height : Qc,
    ExpenseForm.resizeImage_size img_width img_height = (Num width, Num height)
    ∧ (0 ≤ width)%Qc ∧ (width ≤ dec 1024 1)%Qc
    ∧ (width ≤ ExpenseForm.of_N img_width)%Qc
    ∧ (0 ≤ height)%Qc ∧ (height ≤ dec 1024 1)%Qc
    ∧ (height ≤ ExpenseForm.of_N img_height)%Qc
    ∧ ((img_width ≤ 1024 ∧ img_height ≤ 1024)%N
       ↔ (width = ExpenseForm.of_N img_width ∧ height = ExpenseForm.of_N img_height))
    ∧ ((ExpenseForm.resizeImage_canvas img_width img_height).1 ≤ 1024)%N
    ∧ ((ExpenseForm.resizeImage_canvas img_width img_height).2 ≤ 1024)%N
    ∧ ((ExpenseForm.resizeImage_canvas img_width img_height).1 ≤ img_width)%N
    ∧ ((ExpenseForm.resizeImage_canvas img_width img_height).2 ≤ img_height)%N.
Proof.
  intros HW HH.
  destruct (resizeImage_size_cases img_width img_height HW HH)
    as (width & height & Hsize & Hw0 & Hw1024 & Hw & Hh0 & Hh1024 & Hh & Hiff).
  exists width, height. unfold ExpenseForm.resizeImage_canvas. rewrite Hsize.
  cbn [fst snd]. rewrite <- of_N_1024 in Hw1024, Hh1024.
  split_and!; try done; by apply canvas_length_le.
Qed.

(** X11 for an image of 3000 by 2000 pixels. *)
Lemma resizeImage_size_fits_witness :
  ((3000 < 2 ^ 32)%N ∧ (2000 < 2 ^ 32)%N)
  ∧ ∃ width height : Qc,
      ExpenseForm.resizeImage_size 3000 2000 = (Num width, Num height)
      ∧ (0 ≤ width)%Qc ∧ (width ≤ dec 1024 1)%Qc
      ∧ (width ≤ ExpenseForm.of_N 3000)%Qc
      ∧ (0 ≤ height)%Qc ∧ (height ≤ dec 1024 1)%Qc
      ∧ (height ≤ ExpenseForm.of_N 2000)%Qc
      ∧ ((3000 ≤ 1024 ∧ 2000 ≤ 1024)%N
         ↔ (width = ExpenseForm.of_N 3000 ∧ height = ExpenseForm.of_N 2000))
      ∧ ((ExpenseForm.resizeImage_canvas 3000 2000).1 ≤ 1024)%N
      ∧ ((ExpenseForm.resizeImage_canvas 3000 2000).2 ≤ 1024)%N
      ∧ ((ExpenseForm.resizeImage_canvas 3000 2000).1 ≤ 3000)%N
      ∧ ((ExpenseForm.resizeImage_canvas 3000 2000).2 ≤ 2000)%N.
Proof.
  split; [split; reflexivity |].
  apply (resizeImage_size_fits 3000 2000); reflexivity.
Defined.

(** The image of 3000 by 2000 pixels is drawn at 1024 by 682.6666666666666,
    which is not two thirds of 1024, on a canvas of 1024 by 682; an image of
    1062 by 54 pixels is drawn at a height of 52.06779661016949, which is
    not in the proportion of its natural size; an image of 640 by 480 pixels
    is drawn as it is. *)
Lemma resizeImage_size_examples :
  ExpenseForm.resizeImage_size 3000 2000
  = (Num (dec 1024 1), Num (dec 6826666666666666 10000000000000))
  ∧ dec 6826666666666666 10000000000000 ≠ fraction 2048 3
  ∧ ExpenseForm.resizeImage_canvas 3000 2000 = (1024%N, 682%N)
  ∧ ExpenseForm.resizeImage_size 1062 54
    = (Num (dec 1024 1), Num (dec 5206779661016949 100000000000000))
  ∧ (dec 5206779661016949 100000000000000 * ExpenseForm.of_N 1062
     ≠ dec 1024 1 * ExpenseForm.of_N 54)%Qc
  ∧ ExpenseForm.resizeImage_size 640 480
    = (Num (ExpenseForm.of_N 640), Num (ExpenseForm.of_N 480)).
Proof. by_evaluation. Qed.
